(** * Strawberry fields: a shallow embedding of the greenhouse solver

    The development follows the four source files of the repository:
    [rectangle.py] (the rectangle value type and its merge), [field.py]
    (the sparse point field and its queries), [memoize.py] (a result cache,
    transparent for the pure functions it wraps) and [solve_problems.py]
    (the initial-partition builder and the agglomeration search).

    Python integers are unbounded, so they are modelled by [Z].  A Python
    list is a [list]; a [frozenset] of rectangles is a [gset Rectangle] and
    the [set] of frozensets a [gset (gset Rectangle)]; dictionaries are
    [gmap]s.  Exceptions ([IndexError], [ValueError], [KeyError]) are the
    [None] of an [option] result. *)

From Stdlib Require Import Ascii.
From stdpp Require Import base tactics option list numbers sorting strings gmap.

Local Open Scope Z_scope.

(** ** rectangle.py *)

(** The named tuple [Rectangle(top, left, bottom, right, cost, area)].  The
    field names carry a prefix because [left], [right] and [top] are taken
    in Rocq. *)
Record Rectangle : Type := mkRectangle {
  rtop : Z;
  rleft : Z;
  rbottom : Z;
  rright : Z;
  rcost : Z;
  rarea : Z
}.

#[global] Instance Rectangle_eq_dec : EqDecision Rectangle.
Proof. solve_decision. Defined.

Definition Rectangle_to_tuple (r : Rectangle) : Z * Z * Z * Z * Z * Z :=
  (rtop r, rleft r, rbottom r, rright r, rcost r, rarea r).

Definition Rectangle_of_tuple (t : Z * Z * Z * Z * Z * Z) : Rectangle :=
  let '(a, b, c, d, e, f) := t in mkRectangle a b c d e f.

#[global] Instance Rectangle_countable : Countable Rectangle.
Proof.
  apply (inj_countable' Rectangle_to_tuple Rectangle_of_tuple).
  by intros [].
Defined.

(** A point is a [(row, column)] pair. *)
Definition Point : Type := Z * Z.

(** [make_rectangle(top, left, bottom, right)]; the [Memoize] decorator
    caches a pure function and is the identity on results. *)
Definition make_rectangle (top left bottom right : Z) : Rectangle :=
  let a := (bottom - top + 1) * (right - left + 1) in
  mkRectangle top left bottom right (a + 10) a.

(** [Rectangle.__contains__]. *)
Definition contains (self : Rectangle) (p : Point) : bool :=
  let '(r, c) := p in
  (rtop self <=? r) && (r <=? rbottom self) &&
  (rleft self <=? c) && (c <=? rright self).

(** [Rectangle.merge]. *)
Definition merge (self other : Rectangle) : Rectangle :=
  let top := if rtop self <? rtop other then rtop self else rtop other in
  let left := if rleft self <? rleft other then rleft self else rleft other in
  let bottom :=
    if rbottom self >? rbottom other then rbottom self else rbottom other in
  let right :=
    if rright self >? rright other then rright self else rright other in
  let a := (bottom - top + 1) * (right - left + 1) in
  mkRectangle top left bottom right (a + 10) a.

(** [merge_rectangles], the memoized program-scope wrapper. *)
Definition merge_rectangles (rect1 rect2 : Rectangle) : Rectangle :=
  merge rect1 rect2.

(** The data-model invariant of a rectangle: cost and area are functions of
    the bounds. *)
Definition derived_ok (r : Rectangle) : Prop :=
  rarea r = (rbottom r - rtop r + 1) * (rright r - rleft r + 1) ∧
  rcost r = rarea r + 10.

(** Bounds of [r] lie within the bounds of [outer]. *)
Definition encloses (outer r : Rectangle) : Prop :=
  rtop outer <= rtop r ∧ rleft outer <= rleft r ∧
  rbottom r <= rbottom outer ∧ rright r <= rright outer.

(** Non-empty rectangles: the bounds are ordered. *)
Definition well_formed (r : Rectangle) : Prop :=
  rtop r <= rbottom r ∧ rleft r <= rright r.

(** ** Python built-ins used by the sources *)

(** [sys.maxsize] of a 64-bit interpreter. *)
Definition sys_maxsize : Z := 9223372036854775807.

(** [l[i]] for a Python list: a negative index counts from the end, an
    index outside [-len, len) raises [IndexError]. *)
Definition py_getitem {A} (l : list A) (i : Z) : option A :=
  if 0 <=? i then l !! Z.to_nat i
  else if - Z.of_nat (length l) <=? i then l !! Z.to_nat (Z.of_nat (length l) + i)
  else None.

(** [range(lo, hi)]. *)
Definition py_range (lo hi : Z) : list Z := seqZ lo (hi - lo).

(** [min(l)] and [max(l)]; both raise [ValueError] on an empty list. *)
Definition py_min (l : list Z) : option Z :=
  match l with
  | [] => None
  | x :: t => Some (foldl Z.min x t)
  end.

Definition py_max (l : list Z) : option Z :=
  match l with
  | [] => None
  | x :: t => Some (foldl Z.max x t)
  end.

(** [l.remove(x)]: drops the first element equal to [x], raises
    [ValueError] when there is none. *)
Fixpoint list_remove (x : Rectangle) (l : list Rectangle)
    : option (list Rectangle) :=
  match l with
  | [] => None
  | y :: t => if decide (x = y) then Some t else (y ::.) <$> list_remove x t
  end.

(** [itertools.combinations(seq, 2)]: the pairs of positions [i < j], in
    lexicographic order of the positions. *)
Fixpoint combinations2 {A} (seq : list A) : list (A * A) :=
  match seq with
  | [] => []
  | x :: t => map (pair x) t ++ combinations2 t
  end.

(** The module [random].  Its generator state is threaded explicitly; all
    that is known of [shuffle] is that it permutes its argument, and of
    [sample] that it picks [k] elements of the population. *)
Class RandomSource (G : Type) : Type := {
  shuffle : G → list Rectangle → list Rectangle * G;
  sample : G → list (list Rectangle) → nat → list (list Rectangle) * G;
  shuffle_perm : ∀ g l, (shuffle g l).1 ≡ₚ l;
  sample_spec : ∀ g l k,
    (k ≤ length l)%nat →
    length (sample g l k).1 = k ∧ (sample g l k).1 ⊆+ l
}.

(** A concrete generator, to run the model: the state counts the calls,
    every other shuffle reverses the list, and a sample is a prefix. *)
Definition parity_shuffle (g : nat) (l : list Rectangle)
    : list Rectangle * nat :=
  (if Nat.even g then l else reverse l, S g).

Definition prefix_sample (g : nat) (l : list (list Rectangle)) (k : nat)
    : list (list Rectangle) * nat :=
  (take k l, S g).

#[global] Program Instance parity_source : RandomSource nat := {|
  shuffle := parity_shuffle;
  sample := prefix_sample
|}.
Next Obligation.
  intros g l. unfold parity_shuffle; simpl.
  destruct (Nat.even g); [done | apply reverse_Permutation].
Qed.
Next Obligation.
  intros g l k Hk. unfold prefix_sample; simpl. split.
  - rewrite length_take. lia.
  - apply sublist_submseteq, sublist_take.
Qed.

(** ** memoize.py *)

Section Memoize.
Context {K V : Type} `{Countable K}.

(** [Memoize.cache_get(cache, key, func)]: on a hit the stored value, on
    a miss ([KeyError]) the value of the thunk, stored and read back. *)
Definition cache_get {A} (cache : gmap K A) (key : K) (func : unit → A)
    : A * gmap K A :=
  match cache !! key with
  | Some v => (v, cache)
  | None => let v := func () in (v, <[key := v]> cache)
  end.

(** A [Memoize] object wrapping a function: [self.func] and the
    dictionary [self.memoized], keyed by the argument tuple. *)
Record Memoize : Type := mkMemoize {
  func : K → V;
  memoized : gmap K V
}.

(** [Memoize.__init__(func)]. *)
Definition Memoize_init (func : K → V) : Memoize :=
  {| func := func; memoized := ∅ |}.

(** [Memoize.__call__] on the argument tuple [args]: the result and the
    object afterwards. *)
Definition Memoize_call (self : Memoize) (args : K) : V * Memoize :=
  let '(v, cache) :=
    cache_get (memoized self) args (λ _, func self args) in
  (v, {| func := func self; memoized := cache |}).

(** A sequence of calls on one object. *)
Fixpoint Memoize_calls (self : Memoize) (calls : list K)
    : list V * Memoize :=
  match calls with
  | [] => ([], self)
  | args :: rest =>
      let '(v, self) := Memoize_call self args in
      let '(vs, self) := Memoize_calls self rest in
      (v :: vs, self)
  end.
End Memoize.

Section Memoize_method.
Context {O K V : Type} `{Countable O} `{Countable K}.

(** A [Memoize] object wrapping a method: [self.func] takes the object
    first, and [self.method_cache] maps each object to its own wrapper
    [Memoize(functools.partial(self.func, obj))]. *)
Record MemoizeMethod : Type := mkMemoizeMethod {
  mfunc : O → K → V;
  method_cache : gmap O (@Memoize K V _ _)
}.

(** [obj.method(args)] for a decorated method: [__get__] fetches or
    creates the wrapper of [obj], [__call__] on it updates the wrapper in
    place. *)
Definition Memoize_method_call (self : MemoizeMethod) (obj : O) (args : K)
    : V * MemoizeMethod :=
  let '(wrapper, cache) :=
    cache_get (method_cache self) obj
      (λ _, Memoize_init (mfunc self obj)) in
  let '(v, wrapper) := Memoize_call wrapper args in
  (v, {| mfunc := mfunc self; method_cache := <[obj := wrapper]> cache |}).

(** A sequence of method calls, on any objects. *)
Fixpoint Memoize_method_calls (self : MemoizeMethod) (calls : list (O * K))
    : list V * MemoizeMethod :=
  match calls with
  | [] => ([], self)
  | (obj, args) :: rest =>
      let '(v, self) := Memoize_method_call self obj args in
      let '(vs, self) := Memoize_method_calls self rest in
      (v :: vs, self)
  end.
End Memoize_method.

(** The stored results are the function's. *)
Definition cache_consistent {K V} `{Countable K}
    (self : @Memoize K V _ _) : Prop :=
  ∀ k v, memoized self !! k = Some v → v = func self k.

(** Every wrapper in the method cache wraps the method of its object
    and stores its results. *)
Definition method_cache_consistent {O K V} `{Countable O} `{Countable K}
    (self : @MemoizeMethod O K V _ _ _ _) : Prop :=
  ∀ o w, method_cache self !! o = Some w →
         func w = mfunc self o ∧ cache_consistent w.

(** ** field.py *)

(** The attributes of a [StrawberryField].  [rows] is the sparse matrix:
    one list of berries per input row. *)
Record StrawberryField : Type := mkField {
  rows : list (list Point);
  num_rows : Z;
  num_cols : Z;
  ftop : Z;
  fleft : Z;
  fright : Z;
  fbottom : Z;
  maximum_greenhouses : Z
}.

(** The loop of [add_row] over [enumerate(elements)]; the state is
    [(rbuf, top, left, bottom, right)]. *)
Fixpoint add_row_loop (num_rows idx : Z) (elements : list Ascii.ascii)
    (st : list Point * Z * Z * Z * Z) : list Point * Z * Z * Z * Z :=
  match elements with
  | [] => st
  | elem :: rest =>
      let '(rbuf, top_, left_, bottom_, right_) := st in
      if Ascii.eqb elem "@"%char then
        add_row_loop num_rows (idx + 1) rest
          (rbuf ++ [(num_rows, idx)],
           Z.min top_ num_rows, Z.min left_ idx,
           Z.max bottom_ num_rows, Z.max right_ idx)
      else add_row_loop num_rows (idx + 1) rest st
  end.

(** [StrawberryField.add_row]. *)
Definition add_row (self : StrawberryField) (row : string) : StrawberryField :=
  let elements := String.list_ascii_of_string row in
  let '(rbuf, top_, left_, bottom_, right_) :=
    add_row_loop (num_rows self) 0 elements
      ([], ftop self, fleft self, fbottom self, fright self) in
  {| rows := rows self ++ [rbuf];
     num_rows := num_rows self + 1;
     num_cols := if num_cols self <? Z.of_nat (length elements)
                 then Z.of_nat (length elements) else num_cols self;
     ftop := top_; fleft := left_; fright := right_; fbottom := bottom_;
     maximum_greenhouses := maximum_greenhouses self |}.

(** [StrawberryField.__init__(data)].  [data[0]] is given already parsed
    and [data[1:]] as the list of grid rows. *)
Definition StrawberryField_init (maximum : Z) (data : list string)
    : StrawberryField :=
  foldl add_row
    {| rows := []; num_rows := 0; num_cols := 0;
       ftop := sys_maxsize; fleft := sys_maxsize;
       fright := -1; fbottom := -1;
       maximum_greenhouses := maximum |}
    data.

(** [self.root_region]: assigned once at the end of [__init__] from the
    final bounds, which are never written again. *)
Definition root_region (self : StrawberryField) : Rectangle :=
  make_rectangle (ftop self) (fleft self) (fbottom self) (fright self).

(** The loop of [num_strawberries] over [range(top, bottom + 1)]. *)
Fixpoint num_strawberries_loop (self : StrawberryField)
    (rectangle : Rectangle) (idxs : list Z) (num : Z) : option Z :=
  match idxs with
  | [] => Some num
  | i :: idxs' =>
      row ← py_getitem (rows self) i;
      num_strawberries_loop self rectangle idxs'
        (num + Z.of_nat (length
           (filter (λ berry : Point,
              rleft rectangle <= berry.2 <= rright rectangle) row)))
  end.

(** [StrawberryField.num_strawberries]. *)
Definition num_strawberries (self : StrawberryField) (rectangle : Rectangle)
    : option Z :=
  num_strawberries_loop self rectangle
    (py_range (rtop rectangle) (rbottom rectangle + 1)) 0.

(** The loop of [get_berries_in_rectangle]. *)
Fixpoint berries_loop (self : StrawberryField) (rectangle : Rectangle)
    (idxs : list Z) (berries : list Point) : option (list Point) :=
  match idxs with
  | [] => Some berries
  | i :: idxs' =>
      row ← py_getitem (rows self) i;
      berries_loop self rectangle idxs'
        (berries ++ filter (λ berry, contains rectangle berry) row)
  end.

(** [StrawberryField.get_berries_in_rectangle]. *)
Definition get_berries_in_rectangle (self : StrawberryField)
    (rectangle : Rectangle) : option (list Point) :=
  berries_loop self rectangle
    (py_range (rtop rectangle) (rbottom rectangle + 1)) [].

(** [StrawberryField.feasible_region].  The argument is [None] or a
    rectangle (a six-element tuple, hence truthy); the result is an
    exception (outer [None]), Python's [None] (inner [None]) or a
    rectangle. *)
Definition feasible_region (self : StrawberryField)
    (rectangle : option Rectangle) : option (option Rectangle) :=
  match rectangle with
  | None => Some (Some (root_region self))
  | Some rectangle =>
      berries ← get_berries_in_rectangle self rectangle;
      let b_zero := berries.*1 in
      let b_one := berries.*2 in
      match berries with
      | _ :: _ =>
          o0 ← py_min b_zero; o1 ← py_min b_one;
          e0 ← py_max b_zero; e1 ← py_max b_one;
          Some (Some (make_rectangle o0 o1 e0 e1))
      | [] => Some None
      end
  end.

(** [StrawberryField._get_rect_id]. *)
Fixpoint get_rect_id_from (idx : nat) (berry : Point)
    (partition : list Rectangle) : option nat :=
  match partition with
  | [] => None
  | rect :: rest =>
      if contains rect berry then Some idx
      else get_rect_id_from (S idx) berry rest
  end.

Definition _get_rect_id (berry : Point) (partition : list Rectangle)
    : option nat :=
  get_rect_id_from 0 berry partition.

(** [StrawberryField.list_berries]. *)
Definition list_berries (self : StrawberryField) (partition : list Rectangle)
    : option (list (Point * option nat)) :=
  berries ← get_berries_in_rectangle self (root_region self);
  Some (map (λ berry, (berry, _get_rect_id berry partition)) berries).

(** ** solve_problems.py *)

Definition MAX_SUCCESSORS : nat := 100.

(** The class [BestSolution]: the attributes [_solution] and [_score]. *)
Record BestSolution : Type := mkBestSolution {
  _solution : option (list Rectangle);
  _score : Z
}.

(** [BestSolution.__init__]. *)
Definition BestSolution_init : BestSolution :=
  {| _solution := None; _score := sys_maxsize |}.

(** [BestSolution.store]. *)
Definition store (self : BestSolution) (candidate : list Rectangle)
    (score goal : Z) : BestSolution :=
  if (score <? _score self) && (Z.of_nat (length candidate) <=? goal)
  then {| _solution := Some candidate; _score := score |}
  else self.

(** [BestSolution.solution]. *)
Definition solution (self : BestSolution) : option (list Rectangle) :=
  _solution self.

(** [get_score]: [sum] adds the costs to [0] from left to right. *)
Definition get_score (partition : list Rectangle) : Z :=
  foldl (λ acc r, acc + rcost r) 0 partition.

(** The test in the overlap loops of [successors_by_agglomeration] and
    [combine_and_maintain_density] that makes them [continue]. *)
Definition apart (greenhouse new_house : Rectangle) : bool :=
  (rbottom greenhouse <? rtop new_house) ||
  (rtop greenhouse >? rbottom new_house) ||
  (rright greenhouse <? rleft new_house) ||
  (rleft greenhouse >? rright new_house).

(** The overlap loop itself: it counts the members that are not apart from
    [new_house] and leaves as soon as the count exceeds two. *)
Fixpoint count_overlaps_loop (new_house : Rectangle)
    (greenhouse_list : list Rectangle) (count_overlaps : Z) : Z :=
  match greenhouse_list with
  | [] => count_overlaps
  | greenhouse :: rest =>
      if apart greenhouse new_house
      then count_overlaps_loop new_house rest count_overlaps
      else
        let count_overlaps := count_overlaps + 1 in
        if count_overlaps >? 2 then count_overlaps
        else count_overlaps_loop new_house rest count_overlaps
  end.

Definition count_overlaps (greenhouse_list : list Rectangle)
    (new_house : Rectangle) : Z :=
  count_overlaps_loop new_house greenhouse_list 0.

(** The state of a round: [(best_score, successors)]. *)
Definition RoundState : Type := Z * gset (gset Rectangle).

(** The inner loop of [successors_by_agglomeration] over the pairs of one
    (already shuffled) [greenhouse_list].  The boolean of the result tells
    whether the loop was left by its [break]. *)
Fixpoint pairs_loop (greenhouse_list : list Rectangle) (base_score : Z)
    (ps : list (Rectangle * Rectangle)) (st : RoundState)
    : option (RoundState * bool) :=
  match ps with
  | [] => Some (st, false)
  | (house1, house2) :: ps' =>
      let '(best_score, successors) := st in
      let successor := greenhouse_list in
      let new_house := merge_rectangles house1 house2 in
      if count_overlaps greenhouse_list new_house =? 2 then
        successor ← list_remove house1 successor;
        successor ← list_remove house2 successor;
        let successor := successor ++ [new_house] in
        let score :=
          base_score - rcost house1 - rcost house2 + rcost new_house in
        if score <? best_score then
          let frozen_successor : gset Rectangle := list_to_set successor in
          pairs_loop greenhouse_list base_score ps' (score, {[frozen_successor]})
        else if score =? best_score then
          let frozen_successor : gset Rectangle := list_to_set successor in
          let successors := {[frozen_successor]} ∪ successors in
          if (MAX_SUCCESSORS <=? size successors)%nat
          then Some ((best_score, successors), true)
          else pairs_loop greenhouse_list base_score ps' (best_score, successors)
        else pairs_loop greenhouse_list base_score ps' st
      else pairs_loop greenhouse_list base_score ps' st
  end.

Section search.
Context {G : Type} `{!RandomSource G}.

(** The outer loop of [successors_by_agglomeration].  Besides the state
    of the round it returns the candidate lists as the call leaves them:
    [pairs] shuffles each visited list in place. *)
Fixpoint partitions_loop (g : G) (partitions : list (list Rectangle))
    (st : RoundState)
    : option (RoundState * list (list Rectangle) * G) :=
  match partitions with
  | [] => Some (st, [], g)
  | greenhouse_list :: rest =>
      if (MAX_SUCCESSORS <=? size st.2)%nat then Some (st, partitions, g)
      else
        let base_score := get_score greenhouse_list in
        let '(greenhouse_list, g) := shuffle g greenhouse_list in
        '(st, _) ← pairs_loop greenhouse_list base_score
                     (combinations2 greenhouse_list) st;
        '(st, rest, g) ← partitions_loop g rest st;
        Some (st, greenhouse_list :: rest, g)
  end.

(** [successors_by_agglomeration]: the result is
    [(best_score, result)], then the input lists after the call, then
    the generator.  The order in which Python iterates over a set is not
    specified; [elements] is one such order. *)
Definition successors_by_agglomeration (g : G)
    (partitions : list (list Rectangle))
    : option (Z * list (list Rectangle) * list (list Rectangle) * G) :=
  '(st, partitions, g) ← partitions_loop g partitions (sys_maxsize, ∅);
  let '(best_score, successors) := st in
  let result := elements <$> elements successors in
  if (MAX_SUCCESSORS <? length result)%nat then
    let '(sampled, g) := sample g result MAX_SUCCESSORS in
    Some (best_score, sampled, partitions, g)
  else Some (best_score, result, partitions, g).

(** The [while True] loop of [agglomerate].  [aliased] records whether
    [best_solution._solution] is the very list object [successors[0]],
    which the next round shuffles in place. *)
Fixpoint agglomerate_loop (fuel : nat) (g : G) (maximum goal : Z)
    (num_greenhouses : Z) (successors : list (list Rectangle))
    (best_solution : BestSolution) (aliased : bool)
    : option (BestSolution * G) :=
  match fuel with
  | O => None
  | S fuel =>
      if num_greenhouses <=? goal then Some (best_solution, g)
      else
        '(score, _successors, shuffled, g) ←
          successors_by_agglomeration g successors;
        let best_solution :=
          if aliased
          then {| _solution := head shuffled;
                  _score := _score best_solution |}
          else best_solution in
        match _successors with
        | [] => Some (best_solution, g)
        | first :: _ =>
            let stored := store best_solution first score maximum in
            agglomerate_loop fuel g maximum goal
              (Z.of_nat (length first)) _successors stored
              ((score <? _score best_solution) &&
               (Z.of_nat (length first) <=? maximum))
        end
  end.

(** [agglomerate]; every round shortens the longest candidate, so
    [length partition + 1] rounds are enough. *)
Definition agglomerate (g : G) (field : StrawberryField)
    (partition : list Rectangle) (goal : Z)
    : option (list (option (list Rectangle)) * G) :=
  let num_greenhouses := Z.of_nat (length partition) in
  let successors := [partition] in
  let best_solution :=
    store BestSolution_init partition (get_score partition)
      (maximum_greenhouses field) in
  '(best_solution, g) ←
    agglomerate_loop (S (length partition)) g
      (maximum_greenhouses field) goal num_greenhouses successors
      best_solution
      ((get_score partition <? sys_maxsize) &&
       (Z.of_nat (length partition) <=? maximum_greenhouses field));
  Some ([solution best_solution], g).
End search.

(** *** The initial-partition builder *)

(** One line of the scans of [get_horizontal_runs] and
    [get_vertical_runs]: [line] lists the points of a row (or column) in
    scan order, [buf] is the run being collected; the result lists the
    runs yielded. *)
Fixpoint runs_scan (berries : list Point) (line : list Point)
    (buf : list Point) : list (list Point) :=
  match line with
  | [] => if (1 <? length buf)%nat then [buf] else []
  | point :: line' =>
      if bool_decide (point ∈ berries)
      then runs_scan berries line' (buf ++ [point])
      else
        match buf with
        | _ :: _ =>
            (if (1 <? length buf)%nat then [buf] else [])
              ++ runs_scan berries line' []
        | [] => runs_scan berries line' buf
        end
  end.

(** [get_horizontal_runs]. *)
Definition get_horizontal_runs (field : StrawberryField)
    : option (list (list Point)) :=
  berries ← get_berries_in_rectangle field (root_region field);
  Some (flat_map
          (λ row, runs_scan berries
                    (map (λ col, (row, col)) (py_range 0 (num_cols field)))
                    [])
          (py_range 0 (num_rows field))).

(** [get_vertical_runs]. *)
Definition get_vertical_runs (field : StrawberryField)
    : option (list (list Point)) :=
  berries ← get_berries_in_rectangle field (root_region field);
  Some (flat_map
          (λ col, runs_scan berries
                    (map (λ row, (row, col)) (py_range 0 (num_rows field)))
                    [])
          (py_range 0 (num_cols field))).

(** [pointlist2rectangle]. *)
Definition pointlist2rectangle (point_list : list Point) : option Rectangle :=
  let row_elems := point_list.*1 in
  let col_elems := point_list.*2 in
  t ← py_min row_elems; l ← py_min col_elems;
  b ← py_max row_elems; r ← py_max col_elems;
  Some (make_rectangle t l b r).

(** [sorted(partition, key=lambda x: x[AREA])]. *)
Definition area_le (x y : Rectangle) : Prop := rarea x <= rarea y.

#[global] Instance area_le_dec : RelDecision area_le.
Proof. intros x y. unfold area_le. apply _. Defined.

Definition sorted_by_area (partition : list Rectangle) : list Rectangle :=
  merge_sort area_le partition.

(** [assign_open_greenhouses]: [sp] is computed once, before the loop
    appends to [partition]. *)
Definition assign_open_greenhouses (field : StrawberryField)
    (partition : list Rectangle) : option (list Rectangle) :=
  berries ← get_berries_in_rectangle field (root_region field);
  let sp := sorted_by_area partition in
  Some (foldl
          (λ partition (berry : Point),
             if existsb (λ r, contains r berry) sp then partition
             else partition ++
                    [make_rectangle berry.1 berry.2 berry.1 berry.2])
          partition berries).

(** One pass of [combine_and_maintain_density] over the pairs of [pcopy];
    the state is [(partition, num_merged)]. *)
Fixpoint density_pairs (field : StrawberryField)
    (ps : list (Rectangle * Rectangle)) (partition : list Rectangle)
    (num_merged : Z) : option (list Rectangle * Z) :=
  match ps with
  | [] => Some (partition, num_merged)
  | (first, second) :: ps' =>
      if bool_decide (first ∉ partition)
      then density_pairs field ps' partition num_merged
      else if bool_decide (second ∉ partition)
      then density_pairs field ps' partition num_merged
      else
        let merged := merge_rectangles first second in
        n ← num_strawberries field merged;
        if n =? rarea merged then
          if count_overlaps partition merged =? 2 then
            partition ← list_remove first partition;
            partition ← list_remove second partition;
            density_pairs field ps' (partition ++ [merged]) (num_merged + 1)
          else density_pairs field ps' partition num_merged
        else density_pairs field ps' partition num_merged
  end.

Section start_state.
Context {G : Type} `{!RandomSource G}.

(** The [while True] loop of [combine_and_maintain_density]. *)
Fixpoint density_loop (fuel : nat) (g : G) (field : StrawberryField)
    (pcopy partition : list Rectangle) : option (list Rectangle * G) :=
  match fuel with
  | O => None
  | S fuel =>
      let '(pcopy, g) := shuffle g pcopy in
      '(partition, num_merged) ←
        density_pairs field (combinations2 pcopy) partition 0;
      if num_merged =? 0 then Some (partition, g)
      else density_loop fuel g field partition partition
  end.

(** [combine_and_maintain_density]; every pass but the last shortens
    the partition, so [length partition + 1] passes are enough. *)
Definition combine_and_maintain_density (g : G) (field : StrawberryField)
    (partition : list Rectangle) : option (list Rectangle * G) :=
  density_loop (S (length partition)) g field partition partition.

(** The second loop over [list_berries] in [get_start_state]:
    [mix[berry].append(idx)] raises [KeyError] for an unknown berry. *)
Fixpoint mix_append (mix : gmap Point (list (option nat)))
    (l : list (Point * option nat))
    : option (gmap Point (list (option nat))) :=
  match l with
  | [] => Some mix
  | (berry, idx) :: l' =>
      ids ← mix !! berry;
      mix_append (<[berry := ids ++ [idx]]> mix) l'
  end.

(** The loop that fills [mirror]. *)
Definition mirror_add (mirror : gmap (list (option nat)) (list Point))
    (entry : Point * list (option nat))
    : gmap (list (option nat)) (list Point) :=
  let '(berry, key) := entry in
  <[key := default [] (mirror !! key) ++ [berry]]> mirror.

(** [get_start_state].  A dictionary is iterated in an unspecified
    order; [map_to_list] is one such order. *)
Definition get_start_state (g : G) (field : StrawberryField)
    : option (list Rectangle * G) :=
  runs ← get_vertical_runs field;
  vertical_runs ← mapM pointlist2rectangle runs;
  vertical_runs ← assign_open_greenhouses field vertical_runs;
  '(vertical_runs, g) ← combine_and_maintain_density g field vertical_runs;
  runs ← get_horizontal_runs field;
  horiz_runs ← mapM pointlist2rectangle runs;
  horiz_runs ← assign_open_greenhouses field horiz_runs;
  '(horiz_runs, g) ← combine_and_maintain_density g field horiz_runs;
  hb ← list_berries field horiz_runs;
  let mix : gmap Point (list (option nat)) :=
    foldl (λ mix '(berry, idx), <[berry := [idx]]> mix) ∅ hb in
  vb ← list_berries field vertical_runs;
  mix ← mix_append mix vb;
  let mirror := foldl mirror_add ∅ (map_to_list mix) in
  state ← mapM (λ entry, pointlist2rectangle entry.2) (map_to_list mirror);
  Some (state, g).
End start_state.

(** *** Vocabulary of the statements *)

(** A sequence of calls [best.store(candidate, score, goal)] with one
    [goal], applied in order. *)
Definition store_all (goal : Z) (self : BestSolution)
    (offers : list (list Rectangle * Z)) : BestSolution :=
  foldl (λ s offer, store s offer.1 offer.2 goal) self offers.

(** The members of [greenhouse_list] that the overlap loop counts. *)
Definition overlapping (greenhouse_list : list Rectangle)
    (new_house : Rectangle) : list Rectangle :=
  filter (λ g, apart g new_house = false) greenhouse_list.

(** [house1] and [house2] are two members of [P] (at different
    positions), [rest] the other members, and the locality test
    accepts their merge. *)
Definition valid_merge (P : list Rectangle) (house1 house2 : Rectangle)
    (rest : list Rectangle) : Prop :=
  P ≡ₚ house1 :: house2 :: rest ∧
  count_overlaps P (merge_rectangles house1 house2) = 2.

(** The score the search computes for that merge. *)
Definition merge_score (P : list Rectangle) (house1 house2 : Rectangle) : Z :=
  get_score P - rcost house1 - rcost house2
    + rcost (merge_rectangles house1 house2).

(** The successor: the other members and the merged rectangle. *)
Definition merge_successor (house1 house2 : Rectangle)
    (rest : list Rectangle) : list Rectangle :=
  rest ++ [merge_rectangles house1 house2].

(** The stored solution, if any, has at most [goal] members. *)
Definition within_goal (goal : Z) (self : BestSolution) : Prop :=
  ∀ sol, _solution self = Some sol → Z.of_nat (length sol) <= goal.

(** [s] is the successor set of a valid merge in one of the partitions
    [Ps], and that merge has score [best]. *)
Definition from_merge (Ps : list (list Rectangle)) (best : Z)
    (s : gset Rectangle) : Prop :=
  ∃ P h1 h2 rest,
    P ∈ Ps ∧ valid_merge P h1 h2 rest ∧
    s = list_to_set (merge_successor h1 h2 rest) ∧
    merge_score P h1 h2 = best.

(** What holds of the state of a round at every point of the search. *)
Definition round_inv (Ps : list (list Rectangle)) (st : RoundState) : Prop :=
  (∀ s, s ∈ st.2 → from_merge Ps st.1 s) ∧
  (size st.2 ≤ MAX_SUCCESSORS)%nat ∧
  st.1 <= sys_maxsize.

(** *** Sample inputs *)

(** [n] candidate partitions of two unit squares each, two columns apart
    in row [0], [1], ...: merging the two costs [13]. *)
Definition spaced_pairs (n : nat) : list (list Rectangle) :=
  (λ k : nat, [make_rectangle (Z.of_nat k) 0 (Z.of_nat k) 0;
               make_rectangle (Z.of_nat k) 2 (Z.of_nat k) 2]) <$> seq 0 n.

(** A candidate of two adjacent unit squares: merging them costs [12]. *)
Definition adjacent_pair : list Rectangle :=
  [make_rectangle 0 0 0 0; make_rectangle 0 1 0 1].

(** The instance with the input lines [1] and [@.@]: one greenhouse
    allowed, two berries in one row with a gap between them. *)
Definition two_berry_field : StrawberryField :=
  StrawberryField_init 1 ["@.@"%string].

(** *** Vocabulary for fields *)

(** The berries of one input row: the positions of ["@"] in [elements],
    numbered from [idx], in row [n]. *)
Fixpoint row_points (n idx : Z) (elements : list Ascii.ascii) : list Point :=
  match elements with
  | [] => []
  | elem :: rest =>
      if Ascii.eqb elem "@"%char
      then (n, idx) :: row_points n (idx + 1) rest
      else row_points n (idx + 1) rest
  end.

(** The input grid has a berry at point [p]. *)
Definition grid_berry (data : list string) (p : Point) : Prop :=
  ∃ (i k : nat) (row : string),
    p = (Z.of_nat i, Z.of_nat k) ∧ data !! i = Some row ∧
    String.list_ascii_of_string row !! k = Some "@"%char.

(** The field stores the berry [p] in one of its rows. *)
Definition occupied (self : StrawberryField) (p : Point) : Prop :=
  ∃ row, row ∈ rows self ∧ p ∈ row.

(** The rows spanned by [rectangle] can be indexed in [self.rows]: an
    empty span, or a span within [-num_rows, num_rows). *)
Definition in_rows (self : StrawberryField) (rectangle : Rectangle) : Prop :=
  rtop rectangle <= rbottom rectangle →
  - num_rows self <= rtop rectangle ∧ rbottom rectangle < num_rows self.

(** A rectangle that is not empty and whose rows are rows of the field. *)
Definition in_grid (self : StrawberryField) (r : Rectangle) : Prop :=
  well_formed r ∧ 0 <= rtop r ∧ rbottom r < num_rows self.

(** What the initial-partition builder keeps true of the lists of
    rectangles it works on: no rectangle occurs twice, and all lie in
    the grid. *)
Definition partition_ok (self : StrawberryField)
    (partition : list Rectangle) : Prop :=
  NoDup partition ∧ ∀ r, r ∈ partition → in_grid self r.

(** [p] is above and to the left of [q], or equal to it. *)
Definition le2 (p q : Point) : Prop := p.1 <= q.1 ∧ p.2 <= q.2.

(** ** field.py: greenhouses and the text pictures *)

(** The loop of [StrawberryField.greenhouses]; [ghs] is the list built so
    far.  A rectangle is truthy and [None] is not. *)
Fixpoint greenhouses_loop (self : StrawberryField)
    (partition : list Rectangle) (ghs : list Rectangle)
    : option (list Rectangle) :=
  match partition with
  | [] => Some ghs
  | rect :: rest =>
      f_rect ← feasible_region self (Some rect);
      match f_rect with
      | Some gh => greenhouses_loop self rest (ghs ++ [gh])
      | None => greenhouses_loop self rest ghs
      end
  end.

(** [StrawberryField.greenhouses]. *)
Definition greenhouses (self : StrawberryField) (partition : list Rectangle)
    : option (list Rectangle) :=
  greenhouses_loop self partition [].

Definition LABELS : string :=
  "ABCDEFGHIJKLMNOPQRSTUVWXYZ0123456789abcdefghijklmnopqrstuvwxyz".

(** [LABELS[rect_id % len(LABELS)]]. *)
Definition label (rect_id : nat) : option Ascii.ascii :=
  String.get (rect_id mod String.length LABELS) LABELS.

(** The character of the string ["\n"]. *)
Definition newline : Ascii.ascii := "010"%char.

(** The nested loops that [__str__], [display] and [display_full] share:
    [for row in range(num_rows): for col in range(num_cols): ...] appends
    one character per cell to [buf], and a newline after each row.  [cell]
    is the body of the inner loop. *)
Fixpoint cols_loop (cell : Z → option Ascii.ascii) (cols : list Z)
    (buf : string) : option string :=
  match cols with
  | [] => Some buf
  | col :: rest =>
      c ← cell col;
      cols_loop cell rest (buf +:+ String c EmptyString)
  end.

Fixpoint rows_loop (cell : Z → Z → option Ascii.ascii) (rws cols : list Z)
    (buf : string) : option string :=
  match rws with
  | [] => Some buf
  | row :: rest =>
      buf' ← cols_loop (cell row) cols buf;
      rows_loop cell rest cols (buf' +:+ String newline EmptyString)
  end.

(** The cell of [__str__]. *)
Definition str_cell (self : StrawberryField) (row col : Z)
    : option Ascii.ascii :=
  r ← py_getitem (rows self) row;
  Some (if bool_decide ((row, col) ∈ r) then "@"%char else "."%char).

(** [StrawberryField.__str__]. *)
Definition StrawberryField_str (self : StrawberryField) : option string :=
  rows_loop (str_cell self)
    (py_range 0 (num_rows self)) (py_range 0 (num_cols self)) EmptyString.

(** The cell of [display_full]: the loop over [enumerate(partition)] that
    stops at the first rectangle containing the point. *)
Fixpoint display_full_from (rect_id : nat) (point : Point)
    (partition : list Rectangle) : option Ascii.ascii :=
  match partition with
  | [] => Some "."%char
  | rect :: rest =>
      if contains rect point then label rect_id
      else display_full_from (S rect_id) point rest
  end.

(** [StrawberryField.display_full]. *)
Definition display_full (self : StrawberryField) (partition : list Rectangle)
    : option string :=
  rows_loop (λ row col, display_full_from 0 (row, col) partition)
    (py_range 0 (num_rows self)) (py_range 0 (num_cols self)) EmptyString.

(** The loop of [display] over [enumerate(partition)] for one cell; the
    state is [(dot, num_assigned, chr_assign)]. *)
Fixpoint display_rects (self : StrawberryField) (point : Point)
    (rect_id : nat) (partition : list Rectangle)
    (st : bool * Z * Ascii.ascii) : option (bool * Z * Ascii.ascii) :=
  match partition with
  | [] => Some st
  | rect :: rest =>
      feasible_rect ← feasible_region self (Some rect);
      let '(dot, num_assigned, chr_assign) := st in
      match feasible_rect with
      | Some fr =>
          if contains fr point then
            if num_assigned =? 0 then
              chr ← label rect_id;
              display_rects self point (S rect_id) rest
                (false, num_assigned + 1, chr)
            else
              display_rects self point (S rect_id) rest
                (dot, num_assigned + 1, "*"%char)
          else display_rects self point (S rect_id) rest st
      | None => display_rects self point (S rect_id) rest st
      end
  end.

(** The cell of [display]. *)
Definition display_cell (self : StrawberryField) (partition : list Rectangle)
    (berries : list Point) (row col : Z) : option Ascii.ascii :=
  match display_rects self (row, col) 0 partition (true, 0, "."%char) with
  | Some (dot, _, chr_assign) =>
      Some (if (dot : bool)
            then if bool_decide ((row, col) ∈ berries)
                 then "@"%char else "."%char
            else chr_assign)
  | None => None
  end.

(** [StrawberryField.display]. *)
Definition display (self : StrawberryField) (partition : list Rectangle)
    : option string :=
  let berries := concat (rows self) in
  rows_loop (display_cell self partition berries)
    (py_range 0 (num_rows self)) (py_range 0 (num_cols self)) EmptyString.

(** The text that the nested loops build from a total cell function. *)
Definition grid_text (cellf : Z → Z → Ascii.ascii) (rws cols : list Z)
    : list Ascii.ascii :=
  flat_map (λ row, map (cellf row) cols ++ [newline]) rws.

(** Python's [s[i]] for a string and a non-negative index. *)
Definition char_at (s : string) (i : nat) : option Ascii.ascii :=
  String.get i s.


(** The greenhouse of [rect] exists and contains [point]: the test
    [feasible_rect and point in feasible_rect] of [display]. *)
Definition greenhouse_covers (self : StrawberryField) (rect : Rectangle)
    (point : Point) : bool :=
  match feasible_region self (Some rect) with
  | Some (Some gh) => contains gh point
  | _ => false
  end.

(** The positions, counted from [rect_id], of the rectangles whose
    greenhouse covers [point]. *)
Fixpoint covering_ids (self : StrawberryField) (point : Point)
    (rect_id : nat) (partition : list Rectangle) : list nat :=
  match partition with
  | [] => []
  | rect :: rest =>
      if greenhouse_covers self rect point
      then rect_id :: covering_ids self point (S rect_id) rest
      else covering_ids self point (S rect_id) rest
  end.


(** * Properties *)

Section rectangle_facts.
Implicit Types A B C : Rectangle.

Lemma merge_top A B : rtop (merge A B) = Z.min (rtop A) (rtop B).
Proof. unfold merge; simpl. case_match; lia. Qed.

Lemma merge_left A B : rleft (merge A B) = Z.min (rleft A) (rleft B).
Proof. unfold merge; simpl. case_match; lia. Qed.

Lemma merge_bottom A B :
  rbottom (merge A B) = Z.max (rbottom A) (rbottom B).
Proof. unfold merge; simpl. case_match; lia. Qed.

Lemma merge_right A B : rright (merge A B) = Z.max (rright A) (rright B).
Proof. unfold merge; simpl. case_match; lia. Qed.

Lemma merge_derived_ok A B : derived_ok (merge A B).
Proof. by split. Qed.

Lemma make_rectangle_derived_ok t l b r :
  derived_ok (make_rectangle t l b r).
Proof. by split. Qed.

Lemma derived_ok_eq A B :
  derived_ok A → derived_ok B →
  rtop A = rtop B → rleft A = rleft B →
  rbottom A = rbottom B → rright A = rright B → A = B.
Proof.
  destruct A, B; unfold derived_ok; simpl.
  intros [-> ->] [-> ->] -> -> -> ->. done.
Qed.

Lemma contains_spec A r c :
  contains A (r, c) = true ↔
  rtop A <= r <= rbottom A ∧ rleft A <= c <= rright A.
Proof. unfold contains. rewrite !andb_true_iff, !Z.leb_le. lia. Qed.

Lemma contains_encloses A B p :
  encloses A B → contains B p = true → contains A p = true.
Proof.
  destruct p as [r c]. rewrite !contains_spec. unfold encloses. lia.
Qed.

Lemma merge_encloses_l A B : encloses (merge A B) A.
Proof.
  unfold encloses.
  rewrite merge_top, merge_left, merge_bottom, merge_right. lia.
Qed.

Lemma merge_encloses_r A B : encloses (merge A B) B.
Proof.
  unfold encloses.
  rewrite merge_top, merge_left, merge_bottom, merge_right. lia.
Qed.

Lemma merge_least A B C :
  encloses C A → encloses C B → encloses C (merge A B).
Proof.
  unfold encloses.
  rewrite merge_top, merge_left, merge_bottom, merge_right. lia.
Qed.

Lemma merge_well_formed A B :
  well_formed A → well_formed (merge A B).
Proof.
  unfold well_formed.
  rewrite merge_top, merge_left, merge_bottom, merge_right. lia.
Qed.

Lemma merge_comm A B : merge A B = merge B A.
Proof.
  apply derived_ok_eq; try apply merge_derived_ok;
    rewrite ?merge_top, ?merge_left, ?merge_bottom, ?merge_right; lia.
Qed.

Lemma merge_idemp A : derived_ok A → merge A A = A.
Proof.
  intros HA. apply derived_ok_eq; [apply merge_derived_ok | done | ..];
    rewrite ?merge_top, ?merge_left, ?merge_bottom, ?merge_right; lia.
Qed.
End rectangle_facts.

(** ** C7 and C10: the rectangle algebra *)

(** C7: for all rectangles [A] and [B], [merge A B] is the smallest
    axis-aligned rectangle containing both: its top and left are the minima
    and its bottom and right the maxima of the inputs' bounds, every point
    of [A] and of [B] is contained in it, and every rectangle enclosing
    both encloses it.  Its area is [(bottom-top+1)*(right-left+1)] and its
    cost is [area + 10]; the same law holds for [make_rectangle]. *)
Theorem merge_is_bounding_box :
  ∀ A B : Rectangle,
    rtop (merge A B) = Z.min (rtop A) (rtop B) ∧
    rleft (merge A B) = Z.min (rleft A) (rleft B) ∧
    rbottom (merge A B) = Z.max (rbottom A) (rbottom B) ∧
    rright (merge A B) = Z.max (rright A) (rright B) ∧
    (∀ p, contains A p = true ∨ contains B p = true →
          contains (merge A B) p = true) ∧
    (∀ C, encloses C A → encloses C B → encloses C (merge A B)) ∧
    rarea (merge A B) =
      (rbottom (merge A B) - rtop (merge A B) + 1) *
      (rright (merge A B) - rleft (merge A B) + 1) ∧
    rcost (merge A B) = rarea (merge A B) + 10 ∧
    (∀ t l b r,
       rtop (make_rectangle t l b r) = t ∧
       rleft (make_rectangle t l b r) = l ∧
       rbottom (make_rectangle t l b r) = b ∧
       rright (make_rectangle t l b r) = r ∧
       rarea (make_rectangle t l b r) = (b - t + 1) * (r - l + 1) ∧
       rcost (make_rectangle t l b r) = rarea (make_rectangle t l b r) + 10).
Proof.
  intros A B.
  split; [apply merge_top |]. split; [apply merge_left |].
  split; [apply merge_bottom |]. split; [apply merge_right |].
  split.
  { intros p [H | H].
    - eapply contains_encloses; [apply merge_encloses_l | done].
    - eapply contains_encloses; [apply merge_encloses_r | done]. }
  split; [intros C; apply merge_least |].
  split; [apply merge_derived_ok |].
  split; [apply merge_derived_ok |].
  intros t l b r. by repeat split.
Qed.

(** C10: merge is commutative, and merging a rectangle with itself gives
    the rectangle back; a rectangle here is a value whose cost and area
    are the ones derived from its bounds, as [make_rectangle] and [merge]
    build them. *)
Theorem merge_commutative_idempotent (A B : Rectangle) (HA : derived_ok A) :
  merge A B = merge B A ∧ merge A A = A.
Proof. split; [apply merge_comm | by apply merge_idemp]. Qed.

Lemma merge_commutative_idempotent_witness :
  derived_ok (make_rectangle 0 2 3 4) ∧
  merge (make_rectangle 0 2 3 4) (make_rectangle 1 3 4 5) =
    merge (make_rectangle 1 3 4 5) (make_rectangle 0 2 3 4) ∧
  merge (make_rectangle 0 2 3 4) (make_rectangle 0 2 3 4) =
    make_rectangle 0 2 3 4.
Proof.
  split; [apply make_rectangle_derived_ok |].
  apply (merge_commutative_idempotent (make_rectangle 0 2 3 4)
           (make_rectangle 1 3 4 5)).
  apply make_rectangle_derived_ok.
Defined.

(** ** C3: the best-solution tracker *)

Section best_solution_facts.
Implicit Types (self : BestSolution) (goal : Z).

Lemma store_score_le self candidate score goal :
  _score (store self candidate score goal) <= _score self.
Proof.
  unfold store. case_match eqn:E; simpl; [| lia].
  apply andb_true_iff in E as [E _]. lia.
Qed.

Lemma store_all_score_le goal offers self :
  _score (store_all goal self offers) <= _score self.
Proof.
  revert self. induction offers as [| o offers IH]; intros self; simpl.
  - unfold store_all; simpl. lia.
  - unfold store_all in *; simpl. etrans; [apply IH |].
    apply store_score_le.
Qed.

Lemma store_all_app goal self offers more :
  store_all goal self (offers ++ more) =
  store_all goal (store_all goal self offers) more.
Proof. unfold store_all. by rewrite foldl_app. Qed.

Lemma store_within_goal self candidate score goal :
  within_goal goal self →
  within_goal goal (store self candidate score goal).
Proof.
  intros Hself. unfold store. case_match eqn:E; [| done].
  apply andb_true_iff in E as [_ E]. intros sol [= <-]. lia.
Qed.

Lemma store_all_within_goal goal offers self :
  within_goal goal self → within_goal goal (store_all goal self offers).
Proof.
  revert self. induction offers as [| o offers IH]; intros self H; [done |].
  unfold store_all in *; simpl. by apply IH, store_within_goal.
Qed.
End best_solution_facts.

(** C3: [store] replaces the stored solution exactly when the offered
    score is strictly lower than the stored one and the candidate has at
    most [goal] members, and leaves the tracker unchanged otherwise.  So
    after any sequence of calls on a fresh tracker the stored solution, if
    any, has at most [goal] members, and further calls never raise the
    stored score. *)
Theorem store_keeps_best_within_goal :
  ∀ (goal : Z) (self : BestSolution) (candidate : list Rectangle) (score : Z)
    (offers more : list (list Rectangle * Z)),
    (score < _score self ∧ Z.of_nat (length candidate) <= goal →
       store self candidate score goal =
         {| _solution := Some candidate; _score := score |}) ∧
    (¬ (score < _score self ∧ Z.of_nat (length candidate) <= goal) →
       store self candidate score goal = self) ∧
    (∀ sol, solution (store_all goal BestSolution_init offers) = Some sol →
            Z.of_nat (length sol) <= goal) ∧
    _score (store_all goal BestSolution_init (offers ++ more))
      <= _score (store_all goal BestSolution_init offers).
Proof.
  intros goal self candidate score offers more. repeat split.
  - intros [H1 H2]. unfold store.
    rewrite (proj2 (Z.ltb_lt _ _) H1), (proj2 (Z.leb_le _ _) H2). done.
  - intros H. unfold store. case_match eqn:E; [| done].
    apply andb_true_iff in E as [E1 E2]. destruct H. lia.
  - apply (store_all_within_goal goal offers BestSolution_init).
    by intros sol.
  - rewrite store_all_app. apply store_all_score_le.
Qed.

(** ** Lists: [remove], [combinations] and the score *)

Section list_facts.
Implicit Types (l P : list Rectangle) (x y : Rectangle).

Lemma get_score_foldl l a :
  foldl (λ acc r, acc + rcost r) a l = a + get_score l.
Proof.
  unfold get_score. revert a.
  induction l as [| x l IH]; intros a; simpl; [lia |].
  rewrite (IH (a + rcost x)), (IH (0 + rcost x)). lia.
Qed.

Lemma get_score_nil : get_score [] = 0.
Proof. done. Qed.

Lemma get_score_cons x l : get_score (x :: l) = rcost x + get_score l.
Proof.
  unfold get_score at 1; simpl. rewrite get_score_foldl. lia.
Qed.

Lemma get_score_app l1 l2 :
  get_score (l1 ++ l2) = get_score l1 + get_score l2.
Proof.
  induction l1 as [| x l1 IH]; simpl; [done |].
  rewrite !get_score_cons, IH. lia.
Qed.

Lemma get_score_perm l1 l2 : l1 ≡ₚ l2 → get_score l1 = get_score l2.
Proof.
  induction 1; rewrite ?get_score_cons; lia.
Qed.

Lemma list_remove_Some x l l' :
  list_remove x l = Some l' → l ≡ₚ x :: l'.
Proof.
  revert l'. induction l as [| y l IH]; intros l'; simpl; [done |].
  case_decide as E.
  - intros [= <-]. by subst.
  - destruct (list_remove x l) as [t |] eqn:Ht; simpl; [| done].
    intros [= <-]. rewrite (IH t eq_refl). apply Permutation_swap.
Qed.

Lemma list_remove_is_Some x l : x ∈ l → is_Some (list_remove x l).
Proof.
  induction l as [| y l IH]; simpl; [by intros ?%elem_of_nil |].
  intros [-> | H]%elem_of_cons; case_decide; try done; try by eexists.
  destruct (IH H) as [t ->]. by eexists.
Qed.

Lemma list_remove_None x l : list_remove x l = None ↔ x ∉ l.
Proof.
  split.
  - intros H Hin. apply list_remove_is_Some in Hin as [t Ht]. congruence.
  - intros H. destruct (list_remove x l) as [t |] eqn:E; [| done].
    apply list_remove_Some in E. destruct H. rewrite E. left.
Qed.

(** Two members at different positions can be removed one after the
    other, whatever their values. *)
Lemma list_remove_two l x y rest :
  l ≡ₚ x :: y :: rest →
  ∃ s1 s2, list_remove x l = Some s1 ∧ list_remove y s1 = Some s2 ∧
           s2 ≡ₚ rest.
Proof.
  intros Hp.
  destruct (list_remove_is_Some x l) as [s1 H1].
  { rewrite Hp. left. }
  pose proof (list_remove_Some _ _ _ H1) as Hp1.
  assert (s1 ≡ₚ y :: rest) as Hs1.
  { apply (Permutation_cons_inv (a := x)). by rewrite <- Hp1. }
  destruct (list_remove_is_Some y s1) as [s2 H2].
  { rewrite Hs1. left. }
  exists s1, s2. repeat split; [done.. |].
  apply (Permutation_cons_inv (a := y)).
  rewrite <- Hs1. symmetry. by apply list_remove_Some.
Qed.

End list_facts.


Section combinations_facts.
Context {A : Type}.

Lemma lookup_two_perm (k : list A) i j (a b : A) :
  k !! i = Some a → k !! j = Some b → i ≠ j →
  ∃ others, k ≡ₚ a :: b :: others.
Proof.
  intros Hi Hj Hne.
  exists (delete (if decide (i < j)%nat then i else (i - 1)%nat) (delete j k)).
  rewrite (delete_Permutation k j b Hj) at 1.
  rewrite Permutation_swap. f_equiv.
  apply delete_Permutation.
  case_decide.
  - rewrite list_lookup_delete_lt by done. done.
  - rewrite list_lookup_delete_ge by lia.
    replace (S (i - 1)) with i by lia. done.
Qed.

Lemma combinations2_split (k : list A) (a b : A) :
  (a, b) ∈ combinations2 k ↔ ∃ k1 k2 k3, k = k1 ++ a :: k2 ++ b :: k3.
Proof.
  induction k as [| c k IH]; simpl.
  - split; [by intros ?%elem_of_nil |].
    intros (k1 & k2 & k3 & H). by destruct k1.
  - rewrite elem_of_app, list_elem_of_fmap, IH. split.
    + intros [(y & [= -> ->] & Hy) | (k1 & k2 & k3 & ->)].
      * apply list_elem_of_split in Hy as (k2 & k3 & ->).
        by exists [], k2, k3.
      * by exists (c :: k1), k2, k3.
    + intros (k1 & k2 & k3 & H). destruct k1 as [| z k1]; simplify_eq/=; clear IH.
      * left. exists b. split; [done |]. set_solver.
      * right. by exists k1, k2, k3.
Qed.

Lemma combinations2_perm (k : list A) (a b : A) :
  (a, b) ∈ combinations2 k → ∃ others, k ≡ₚ a :: b :: others.
Proof.
  intros (k1 & k2 & k3 & ->)%combinations2_split.
  exists (k1 ++ k2 ++ k3).
  rewrite <- Permutation_middle. f_equiv.
  rewrite !app_assoc. by rewrite <- Permutation_middle.
Qed.

Lemma perm_combinations2 (k : list A) (a b : A) others :
  k ≡ₚ a :: b :: others →
  (a, b) ∈ combinations2 k ∨ (b, a) ∈ combinations2 k.
Proof.
  intros Hp.
  assert (a ∈ k) as (k1 & k2 & ->)%list_elem_of_split
    by (rewrite Hp; left).
  rewrite <- Permutation_middle in Hp.
  apply Permutation_cons_inv in Hp.
  assert (b ∈ k1 ++ k2) as [Hb | Hb]%elem_of_app by (rewrite Hp; left).
  - right. apply list_elem_of_split in Hb as (j1 & j2 & ->).
    apply combinations2_split. exists j1, j2, k2.
    by rewrite <- !app_assoc.
  - left. apply list_elem_of_split in Hb as (j1 & j2 & ->).
    apply combinations2_split. by exists k1, j1, j2.
Qed.
End combinations_facts.

(** ** C5: the incremental score *)

(** C5: for two members [h1], [h2] of [P] at different positions, both
    removals succeed, and the score computed incrementally from
    [get_score P] equals [get_score] of the successor list (the
    partition without the two, with their merge appended). *)
Theorem incremental_score_is_recomputed_score
    (P : list Rectangle) (i j : nat) (h1 h2 : Rectangle)
    (Hi : P !! i = Some h1) (Hj : P !! j = Some h2) (Hij : i ≠ j) :
  ∃ s1 s2,
    list_remove h1 P = Some s1 ∧ list_remove h2 s1 = Some s2 ∧
    get_score P - rcost h1 - rcost h2 + rcost (merge_rectangles h1 h2)
      = get_score (s2 ++ [merge_rectangles h1 h2]).
Proof.
  destruct (lookup_two_perm P i j h1 h2 Hi Hj Hij) as [rest Hp].
  destruct (list_remove_two P h1 h2 rest Hp) as (s1 & s2 & H1 & H2 & Hs).
  exists s1, s2. repeat split; [done.. |].
  rewrite get_score_app, (get_score_perm _ _ Hp), (get_score_perm _ _ Hs).
  rewrite !get_score_cons, get_score_nil. lia.
Qed.

Lemma incremental_score_is_recomputed_score_witness :
  ∃ s1 s2,
    list_remove (make_rectangle 0 0 0 1)
      [make_rectangle 0 0 0 1; make_rectangle 5 5 6 6;
       make_rectangle 0 2 0 3] = Some s1 ∧
    list_remove (make_rectangle 0 2 0 3) s1 = Some s2 ∧
    get_score [make_rectangle 0 0 0 1; make_rectangle 5 5 6 6;
               make_rectangle 0 2 0 3]
      - rcost (make_rectangle 0 0 0 1) - rcost (make_rectangle 0 2 0 3)
      + rcost (merge_rectangles (make_rectangle 0 0 0 1)
                 (make_rectangle 0 2 0 3))
    = get_score (s2 ++ [merge_rectangles (make_rectangle 0 0 0 1)
                          (make_rectangle 0 2 0 3)]).
Proof.
  apply (incremental_score_is_recomputed_score
           [make_rectangle 0 0 0 1; make_rectangle 5 5 6 6;
            make_rectangle 0 2 0 3] 0 2);
    [reflexivity | reflexivity | lia].
Defined.

(** ** The overlap count *)

Section overlap_facts.
Implicit Types (gl : list Rectangle) (m g : Rectangle).

Lemma count_overlaps_loop_spec m gl c :
  c <= 2 →
  count_overlaps_loop m gl c =
    Z.min 3 (c + Z.of_nat (length (overlapping gl m))).
Proof.
  revert c. induction gl as [| g gl IH]; intros c Hc; simpl.
  - unfold overlapping; simpl. lia.
  - unfold overlapping in *. rewrite filter_cons.
    destruct (apart g m) eqn:E.
    + rewrite decide_False by done. by apply IH.
    + rewrite decide_True by done. simpl.
      destruct (c + 1 >? 2) eqn:E2.
      * lia.
      * rewrite IH by lia. lia.
Qed.

Lemma count_overlaps_spec gl m :
  count_overlaps gl m = Z.min 3 (Z.of_nat (length (overlapping gl m))).
Proof. unfold count_overlaps. by rewrite count_overlaps_loop_spec. Qed.

Lemma count_overlaps_two gl m :
  count_overlaps gl m = 2 ↔ length (overlapping gl m) = 2%nat.
Proof. rewrite count_overlaps_spec. lia. Qed.

Lemma overlapping_perm gl gl' m :
  gl ≡ₚ gl' → overlapping gl m ≡ₚ overlapping gl' m.
Proof. intros H. unfold overlapping. by rewrite H. Qed.

Lemma count_overlaps_perm gl gl' m :
  gl ≡ₚ gl' → count_overlaps gl m = count_overlaps gl' m.
Proof.
  intros H. rewrite !count_overlaps_spec.
  by rewrite (Permutation_length (overlapping_perm _ _ m H)).
Qed.

Lemma apart_merge_l g1 g2 :
  well_formed g1 → apart g1 (merge_rectangles g1 g2) = false.
Proof.
  intros [H1 H2]. unfold apart, merge_rectangles.
  rewrite merge_top, merge_left, merge_bottom, merge_right.
  rewrite !orb_false_iff, !Z.ltb_ge, !Z.gtb_ltb, !Z.ltb_ge. lia.
Qed.

Lemma apart_merge_r g1 g2 :
  well_formed g2 → apart g2 (merge_rectangles g1 g2) = false.
Proof.
  intros H. unfold merge_rectangles. rewrite merge_comm.
  by apply apart_merge_l.
Qed.

(** With the two merged houses in front, the count is two exactly when
    no other member overlaps. *)
Lemma count_overlaps_two_others h1 h2 rest m :
  apart h1 m = false → apart h2 m = false →
  (count_overlaps (h1 :: h2 :: rest) m = 2 ↔
   ∀ g, g ∈ rest → apart g m = true).
Proof.
  intros H1 H2. rewrite count_overlaps_two. unfold overlapping.
  rewrite !filter_cons, !decide_True by done. simpl.
  split.
  - intros Hlen g Hg. destruct (apart g m) eqn:E; [done |].
    assert (g ∈ filter (λ g, apart g m = false) rest) as Hin
      by (by apply list_elem_of_filter).
    destruct (filter _ rest); [by apply elem_of_nil in Hin | done].
  - intros Hall.
    destruct (filter _ rest) as [| g t] eqn:E; [done |].
    assert (g ∈ filter (λ g, apart g m = false) rest) as Hin
      by (rewrite E; left).
    apply list_elem_of_filter in Hin as [Hg Hin].
    rewrite (Hall g Hin) in Hg. done.
Qed.
End overlap_facts.

(** ** C2: the locality test *)

#[local] Opaque merge_rectangles.
#[local] Arguments MAX_SUCCESSORS : simpl never.
#[local] Arguments Nat.leb : simpl never.
#[local] Arguments Nat.ltb : simpl never.



#[local] Transparent merge_rectangles.

(** ** One round of the search *)

#[local] Opaque merge_rectangles.

Section round_facts.
Implicit Types (Ps : list (list Rectangle)) (st : RoundState).

Lemma size_add_le (x : gset Rectangle) (S : gset (gset Rectangle)) :
  (size ({[x]} ∪ S) ≤ 1 + size S)%nat.
Proof.
  rewrite size_union_alt, size_singleton.
  assert (size (S ∖ {[x]}) ≤ size S)%nat; [| lia].
  apply subseteq_size, subseteq_difference_l. reflexivity.
Qed.

Lemma valid_merge_sym P h1 h2 rest :
  valid_merge P h1 h2 rest → valid_merge P h2 h1 rest.
Proof.
  intros [Hp Hc]. split.
  - rewrite Hp. apply Permutation_swap.
  - revert Hc. 
    replace (merge_rectangles h2 h1) with (merge_rectangles h1 h2); [done |].
    apply merge_comm.
Qed.

Lemma merge_score_sym P h1 h2 : merge_score P h1 h2 = merge_score P h2 h1.
Proof.
  unfold merge_score.
  replace (merge_rectangles h2 h1) with (merge_rectangles h1 h2)
    by apply merge_comm.
  lia.
Qed.

(** The inner loop: it never raises, keeps the invariant, never raises
    the best score, and unless it leaves by [break] it has compared the
    best score with every accepted pair. *)
Lemma pairs_loop_inv Ps P gl ps st :
  P ∈ Ps → gl ≡ₚ P →
  (∀ h1 h2, (h1, h2) ∈ ps → ∃ rest, gl ≡ₚ h1 :: h2 :: rest) →
  round_inv Ps st → (size st.2 < MAX_SUCCESSORS)%nat →
  ∃ st' brk,
    pairs_loop gl (get_score P) ps st = Some (st', brk) ∧
    round_inv Ps st' ∧ st'.1 <= st.1 ∧
    if brk then (MAX_SUCCESSORS ≤ size st'.2)%nat
    else (size st'.2 < MAX_SUCCESSORS)%nat ∧
         ∀ h1 h2 rest, (h1, h2) ∈ ps → valid_merge P h1 h2 rest →
                       st'.1 <= merge_score P h1 h2.
Proof.
  intros HP Hgl. revert st.
  induction ps as [| [h1 h2] ps IH]; intros st Hps Hinv Hsize.
  { exists st, false. simpl. split; [done |]. split; [done |].
    split; [lia |]. split; [done |].
    intros ??? []%elem_of_nil. }
  destruct st as [best succs].
  destruct (Hps h1 h2) as [rest Hrest]; [left |].
  assert (∀ a b, (a, b) ∈ ps → ∃ rest, gl ≡ₚ a :: b :: rest) as Hps'.
  { intros a b Hab. apply Hps. by right. }
  destruct (list_remove_two gl h1 h2 rest Hrest)
    as (s1 & s2 & H1 & H2 & Hs).
  assert (∀ st1, round_inv Ps st1 → (size st1.2 < MAX_SUCCESSORS)%nat →
            st1.1 <= best →
            (count_overlaps gl (merge_rectangles h1 h2) = 2 →
             st1.1 <= merge_score P h1 h2) →
    ∃ st' brk,
      pairs_loop gl (get_score P) ps st1 = Some (st', brk) ∧
      round_inv Ps st' ∧ st'.1 <= (best, succs).1 ∧
      if brk then (MAX_SUCCESSORS ≤ size st'.2)%nat
      else (size st'.2 < MAX_SUCCESSORS)%nat ∧
         ∀ a b rest, (a, b) ∈ (h1, h2) :: ps → valid_merge P a b rest →
                       st'.1 <= merge_score P a b) as Hnext.
  { intros st1 Hinv1 Hsize1 Hle Hnew.
    destruct (IH st1 Hps' Hinv1 Hsize1) as (st' & brk & Heq & Hi' & Hle' & Hb).
    exists st', brk. split; [done |]. split; [done |].
    split; [simpl in *; lia |].
    destruct brk; [done |]. destruct Hb as [Hsz Hall].
    split; [done |]. intros a b rest' [[= -> ->] | Hin]%elem_of_cons Hv.
    - etrans; [apply Hle' |]. apply Hnew.
      destruct Hv as [_ Hc]. by rewrite (count_overlaps_perm _ _ _ Hgl).
    - by eapply Hall. }
  cbn [pairs_loop].
  destruct (count_overlaps gl (merge_rectangles h1 h2) =? 2) eqn:Hc.
  2:{ apply Z.eqb_neq in Hc. apply Hnext; try done; cbn [fst snd]; lia. }
  apply Z.eqb_eq in Hc.
  rewrite H1. cbn [mbind option_bind]. rewrite H2. cbn [mbind option_bind].
  assert (valid_merge P h1 h2 rest) as Hvalid.
  { split; [by rewrite <- Hgl |].
    by rewrite <- (count_overlaps_perm _ _ _ Hgl). }
  assert (list_to_set (s2 ++ [merge_rectangles h1 h2])
          = (list_to_set (merge_successor h1 h2 rest) : gset Rectangle))
    as Hset.
  { unfold merge_successor. by rewrite Hs. }
  fold (merge_score P h1 h2).
  destruct Hinv as (Hfrom & Hsz & Hmax). cbn [fst snd] in *.
  destruct (merge_score P h1 h2 <? best) eqn:Hlt.
  - apply Z.ltb_lt in Hlt. apply Hnext; cbn [fst snd]; try lia.
    + split; [| split]; cbn [fst snd].
      * intros s ->%elem_of_singleton. rewrite Hset.
        by exists P, h1, h2, rest.
      * rewrite size_singleton. unfold MAX_SUCCESSORS. lia.
      * lia.
    + rewrite size_singleton. unfold MAX_SUCCESSORS. lia.
  - apply Z.ltb_ge in Hlt.
    destruct (merge_score P h1 h2 =? best) eqn:Heq.
    + apply Z.eqb_eq in Heq.
      assert (round_inv Ps
                (best, {[list_to_set (s2 ++ [merge_rectangles h1 h2])]}
                         ∪ succs)) as Hinv'.
      { split; [| split]; cbn [fst snd]; [| | done].
        - intros s [->%elem_of_singleton | Hs']%elem_of_union.
          + rewrite Hset. by exists P, h1, h2, rest.
          + by apply Hfrom.
        - pose proof (size_add_le
            (list_to_set (s2 ++ [merge_rectangles h1 h2])) succs). lia. }
      destruct (MAX_SUCCESSORS <=? size _)%nat eqn:Hfull.
      * apply Nat.leb_le in Hfull.
        eexists _, true. split; [done |]. split; [done |].
        split; [cbn [fst snd]; lia | done].
      * apply Nat.leb_gt in Hfull. apply Hnext; cbn [fst snd]; try done; lia.
    + apply Z.eqb_neq in Heq. apply Hnext; cbn [fst snd]; try done; lia.
Qed.

Context {G : Type} `{!RandomSource G}.

Lemma partitions_loop_full g partitions st :
  (MAX_SUCCESSORS ≤ size st.2)%nat →
  partitions_loop g partitions st = Some (st, partitions, g).
Proof.
  intros Hfull. destruct partitions as [| P partitions]; [done |].
  cbn [partitions_loop].
  by rewrite (proj2 (Nat.leb_le _ _) Hfull).
Qed.

(** The outer loop: it never raises, keeps the invariant, only permutes
    the candidate lists, and if it ends with fewer than
    [MAX_SUCCESSORS] successors it has compared the best score with
    every valid merge of every candidate. *)
Lemma partitions_loop_inv Ps partitions g st :
  partitions ⊆ Ps → round_inv Ps st →
  ∃ st' partitions' g',
    partitions_loop g partitions st = Some (st', partitions', g') ∧
    round_inv Ps st' ∧ st'.1 <= st.1 ∧
    Forall2 (≡ₚ) partitions' partitions ∧
    ((size st'.2 < MAX_SUCCESSORS)%nat →
     ∀ P h1 h2 rest, P ∈ partitions → valid_merge P h1 h2 rest →
                     st'.1 <= merge_score P h1 h2).
Proof.
  revert g st.
  induction partitions as [| P partitions IH]; intros g st Hsub Hinv.
  { exists st, [], g. cbn [partitions_loop].
    split; [done |]. split; [done |]. split; [lia |]. split; [done |].
    intros _ ???? []%elem_of_nil. }
  cbn [partitions_loop].
  destruct (MAX_SUCCESSORS <=? size st.2)%nat eqn:Hfull.
  { apply Nat.leb_le in Hfull. exists st, (P :: partitions), g.
    split; [done |]. split; [done |]. split; [lia |].
    split; [done |]. intros Hlt. lia. }
  apply Nat.leb_gt in Hfull.
  pose proof (shuffle_perm g P) as Hperm.
  destruct (shuffle g P) as [gl g1]. cbn [fst] in Hperm.
  destruct (pairs_loop_inv Ps P gl (combinations2 gl) st)
    as (st1 & brk & Heq1 & Hinv1 & Hle1 & Hbrk); try done.
  { apply Hsub. left. }
  { intros h1 h2. apply combinations2_perm. }
  rewrite Heq1. cbn [mbind option_bind].
  destruct (IH g1 st1) as (st2 & parts2 & g2 & Heq2 & Hinv2 & Hle2 & Hp2 & Hall2);
    [set_solver | done |].
  rewrite Heq2. cbn [mbind option_bind].
  exists st2, (gl :: parts2), g2.
  split; [done |]. split; [done |]. split; [lia |].
  split; [by constructor |].
  intros Hlt Q h1 h2 rest HQ Hvalid.
  destruct brk.
  { rewrite partitions_loop_full in Heq2 by done.
    injection Heq2 as <- <- <-. lia. }
  destruct Hbrk as [Hsz1 Hall1].
  apply elem_of_cons in HQ as [-> | HQ]; [| by eapply Hall2].
  etrans; [apply Hle2 |].
  destruct Hvalid as [HpP Hc].
  destruct (perm_combinations2 gl h1 h2 rest) as [Hin | Hin].
  { by rewrite Hperm. }
  - by apply (Hall1 h1 h2 rest).
  - rewrite merge_score_sym. apply (Hall1 h2 h1 rest); [done |].
    by apply valid_merge_sym.
Qed.

(** A round as a whole. *)
Lemma successors_by_agglomeration_inv g partitions :
  ∃ best result partitions' g',
    successors_by_agglomeration g partitions =
      Some (best, result, partitions', g') ∧
    (length result ≤ MAX_SUCCESSORS)%nat ∧
    best <= sys_maxsize ∧
    Forall2 (≡ₚ) partitions' partitions ∧
    NoDup ((list_to_set <$> result) : list (gset Rectangle)) ∧
    (∀ s, s ∈ result → NoDup s ∧ from_merge partitions best (list_to_set s)) ∧
    ((length result < MAX_SUCCESSORS)%nat →
     ∀ P h1 h2 rest, P ∈ partitions → valid_merge P h1 h2 rest →
                     best <= merge_score P h1 h2).
Proof.
  unfold successors_by_agglomeration.
  destruct (partitions_loop_inv partitions partitions g (sys_maxsize, ∅))
    as ([best succs] & parts' & g' & Heq & Hinv & Hle & Hperm & Hall).
  { done. }
  { split; [| split]; cbn [fst snd].
    - intros s Hs. set_solver.
    - rewrite size_empty. lia.
    - lia. }
  rewrite Heq. cbn [mbind option_bind].
  destruct Hinv as (Hfrom & Hsz & Hmax). cbn [fst snd] in *.
  assert (length (elements <$> elements succs) = size succs) as Hlen.
  { by rewrite length_fmap. }
  rewrite Hlen.
  rewrite (proj2 (Nat.ltb_ge _ _) Hsz).
  exists best, (elements <$> elements succs), parts', g'.
  split; [done |]. rewrite Hlen.
  split; [done |]. split; [done |]. split; [done |].
  assert (list_to_set <$> (elements <$> elements succs)
          = (elements succs : list (gset Rectangle))) as Hid.
  { rewrite <- list_fmap_compose.
    rewrite <- (list_fmap_id (elements succs)) at 2.
    apply list_fmap_ext. intros i x _. cbn.
    apply list_to_set_elements_L. }
  split; [rewrite Hid; apply NoDup_elements |].
  split; [| done].
  intros s (fs & -> & Hfs)%list_elem_of_fmap.
  split; [apply NoDup_elements |].
  rewrite list_to_set_elements_L. apply Hfrom. by apply elem_of_elements.
Qed.
End round_facts.

(** ** C1 and C4: what a round returns *)

(** C1, as the code has it: a round never raises and returns at most
    [MAX_SUCCESSORS] partitions (so the sampling branch is never taken).
    Every returned partition is duplicate-free and is, as a set, the
    successor of a valid merge of some input partition whose incremental
    score is the returned best score; no two returned partitions are
    equal as sets; the input lists are only permuted.  The best score is
    the minimum over all valid merges of all input partitions whenever
    fewer than [MAX_SUCCESSORS] partitions are returned: once that many
    have been collected the round stops and examines no further merge. *)
Theorem round_returns_best_examined_merges
    {G : Type} `{!RandomSource G} (g : G) (partitions : list (list Rectangle)) :
  ∃ best result partitions' g',
    successors_by_agglomeration g partitions =
      Some (best, result, partitions', g') ∧
    (length result ≤ MAX_SUCCESSORS)%nat ∧
    best <= sys_maxsize ∧
    Forall2 (≡ₚ) partitions' partitions ∧
    NoDup ((list_to_set <$> result) : list (gset Rectangle)) ∧
    (∀ s, s ∈ result →
       NoDup s ∧
       ∃ P h1 h2 rest,
         P ∈ partitions ∧ valid_merge P h1 h2 rest ∧
         list_to_set s =@{gset Rectangle}
           list_to_set (merge_successor h1 h2 rest) ∧
         merge_score P h1 h2 = best) ∧
    ((length result < MAX_SUCCESSORS)%nat →
     ∀ P h1 h2 rest, P ∈ partitions → valid_merge P h1 h2 rest →
                     best <= merge_score P h1 h2).
Proof.
  destruct (successors_by_agglomeration_inv g partitions)
    as (best & result & parts & g' & Heq & Hlen & Hmax & Hperm & Hnd
        & Hfrom & Hmin).
  exists best, result, parts, g'.
  split; [done |]. split; [done |]. split; [done |]. split; [done |].
  split; [done |]. split; [| done].
  intros s Hs. destruct (Hfrom s Hs) as [Hnds Hm]. split; [done |].
  exact Hm.
Qed.

Lemma round_returns_best_examined_merges_witness :
  ∃ best result partitions' g',
    successors_by_agglomeration (G := nat) 0%nat [adjacent_pair] =
      Some (best, result, partitions', g') ∧
    (length result ≤ MAX_SUCCESSORS)%nat ∧
    best <= sys_maxsize ∧
    Forall2 (≡ₚ) partitions' [adjacent_pair] ∧
    NoDup ((list_to_set <$> result) : list (gset Rectangle)) ∧
    (∀ s, s ∈ result →
       NoDup s ∧
       ∃ P h1 h2 rest,
         P ∈ [adjacent_pair] ∧ valid_merge P h1 h2 rest ∧
         list_to_set s =@{gset Rectangle}
           list_to_set (merge_successor h1 h2 rest) ∧
         merge_score P h1 h2 = best) ∧
    ((length result < MAX_SUCCESSORS)%nat →
     ∀ P h1 h2 rest, P ∈ [adjacent_pair] → valid_merge P h1 h2 rest →
                     best <= merge_score P h1 h2).
Proof.
  apply (round_returns_best_examined_merges (G := nat) 0%nat [adjacent_pair]).
Defined.

#[local] Transparent merge_rectangles.

Lemma spaced_round_best :
  (λ r, r.1.1.1) <$>
    successors_by_agglomeration (G := nat) 0%nat
      (spaced_pairs 100 ++ [adjacent_pair]) = Some 13.
Proof. vm_compute. reflexivity. Qed.

Lemma adjacent_pair_valid_merge :
  valid_merge adjacent_pair (make_rectangle 0 0 0 0) (make_rectangle 0 1 0 1) []
  ∧ merge_score adjacent_pair (make_rectangle 0 0 0 0) (make_rectangle 0 1 0 1)
    = 12.
Proof. split; [split |]; reflexivity. Qed.

(** C1 as stated fails: after a hundred candidates whose only merge scores
    [13], the round stops and returns [13], although the next candidate has
    a valid merge of score [12]. *)
Lemma round_best_is_not_the_minimum :
  ¬ (∀ (partitions : list (list Rectangle)) best result partitions' g',
       successors_by_agglomeration (G := nat) 0%nat partitions =
         Some (best, result, partitions', g') →
       ∀ P h1 h2 rest, P ∈ partitions → valid_merge P h1 h2 rest →
                       best <= merge_score P h1 h2).
Proof.
  intros Hmin.
  pose proof spaced_round_best as Hbest.
  destruct (successors_by_agglomeration (G := nat) 0%nat
              (spaced_pairs 100 ++ [adjacent_pair]))
    as [[[[best result] parts] g'] |] eqn:Heq; [| done].
  cbn [fmap option_fmap option_map fst] in Hbest.
  assert (best = 13) as -> by congruence.
  destruct adjacent_pair_valid_merge as [Hvalid Hscore].
  assert (adjacent_pair ∈ spaced_pairs 100 ++ [adjacent_pair]) as Hin.
  { apply elem_of_app. right. apply list_elem_of_singleton. reflexivity. }
  specialize (Hmin _ _ _ _ _ Heq adjacent_pair _ _ [] Hin Hvalid).
  rewrite Hscore in Hmin. lia.
Qed.

(** C4: every partition a round returns has strictly fewer members than
    the input partition it was derived from (two members removed, the
    merge added, duplicates collapsed), hence fewer than the longest
    input partition: across rounds the cardinality only goes down. *)
Theorem successors_have_fewer_members
    {G : Type} `{!RandomSource G} (g : G) (partitions : list (list Rectangle)) :
  ∃ best result partitions' g',
    successors_by_agglomeration g partitions =
      Some (best, result, partitions', g') ∧
    ∀ s, s ∈ result →
      (∃ P h1 h2 rest,
         P ∈ partitions ∧ P ≡ₚ h1 :: h2 :: rest ∧
         list_to_set s =@{gset Rectangle}
           list_to_set (rest ++ [merge_rectangles h1 h2]) ∧
         (length s < length P)%nat) ∧
      (length s < max_list (length <$> partitions))%nat.
Proof.
  destruct (successors_by_agglomeration_inv g partitions)
    as (best & result & parts & g' & Heq & _ & _ & _ & _ & Hfrom & _).
  exists best, result, parts, g'. split; [done |].
  intros s Hs.
  destruct (Hfrom s Hs) as [Hnd (P & h1 & h2 & rest & HP & [Hp _] & Hset & _)].
  assert (length s < length P)%nat as Hlt.
  { assert (s ⊆+ merge_successor h1 h2 rest) as Hsub.
    { apply NoDup_submseteq; [done |]. intros x Hx.
      apply (elem_of_list_to_set (C := gset Rectangle)).
      rewrite <- Hset. by apply elem_of_list_to_set. }
    apply submseteq_length in Hsub.
    unfold merge_successor in Hsub. rewrite length_app in Hsub.
    rewrite (Permutation_length Hp). simpl in *. lia. }
  split.
  - by exists P, h1, h2, rest.
  - eapply Nat.lt_le_trans; [exact Hlt |].
    apply max_list_elem_of_le, list_elem_of_fmap. by exists P.
Qed.

Lemma successors_have_fewer_members_witness :
  ∃ best result partitions' g',
    successors_by_agglomeration (G := nat) 0%nat [adjacent_pair] =
      Some (best, result, partitions', g') ∧
    ∀ s, s ∈ result →
      (∃ P h1 h2 rest,
         P ∈ [adjacent_pair] ∧ P ≡ₚ h1 :: h2 :: rest ∧
         list_to_set s =@{gset Rectangle}
           list_to_set (rest ++ [merge_rectangles h1 h2]) ∧
         (length s < length P)%nat) ∧
      (length s < max_list (length <$> [adjacent_pair]))%nat.
Proof.
  apply (successors_have_fewer_members (G := nat) 0%nat [adjacent_pair]).
Defined.

(** ** C9: the answer of [agglomerate] *)

Section agglomerate_facts.
Context {G : Type} `{!RandomSource G}.

(** When the start partition has more members than the field allows and
    no more than [goal], the tracker rejects it, the loop is left at
    once, and the answer is [[None]]. *)
Lemma agglomerate_over_budget (g : G) field partition goal :
  maximum_greenhouses field < Z.of_nat (length partition) →
  Z.of_nat (length partition) <= goal →
  agglomerate g field partition goal = Some ([None], g).
Proof.
  intros Hmax Hgoal. unfold agglomerate. cbn [agglomerate_loop].
  rewrite (proj2 (Z.leb_le _ _) Hgoal). cbn [mbind option_bind].
  unfold store.
  rewrite (proj2 (Z.leb_gt _ _) Hmax), andb_false_r. done.
Qed.
End agglomerate_facts.

(** C9 fails on the code: for the instance [1], [@.@] the initial
    partition has the two berries as two rectangles; with the driver's
    goal of [2] the search stops at once, the tracker (budget [1]) has
    stored nothing, and [agglomerate] answers [[None]] instead of a
    partition. *)
Theorem agglomerate_returns_no_partition :
  ∃ start g,
    get_start_state (G := nat) 0%nat two_berry_field = Some (start, g) ∧
    start ≡ₚ [make_rectangle 0 0 0 0; make_rectangle 0 2 0 2] ∧
    agglomerate g two_berry_field start 2 = Some ([None], g).
Proof.
  assert (∃ start g,
    get_start_state (G := nat) 0%nat two_berry_field = Some (start, g) ∧
    start ≡ₚ [make_rectangle 0 0 0 0; make_rectangle 0 2 0 2])
    as (start & g & Heq & Hp).
  { destruct (get_start_state (G := nat) 0%nat two_berry_field)
      as [[start g] |] eqn:Heq.
    2:{ exfalso. vm_compute in Heq. discriminate. }
    exists start, g. split; [done |].
    vm_compute in Heq. injection Heq as <- <-.
    first [reflexivity | apply Permutation_swap]. }
  exists start, g. split; [done |]. split; [done |].
  apply agglomerate_over_budget.
  - rewrite (Permutation_length Hp). reflexivity.
  - rewrite (Permutation_length Hp). reflexivity.
Qed.

(** ** The field and its construction *)

Section field_facts.
Implicit Types (self f : StrawberryField) (p : Point).

Lemma row_points_spec n idx elements r c :
  (r, c) ∈ row_points n idx elements ↔
  r = n ∧ ∃ k : nat, c = idx + Z.of_nat k ∧ elements !! k = Some "@"%char.
Proof.
  revert idx. induction elements as [| e rest IH]; intros idx; simpl.
  - split; [by intros ?%elem_of_nil | by intros (_ & k & _ & ?)].
  - destruct (Ascii.eqb e "@") eqn:E.
    + apply Ascii.eqb_eq in E as ->. rewrite elem_of_cons, IH. split.
      * intros [[= -> ->] | (-> & k & -> & Hk)].
        -- split; [done |]. exists 0%nat. split; [lia | done].
        -- split; [done |]. exists (S k). split; [lia | done].
      * intros (-> & [| k] & -> & Hk).
        -- left. f_equal. lia.
        -- right. split; [done |]. exists k. split; [lia | done].
    + apply Ascii.eqb_neq in E. rewrite IH. split.
      * intros (-> & k & -> & Hk). split; [done |]. exists (S k).
        split; [lia | done].
      * intros (-> & [| k] & -> & Hk); [simpl in Hk; congruence |].
        split; [done |]. exists k. split; [lia | done].
Qed.

Lemma row_points_cols_lt n idx elements :
  ∀ p, p ∈ row_points n idx elements →
       p.1 = n ∧ idx <= p.2 < idx + Z.of_nat (length elements).
Proof.
  intros [r c] (-> & k & -> & Hk)%row_points_spec.
  apply lookup_lt_Some in Hk. simpl. lia.
Qed.

(** Within a row the berries are listed by strictly increasing column. *)
Lemma row_points_NoDup n idx elements : NoDup (row_points n idx elements).
Proof.
  revert idx. induction elements as [| e rest IH]; intros idx; simpl.
  - constructor.
  - destruct (Ascii.eqb e "@"); [| apply IH].
    constructor; [| apply IH].
    intros [_ Hc]%row_points_cols_lt. simpl in Hc. lia.
Qed.

Lemma add_row_loop_spec n idx elements rbuf t l b r :
  ∃ t' l' b' r',
    add_row_loop n idx elements (rbuf, t, l, b, r) =
      (rbuf ++ row_points n idx elements, t', l', b', r') ∧
    Z.min t n <= t' <= t ∧ Z.min l idx <= l' <= l ∧
    b <= b' <= Z.max b n ∧
    r <= r' <= Z.max r (idx + Z.of_nat (length elements) - 1) ∧
    ∀ p, p ∈ row_points n idx elements →
         t' <= p.1 <= b' ∧ l' <= p.2 <= r'.
Proof.
  revert idx rbuf t l b r.
  induction elements as [| e rest IH]; intros idx rbuf t l b r; simpl.
  - exists t, l, b, r. rewrite app_nil_r. split; [done |].
    repeat split; try lia; by apply elem_of_nil in H.
  - destruct (Ascii.eqb e "@").
    + destruct (IH (idx + 1) (rbuf ++ [(n, idx)]) (Z.min t n) (Z.min l idx)
                  (Z.max b n) (Z.max r idx))
        as (t' & l' & b' & r' & Heq & Ht & Hl & Hb & Hr & Hall).
      exists t', l', b', r'. rewrite Heq, <- app_assoc. split; [done |].
      split; [lia |]. split; [lia |]. split; [lia |]. split; [lia |].
      intros p [-> | Hp]%elem_of_cons; [simpl; lia | by apply Hall].
    + destruct (IH (idx + 1) rbuf t l b r)
        as (t' & l' & b' & r' & Heq & Ht & Hl & Hb & Hr & Hall).
      exists t', l', b', r'. split; [done |].
      split; [lia |]. split; [lia |]. split; [lia |]. split; [lia | done].
Qed.

Lemma StrawberryField_init_snoc maximum data row :
  StrawberryField_init maximum (data ++ [row]) =
  add_row (StrawberryField_init maximum data) row.
Proof. unfold StrawberryField_init. by rewrite foldl_app. Qed.

(** What [__init__] establishes. *)
Lemma StrawberryField_init_spec maximum data :
  let f := StrawberryField_init maximum data in
  rows f = imap (λ i row, row_points (Z.of_nat i) 0
                            (String.list_ascii_of_string row)) data ∧
  num_rows f = Z.of_nat (length data) ∧
  maximum_greenhouses f = maximum ∧
  0 <= num_cols f ∧
  (∀ row, row ∈ data →
     Z.of_nat (length (String.list_ascii_of_string row)) <= num_cols f) ∧
  0 <= ftop f <= sys_maxsize ∧ 0 <= fleft f <= sys_maxsize ∧
  -1 <= fbottom f < Z.of_nat (length data) ∧
  -1 <= fright f < num_cols f ∧
  ∀ p, occupied f p →
       ftop f <= p.1 <= fbottom f ∧ fleft f <= p.2 <= fright f.
Proof.
  induction data as [| row data IH] using rev_ind.
  { simpl. repeat split; try done; try (unfold sys_maxsize; lia).
    - by intros row ?%elem_of_nil.
    - destruct H as (row & []%elem_of_nil & _).
    - destruct H as (row & []%elem_of_nil & _).
    - destruct H as (row & []%elem_of_nil & _).
    - destruct H as (row & []%elem_of_nil & _). }
  rewrite StrawberryField_init_snoc.
  set (f0 := StrawberryField_init maximum data) in *.
  cbn zeta in IH.
  destruct IH as (Hrows & Hn & Hmax & Hc & Hcols & Ht & Hl & Hb & Hr & Hocc).
  unfold add_row.
  destruct (add_row_loop_spec (num_rows f0) 0
              (String.list_ascii_of_string row) []
              (ftop f0) (fleft f0) (fbottom f0) (fright f0))
    as (t' & l' & b' & r' & Heq & Ht' & Hl' & Hb' & Hr' & Hall).
  rewrite Heq. cbn zeta. cbn [rows num_rows num_cols ftop fleft fbottom fright
                             maximum_greenhouses].
  rewrite length_app. cbn [length].
  set (len := Z.of_nat (length (String.list_ascii_of_string row))) in *.
  assert (0 <= len) by (unfold len; lia).
  split.
  { rewrite imap_app. cbn [imap]. rewrite Hrows, Nat.add_0_r.
    rewrite app_nil_l. f_equal. f_equal. f_equal. lia. }
  split; [lia |]. split; [done |].
  split; [destruct (num_cols f0 <? len) eqn:E; lia |].
  split.
  { intros row' [Hin | ->%list_elem_of_singleton]%elem_of_app.
    - specialize (Hcols row' Hin).
      destruct (num_cols f0 <? len) eqn:E; [apply Z.ltb_lt in E |]; lia.
    - fold len. destruct (num_cols f0 <? len) eqn:E;
        [| apply Z.ltb_ge in E]; lia. }
  split; [lia |]. split; [lia |]. split; [lia |].
  split.
  { destruct (num_cols f0 <? len) eqn:E; [| apply Z.ltb_ge in E]; lia. }
  intros p (rw & [Hin | ->%list_elem_of_singleton]%elem_of_app & Hp).
  - assert (occupied f0 p) as Ho by (by exists rw).
    specialize (Hocc p Ho). lia.
  - rewrite app_nil_l in Hp. by apply Hall.
Qed.
End field_facts.

(** ** Indexing, minima and the berry queries *)

Section query_facts.
Implicit Types (f : StrawberryField) (p : Point) (rect : Rectangle).

Lemma elem_of_concat {A} (x : A) (ls : list (list A)) :
  x ∈ concat ls ↔ ∃ l, x ∈ l ∧ l ∈ ls.
Proof.
  induction ls as [| l ls IH]; simpl.
  - split; [by intros ?%elem_of_nil | by intros (l & _ & ?%elem_of_nil)].
  - rewrite elem_of_app, IH. split.
    + intros [H | (k & Hx & Hk)]; [exists l; split; [done | left] |].
      exists k. split; [done | by right].
    + intros (k & Hx & [-> | Hk]%elem_of_cons); [by left |].
      right. by exists k.
Qed.

Lemma py_getitem_nonneg {A} (l : list A) (i : Z) :
  0 <= i → py_getitem l i = l !! Z.to_nat i.
Proof. intros H. unfold py_getitem. by rewrite (proj2 (Z.leb_le _ _) H). Qed.

Lemma py_getitem_is_Some {A} (l : list A) (i : Z) :
  is_Some (py_getitem l i) ↔
  - Z.of_nat (length l) <= i < Z.of_nat (length l).
Proof.
  unfold py_getitem. destruct (0 <=? i) eqn:E.
  - apply Z.leb_le in E. rewrite lookup_lt_is_Some. lia.
  - apply Z.leb_gt in E.
    destruct (- Z.of_nat (length l) <=? i) eqn:E2.
    + apply Z.leb_le in E2. rewrite lookup_lt_is_Some. lia.
    + apply Z.leb_gt in E2. split; [by intros [? ?] | lia].
Qed.

Lemma py_getitem_elem_of {A} (l : list A) (i : Z) (x : A) :
  py_getitem l i = Some x → x ∈ l.
Proof.
  unfold py_getitem. repeat case_match; try done;
    apply list_elem_of_lookup_2.
Qed.

Lemma foldl_min_spec (x : Z) (t : list Z) :
  foldl Z.min x t ∈ x :: t ∧ ∀ y, y ∈ x :: t → foldl Z.min x t <= y.
Proof.
  revert x. induction t as [| z t IH]; intros x; simpl.
  - split; [left |]. intros y ->%list_elem_of_singleton. lia.
  - destruct (IH (Z.min x z)) as [Hin Hle]. split.
    + apply elem_of_cons in Hin as [-> | Hin].
      * destruct (Z.min_spec x z) as [[_ ->] | [_ ->]];
          [left | right; left].
      * by do 2 right.
    + intros y Hy.
      assert (foldl Z.min (Z.min x z) t <= Z.min x z) by (apply Hle; left).
      apply elem_of_cons in Hy as [-> | [-> | Hy]%elem_of_cons]; [lia.. |].
      apply Hle. by right.
Qed.

Lemma foldl_max_spec (x : Z) (t : list Z) :
  foldl Z.max x t ∈ x :: t ∧ ∀ y, y ∈ x :: t → y <= foldl Z.max x t.
Proof.
  revert x. induction t as [| z t IH]; intros x; simpl.
  - split; [left |]. intros y ->%list_elem_of_singleton. lia.
  - destruct (IH (Z.max x z)) as [Hin Hle]. split.
    + apply elem_of_cons in Hin as [-> | Hin].
      * destruct (Z.max_spec x z) as [[_ ->] | [_ ->]];
          [right; left | left].
      * by do 2 right.
    + intros y Hy.
      assert (Z.max x z <= foldl Z.max (Z.max x z) t) by (apply Hle; left).
      apply elem_of_cons in Hy as [-> | [-> | Hy]%elem_of_cons]; [lia.. |].
      apply Hle. by right.
Qed.

Lemma py_min_spec (l : list Z) :
  l ≠ [] → ∃ m, py_min l = Some m ∧ m ∈ l ∧ ∀ y, y ∈ l → m <= y.
Proof.
  destruct l as [| x t]; [done |]. intros _. eexists. split; [done |].
  apply foldl_min_spec.
Qed.

Lemma py_max_spec (l : list Z) :
  l ≠ [] → ∃ m, py_max l = Some m ∧ m ∈ l ∧ ∀ y, y ∈ l → y <= m.
Proof.
  destruct l as [| x t]; [done |]. intros _. eexists. split; [done |].
  apply foldl_max_spec.
Qed.

(** The loop of [get_berries_in_rectangle] succeeds when every index can
    be looked up, and then concatenates the filtered rows. *)
Lemma berries_loop_spec f rect idxs acc :
  (∀ i, i ∈ idxs → - Z.of_nat (length (rows f)) <= i
                   < Z.of_nat (length (rows f))) →
  berries_loop f rect idxs acc =
    Some (acc ++ concat ((λ i, filter (λ berry, contains rect berry)
                                 (default [] (py_getitem (rows f) i)))
                         <$> idxs)).
Proof.
  revert acc. induction idxs as [| i idxs IH]; intros acc Hidx; simpl.
  - by rewrite app_nil_r.
  - destruct (proj2 (py_getitem_is_Some (rows f) i)) as [row Hrow].
    { apply Hidx. left. }
    rewrite Hrow. simpl. rewrite IH.
    + by rewrite <- app_assoc.
    + intros j Hj. apply Hidx. by right.
Qed.

Lemma berries_loop_None f rect idxs acc i :
  i ∈ idxs → py_getitem (rows f) i = None →
  berries_loop f rect idxs acc = None.
Proof.
  revert acc. induction idxs as [| j idxs IH]; intros acc Hin Hnone.
  - by apply elem_of_nil in Hin.
  - simpl. destruct (py_getitem (rows f) j) as [row |] eqn:E; [| done].
    simpl. apply IH; [| done].
    apply elem_of_cons in Hin as [-> | Hin]; [congruence | done].
Qed.

Lemma init_rows_lookup maximum data (i : nat) row :
  rows (StrawberryField_init maximum data) !! i = Some row ↔
  ∃ s, data !! i = Some s ∧
       row = row_points (Z.of_nat i) 0 (String.list_ascii_of_string s).
Proof.
  destruct (StrawberryField_init_spec maximum data) as [-> _].
  rewrite list_lookup_imap.
  destruct (data !! i) as [s |]; simpl.
  - split; [intros [= <-]; by exists s | by intros (s' & [= <-] & ->)].
  - split; [done | by intros (s' & ? & _)].
Qed.

Lemma init_row_berry maximum data (i : nat) row p :
  rows (StrawberryField_init maximum data) !! i = Some row → p ∈ row →
  p.1 = Z.of_nat i ∧
  0 <= p.2 < num_cols (StrawberryField_init maximum data).
Proof.
  intros (s & Hs & ->)%init_rows_lookup Hp.
  apply row_points_cols_lt in Hp as [Hr Hc]. split; [done |].
  destruct (StrawberryField_init_spec maximum data)
    as (_ & _ & _ & _ & Hcols & _).
  specialize (Hcols s (list_elem_of_lookup_2 _ _ _ Hs)). lia.
Qed.

(** The stored berries are exactly the ["@"] cells of the input. *)
Lemma occupied_grid_berry maximum data p :
  occupied (StrawberryField_init maximum data) p ↔ grid_berry data p.
Proof.
  split.
  - intros (row & (i & Hi)%list_elem_of_lookup_1 & Hp).
    apply init_rows_lookup in Hi as (s & Hs & ->). destruct p as [r c].
    apply row_points_spec in Hp as (-> & k & -> & Hk).
    exists i, k, s. split; [f_equal; lia | done].
  - intros (i & k & s & -> & Hs & Hk).
    exists (row_points (Z.of_nat i) 0 (String.list_ascii_of_string s)). split.
    + apply (list_elem_of_lookup_2 _ i), init_rows_lookup. by exists s.
    + apply row_points_spec. split; [done |]. exists k. split; [lia | done].
Qed.

(** [get_berries_in_rectangle] on a rectangle whose rows can be indexed:
    it returns the stored berries that the rectangle contains. *)
Lemma get_berries_spec maximum data rect :
  let f := StrawberryField_init maximum data in
  in_rows f rect →
  ∃ berries,
    get_berries_in_rectangle f rect = Some berries ∧
    ∀ p, p ∈ berries ↔ occupied f p ∧ contains rect p = true.
Proof.
  intros f Hin. unfold get_berries_in_rectangle.
  destruct (StrawberryField_init_spec maximum data)
    as (Hrows & Hn & _). fold f in Hrows, Hn.
  assert (Z.of_nat (length (rows f)) = num_rows f) as Hlen.
  { rewrite Hrows, length_imap. lia. }
  rewrite berries_loop_spec.
  2:{ intros i Hi. unfold py_range in Hi. apply elem_of_seqZ in Hi.
      rewrite Hlen. unfold in_rows in Hin. lia. }
  eexists. split; [done |]. intros p. rewrite app_nil_l.
  rewrite elem_of_concat. split.
  - intros (l & Hp & (i & -> & Hi)%list_elem_of_fmap).
    apply list_elem_of_filter in Hp as [Hc Hp].
    destruct (py_getitem (rows f) i) as [row |] eqn:E;
      [| by apply elem_of_nil in Hp].
    simpl in Hp. split; [| by destruct (contains rect p)].
    exists row. split; [by eapply py_getitem_elem_of | done].
  - intros [(row & (i & Hi)%list_elem_of_lookup_1 & Hp) Hc].
    destruct (init_row_berry maximum data i row p Hi Hp) as [Hr _].
    destruct p as [r c]. simpl in Hr. subst r.
    pose proof Hc as Hc'. apply contains_spec in Hc' as [Hrow _].
    exists (filter (λ berry, contains rect berry)
              (default [] (py_getitem (rows f) (Z.of_nat i)))).
    split.
    + rewrite py_getitem_nonneg by lia. rewrite Nat2Z.id. fold f in Hi.
      rewrite Hi. simpl. apply list_elem_of_filter. split; [| done].
      by rewrite Hc.
    + apply list_elem_of_fmap. exists (Z.of_nat i). split; [done |].
      unfold py_range. apply elem_of_seqZ. lia.
Qed.
End query_facts.

(** ** The berries of the root region *)

Section root_facts.
Variables (maximum : Z) (data : list string).
Let f := StrawberryField_init maximum data.

Lemma init_rows_length : Z.of_nat (length (rows f)) = num_rows f.
Proof.
  destruct (StrawberryField_init_spec maximum data) as (Hrows & Hn & _).
  fold f in Hrows, Hn. rewrite Hrows, length_imap. lia.
Qed.

Lemma root_region_in_rows : in_rows f (root_region f).
Proof.
  destruct (StrawberryField_init_spec maximum data)
    as (_ & Hn & _ & _ & _ & Ht & _ & Hb & _). fold f in Hn, Ht, Hb.
  intros _. simpl. lia.
Qed.

Lemma NoDup_concat_rows (g : Z → list Point) (idxs : list Z) :
  NoDup idxs →
  (∀ i, i ∈ idxs → NoDup (g i) ∧ ∀ p, p ∈ g i → p.1 = i) →
  NoDup (concat (g <$> idxs)).
Proof.
  induction 1 as [| i idxs Hni Hnd IH]; intros Hg; simpl; [constructor |].
  apply NoDup_app. split; [apply Hg; left |]. split.
  - intros p Hp (l & Hpl & (j & -> & Hj)%list_elem_of_fmap)%elem_of_concat.
    destruct (Hg i) as [_ Hi]; [left |].
    destruct (Hg j) as [_ Hj']; [by right |].
    pose proof (Hi p Hp) as E1. pose proof (Hj' p Hpl) as E2.
    apply Hni. by rewrite <- E1, E2.
  - apply IH. intros j Hj. apply Hg. by right.
Qed.

(** The berries of the root region: every berry of the input, once. *)
Lemma root_berries_spec :
  ∃ berries,
    get_berries_in_rectangle f (root_region f) = Some berries ∧
    NoDup berries ∧
    (∀ p, p ∈ berries ↔ grid_berry data p) ∧
    (∀ p, p ∈ berries → 0 <= p.1 < num_rows f ∧ 0 <= p.2 < num_cols f).
Proof.
  pose proof root_region_in_rows as Hin.
  pose proof init_rows_length as Hlen.
  destruct (StrawberryField_init_spec maximum data)
    as (_ & Hn & _ & _ & _ & Ht & _ & Hb & _ & Hocc).
  fold f in Hn, Ht, Hb, Hocc.
  destruct (get_berries_spec maximum data (root_region f) Hin)
    as (berries & Heq & Hmem). fold f in Heq, Hmem.
  exists berries. split; [done |].
  assert (∀ p, p ∈ berries ↔ occupied f p) as Hmem'.
  { intros p. rewrite Hmem. split; [by intros [? _] |].
    intros Ho. split; [done |]. destruct p as [r c].
    apply contains_spec. specialize (Hocc _ Ho). simpl in *. lia. }
  split; [| split].
  - unfold get_berries_in_rectangle in Heq.
    rewrite berries_loop_spec in Heq.
    2:{ intros i Hi. unfold py_range in Hi. apply elem_of_seqZ in Hi.
        simpl in Hi. lia. }
    injection Heq as <-. cbn [app].
    apply NoDup_concat_rows; [apply NoDup_seqZ |].
    intros i Hi. unfold py_range in Hi. apply elem_of_seqZ in Hi.
    simpl in Hi. rewrite py_getitem_nonneg by lia.
    destruct (rows f !! Z.to_nat i) as [row |] eqn:Hrow; simpl;
      [| split; [constructor | by intros p ?%elem_of_nil]].
    split.
    + apply NoDup_filter.
      apply init_rows_lookup in Hrow as (s & _ & ->).
      apply row_points_NoDup.
    + intros p [_ Hp]%list_elem_of_filter.
      destruct (init_row_berry maximum data _ _ p Hrow Hp) as [-> _]. lia.
  - intros p. rewrite Hmem'. apply occupied_grid_berry.
  - intros p [row [(i & Hi)%list_elem_of_lookup_1 Hp]]%Hmem'.
    destruct (init_row_berry maximum data _ _ p Hi Hp) as [-> Hc].
    split; [| done]. apply lookup_lt_Some in Hi. lia.
Qed.

Lemma num_strawberries_loop_is_Some rect idxs num :
  (∀ i, i ∈ idxs → - num_rows f <= i < num_rows f) →
  is_Some (num_strawberries_loop f rect idxs num).
Proof.
  revert num. induction idxs as [| i idxs IH]; intros num Hidx; simpl.
  - by eexists.
  - destruct (proj2 (py_getitem_is_Some (rows f) i)) as [row Hrow].
    { rewrite init_rows_length. apply Hidx. left. }
    rewrite Hrow. simpl. apply IH. intros j Hj. apply Hidx. by right.
Qed.

Lemma num_strawberries_is_Some rect :
  in_rows f rect → is_Some (num_strawberries f rect).
Proof.
  intros Hin. apply num_strawberries_loop_is_Some.
  intros i Hi. unfold py_range in Hi. apply elem_of_seqZ in Hi.
  unfold in_rows in Hin. lia.
Qed.

Lemma in_grid_in_rows r : in_grid f r → in_rows f r.
Proof.
  intros (_ & H1 & H2) _. pose proof init_rows_length. lia.
Qed.
End root_facts.

(** ** The runs and their rectangles *)

Section run_facts.

Lemma elem_of_sublist_concat {A} (l : list A) (ls : list (list A)) :
  l ∈ ls → l `sublist_of` concat ls.
Proof.
  induction ls as [| k ls IH]; [by intros ?%elem_of_nil |].
  intros [-> | H]%elem_of_cons; simpl.
  - by apply sublist_inserts_r.
  - by apply sublist_inserts_l, IH.
Qed.

Lemma StronglySorted_sublist {A} (R : relation A) (l1 l2 : list A) :
  l1 `sublist_of` l2 → StronglySorted R l2 → StronglySorted R l1.
Proof.
  induction 1 as [| x l1 l2 Hsub IH | x l1 l2 Hsub IH]; intros Hs.
  - constructor.
  - apply StronglySorted_inv in Hs as [Hs Hall]. constructor; [by apply IH |].
    apply Forall_forall. intros y Hy.
    rewrite Forall_forall in Hall. apply Hall.
    by apply (sublist_subseteq _ _ Hsub).
  - apply StronglySorted_inv in Hs as [Hs _]. by apply IH.
Qed.

Lemma NoDup_concat_keyed {A K} (key : A → K) (g : K → list A)
    (idxs : list K) :
  NoDup idxs →
  (∀ i, i ∈ idxs → NoDup (g i) ∧ ∀ x, x ∈ g i → key x = i) →
  NoDup (concat (g <$> idxs)).
Proof.
  induction 1 as [| i idxs Hni Hnd IH]; intros Hg; simpl; [constructor |].
  apply NoDup_app. split; [apply Hg; left |]. split.
  - intros x Hx (l & Hxl & (j & -> & Hj)%list_elem_of_fmap)%elem_of_concat.
    destruct (Hg i) as [_ Hi]; [left |].
    destruct (Hg j) as [_ Hj']; [by right |].
    pose proof (Hi x Hx) as E1. pose proof (Hj' x Hxl) as E2.
    apply Hni. by rewrite <- E1, E2.
  - apply IH. intros j Hj. apply Hg. by right.
Qed.

Lemma NoDup_heads {A} (ls : list (list A)) :
  NoDup (concat ls) → Forall (λ l, l ≠ []) ls → NoDup (head <$> ls).
Proof.
  induction ls as [| l ls IH]; intros Hnd Hne; simpl; [constructor |].
  simpl in Hnd. apply NoDup_app in Hnd as (_ & Hdisj & Hnd).
  apply Forall_cons in Hne as [Hl Hne].
  constructor; [| by apply IH].
  destruct l as [| h t]; [done |]. simpl.
  intros (k & Hk & Hin)%list_elem_of_fmap.
  destruct k as [| h' t']; [done |]. injection Hk as <-.
  apply (Hdisj h); [left |]. apply elem_of_concat.
  exists (h :: t'). split; [left | done].
Qed.

Lemma runs_scan_sublist berries line buf :
  concat (runs_scan berries line buf) `sublist_of` buf ++ line.
Proof.
  revert buf. induction line as [| p line IH]; intros buf; cbn [runs_scan].
  - rewrite app_nil_r. destruct (1 <? length buf)%nat; simpl.
    + by rewrite app_nil_r.
    + apply sublist_nil_l.
  - destruct (bool_decide (p ∈ berries)).
    + specialize (IH (buf ++ [p])). by rewrite <- app_assoc in IH.
    + destruct buf as [| b buf].
      * simpl. apply sublist_cons, (IH []).
      * rewrite concat_app. apply sublist_app.
        -- destruct (1 <? length (b :: buf))%nat; simpl.
           ++ by rewrite app_nil_r.
           ++ apply sublist_nil_l.
        -- apply sublist_cons, (IH []).
Qed.

Lemma runs_scan_length berries line buf :
  Forall (λ run, (1 < length run)%nat) (runs_scan berries line buf).
Proof.
  revert buf. induction line as [| p line IH]; intros buf; cbn [runs_scan].
  - destruct (1 <? length buf)%nat eqn:E; [| constructor].
    apply Nat.ltb_lt in E. constructor; [done | constructor].
  - destruct (bool_decide (p ∈ berries)); [apply IH |].
    destruct buf as [| b buf]; [apply IH |].
    apply Forall_app. split; [| apply IH].
    destruct (1 <? length (b :: buf))%nat eqn:E; [| constructor].
    apply Nat.ltb_lt in E. constructor; [done | constructor].
Qed.

Lemma StronglySorted_fmap_seqZ (g : Z → Point) (m n : Z) :
  (∀ a b, a <= b → le2 (g a) (g b)) →
  StronglySorted le2 (g <$> seqZ m n).
Proof.
  intros Hg. remember (Z.to_nat n) as k eqn:Hk. revert m n Hk.
  induction k as [| k IH]; intros m n Hk.
  - rewrite seqZ_nil by lia. constructor.
  - rewrite seqZ_cons by lia. simpl. constructor.
    + apply IH. lia.
    + apply Forall_fmap, Forall_forall. intros x Hx%elem_of_seqZ.
      simpl. apply Hg. lia.
Qed.

(** The enclosing rectangle of a non-empty list of points. *)
Lemma pointlist2rectangle_spec (pts : list Point) :
  pts ≠ [] →
  ∃ t l b r,
    pointlist2rectangle pts = Some (make_rectangle t l b r) ∧
    (t ∈ pts.*1 ∧ ∀ y, y ∈ pts.*1 → t <= y) ∧
    (l ∈ pts.*2 ∧ ∀ y, y ∈ pts.*2 → l <= y) ∧
    (b ∈ pts.*1 ∧ ∀ y, y ∈ pts.*1 → y <= b) ∧
    (r ∈ pts.*2 ∧ ∀ y, y ∈ pts.*2 → y <= r).
Proof.
  intros Hne. unfold pointlist2rectangle.
  assert (pts.*1 ≠ []) as H1 by (by destruct pts).
  assert (pts.*2 ≠ []) as H2 by (by destruct pts).
  destruct (py_min_spec _ H1) as (t & -> & Ht).
  destruct (py_min_spec _ H2) as (l & -> & Hl).
  destruct (py_max_spec _ H1) as (b & -> & Hb).
  destruct (py_max_spec _ H2) as (r & -> & Hr).
  by exists t, l, b, r.
Qed.

Lemma pointlist2rectangle_contains pts rect p :
  pointlist2rectangle pts = Some rect → p ∈ pts → contains rect p = true.
Proof.
  intros Heq Hp.
  destruct (pointlist2rectangle_spec pts) as (t & l & b & r & Heq' & Ht & Hl & Hb & Hr).
  { intros ->. by apply elem_of_nil in Hp. }
  rewrite Heq in Heq'. injection Heq' as ->. destruct p as [pr pc].
  assert (pr ∈ pts.*1) as H1 by (apply list_elem_of_fmap; by exists (pr, pc)).
  assert (pc ∈ pts.*2) as H2 by (apply list_elem_of_fmap; by exists (pr, pc)).
  apply contains_spec. simpl.
  pose proof (proj2 Ht _ H1). pose proof (proj2 Hl _ H2).
  pose proof (proj2 Hb _ H1). pose proof (proj2 Hr _ H2). lia.
Qed.

(** A run listed from top-left on: its rectangle starts at its head. *)
Lemma pointlist2rectangle_sorted (h : Point) (run : list Point) :
  StronglySorted le2 (h :: run) →
  ∃ b r, pointlist2rectangle (h :: run) = Some (make_rectangle h.1 h.2 b r) ∧
         h.1 <= b ∧ h.2 <= r ∧ b ∈ (h :: run).*1.
Proof.
  intros [Hs Hall]%StronglySorted_inv.
  destruct (pointlist2rectangle_spec (h :: run))
    as (t & l & b & r & Heq & [Ht Htle] & [Hl Hlle] & [Hb Hble] & [Hr Hrle]);
    [done |].
  assert (∀ y, y ∈ (h :: run).*1 → h.1 <= y) as Hh1.
  { intros y ([yr yc] & -> & [-> | Hy]%elem_of_cons)%list_elem_of_fmap;
      [simpl; lia |].
    rewrite Forall_forall in Hall. by destruct (Hall _ Hy). }
  assert (∀ y, y ∈ (h :: run).*2 → h.2 <= y) as Hh2.
  { intros y ([yr yc] & -> & [-> | Hy]%elem_of_cons)%list_elem_of_fmap;
      [simpl; lia |].
    rewrite Forall_forall in Hall. by destruct (Hall _ Hy). }
  assert (t = h.1) as ->.
  { pose proof (Hh1 t Ht). pose proof (Htle h.1 ltac:(left)). lia. }
  assert (l = h.2) as ->.
  { pose proof (Hh2 l Hl). pose proof (Hlle h.2 ltac:(left)). lia. }
  exists b, r. split; [done |].
  split; [apply Hble; left |]. split; [apply Hrle; left | done].
Qed.
End run_facts.

Section run_rectangles.
Variables (maximum : Z) (data : list string).
Let f := StrawberryField_init maximum data.

Lemma elem_of_flat_map {A B} (g : A → list B) (xs : list A) (y : B) :
  y ∈ flat_map g xs ↔ ∃ x, x ∈ xs ∧ y ∈ g x.
Proof.
  induction xs as [| x xs IH]; simpl.
  - split; [by intros ?%elem_of_nil | by intros (x & ?%elem_of_nil & _)].
  - rewrite elem_of_app, IH. split.
    + intros [H | (z & Hz & Hy)]; [exists x; split; [left | done] |].
      exists z. split; [by right | done].
    + intros (z & [-> | Hz]%elem_of_cons & Hy); [by left |].
      right. by exists z.
Qed.

Lemma flat_map_runs_sublist berries (line : Z → list Point) (xs : list Z) :
  concat (flat_map (λ x, runs_scan berries (line x) []) xs)
    `sublist_of` concat (line <$> xs).
Proof.
  induction xs as [| x xs IH]; simpl; [done |].
  rewrite concat_app. apply sublist_app; [| done].
  apply (runs_scan_sublist berries (line x) []).
Qed.

Lemma mapM_runs (runs : list (list Point)) :
  Forall (λ run, run ≠ [] ∧ StronglySorted le2 run ∧
                 ∀ p, p ∈ run → 0 <= p.1 < num_rows f) runs →
  ∃ rects,
    mapM pointlist2rectangle runs = Some rects ∧
    (λ r, Some (rtop r, rleft r)) <$> rects = head <$> runs ∧
    ∀ r, r ∈ rects → in_grid f r.
Proof.
  induction 1 as [| run runs (Hne & Hs & Hrows) _ IH].
  - exists []. split; [done |]. split; [done |]. by intros r ?%elem_of_nil.
  - destruct IH as (rects & Heq & Hheads & Hgrid).
    destruct run as [| h run]; [done |].
    destruct (pointlist2rectangle_sorted h run Hs)
      as (b & r & Hrect & Hb & Hr & Hbin).
    exists (make_rectangle h.1 h.2 b r :: rects). split; [| split].
    + cbn [mapM]. rewrite Hrect. cbn [mbind option_bind].
      rewrite Heq. done.
    + cbn [fmap list_fmap]. cbn [fmap list_fmap] in Hheads.
      rewrite Hheads. simpl. by destruct h.
    + intros r' [-> | Hr']%elem_of_cons; [| by apply Hgrid].
      apply list_elem_of_fmap in Hbin as (q & -> & Hq).
      pose proof (Hrows h ltac:(left)). pose proof (Hrows q Hq).
      split; [split; simpl; lia | simpl; lia].
Qed.

Lemma run_rectangles_ok berries (line : Z → list Point) (xs : list Z) :
  NoDup (concat (line <$> xs)) →
  (∀ x, StronglySorted le2 (line x)) →
  (∀ x p, x ∈ xs → p ∈ line x → 0 <= p.1 < num_rows f) →
  ∃ rects,
    mapM pointlist2rectangle
      (flat_map (λ x, runs_scan berries (line x) []) xs) = Some rects ∧
    partition_ok f rects.
Proof.
  intros Hnd Hsorted Hrows.
  set (runs := flat_map (λ x, runs_scan berries (line x) []) xs).
  assert (∀ run, run ∈ runs →
            ∃ x, x ∈ xs ∧ run `sublist_of` line x ∧ run ≠ []) as Hrun.
  { intros run (x & Hx & Hin)%elem_of_flat_map. exists x. split; [done |].
    split.
    - etrans; [by apply elem_of_sublist_concat |].
      apply (runs_scan_sublist berries (line x) []).
    - pose proof (runs_scan_length berries (line x) []) as Hlen.
      rewrite Forall_forall in Hlen. specialize (Hlen run Hin).
      intros ->. simpl in Hlen. lia. }
  destruct (mapM_runs runs) as (rects & Heq & Hheads & Hgrid).
  { apply Forall_forall. intros run (x & Hx & Hsub & Hne)%Hrun.
    split; [done |]. split.
    - by eapply StronglySorted_sublist.
    - intros p Hp. apply (Hrows x p Hx).
      by apply (sublist_subseteq _ _ Hsub). }
  exists rects. split; [done |]. split; [| done].
  apply (NoDup_fmap_1 (λ r, Some (rtop r, rleft r))). rewrite Hheads.
  apply NoDup_heads.
  - eapply sublist_NoDup; [exact Hnd |]. apply flat_map_runs_sublist.
  - apply Forall_forall. by intros run (x & _ & _ & Hne)%Hrun.
Qed.

Lemma row_line_facts (n : Z) :
  let line := λ row : Z, map (λ col, (row, col)) (py_range 0 n) in
  (∀ xs, NoDup xs → NoDup (concat (line <$> xs))) ∧
  (∀ x, StronglySorted le2 (line x)) ∧
  (∀ x p, p ∈ line x → p.1 = x ∧ 0 <= p.2 < n).
Proof.
  intros line.
  assert (∀ x p, p ∈ line x → p.1 = x ∧ 0 <= p.2 < n) as Hmem.
  { intros x p (c & -> & Hc)%list_elem_of_fmap.
    unfold py_range in Hc. apply elem_of_seqZ in Hc. simpl. lia. }
  split; [| split; [| done]].
  - intros xs Hxs. apply (NoDup_concat_keyed fst); [done |].
    intros i _. split.
    + apply NoDup_fmap_2_strong; [| apply NoDup_seqZ]. by intros ? ? _ _ [=].
    + intros p Hp. by destruct (Hmem i p Hp).
  - intros x. apply (StronglySorted_fmap_seqZ (λ col, (x, col))).
    intros a b Hab. split; simpl; lia.
Qed.

Lemma col_line_facts (n : Z) :
  let line := λ col : Z, map (λ row, (row, col)) (py_range 0 n) in
  (∀ xs, NoDup xs → NoDup (concat (line <$> xs))) ∧
  (∀ x, StronglySorted le2 (line x)) ∧
  (∀ x p, p ∈ line x → p.2 = x ∧ 0 <= p.1 < n).
Proof.
  intros line.
  assert (∀ x p, p ∈ line x → p.2 = x ∧ 0 <= p.1 < n) as Hmem.
  { intros x p (c & -> & Hc)%list_elem_of_fmap.
    unfold py_range in Hc. apply elem_of_seqZ in Hc. simpl. lia. }
  split; [| split; [| done]].
  - intros xs Hxs. apply (NoDup_concat_keyed snd); [done |].
    intros i _. split.
    + apply NoDup_fmap_2_strong; [| apply NoDup_seqZ]. by intros ? ? _ _ [=].
    + intros p Hp. by destruct (Hmem i p Hp).
  - intros x. apply (StronglySorted_fmap_seqZ (λ row, (row, x))).
    intros a b Hab. split; simpl; lia.
Qed.

(** The rectangles of the vertical runs: no exception, no duplicate, all
    in the grid. *)
Lemma vertical_runs_ok :
  ∃ runs rects,
    get_vertical_runs f = Some runs ∧
    mapM pointlist2rectangle runs = Some rects ∧ partition_ok f rects.
Proof.
  destruct (root_berries_spec maximum data) as (berries & Heq & _).
  fold f in Heq. unfold get_vertical_runs. rewrite Heq.
  cbn [mbind option_bind].
  destruct (col_line_facts (num_rows f)) as (Hnd & Hs & Hmem).
  edestruct (run_rectangles_ok berries) as (rects & Hrects & Hok);
    [| | | eexists _, rects; split; [done | split; [exact Hrects | done]]].
  - apply Hnd, NoDup_seqZ.
  - done.
  - intros x p _ Hp. by destruct (Hmem x p Hp).
Qed.

Lemma horizontal_runs_ok :
  ∃ runs rects,
    get_horizontal_runs f = Some runs ∧
    mapM pointlist2rectangle runs = Some rects ∧ partition_ok f rects.
Proof.
  destruct (root_berries_spec maximum data) as (berries & Heq & _).
  fold f in Heq. unfold get_horizontal_runs. rewrite Heq.
  cbn [mbind option_bind].
  destruct (row_line_facts (num_cols f)) as (Hnd & Hs & Hmem).
  edestruct (run_rectangles_ok berries) as (rects & Hrects & Hok);
    [| | | eexists _, rects; split; [done | split; [exact Hrects | done]]].
  - apply Hnd, NoDup_seqZ.
  - done.
  - intros x p Hx Hp. destruct (Hmem x p Hp) as [-> _].
    unfold py_range in Hx. apply elem_of_seqZ in Hx. lia.
Qed.
End run_rectangles.

(** ** Open greenhouses and density consolidation *)

Section consolidation_facts.
Variables (maximum : Z) (data : list string).
Let f := StrawberryField_init maximum data.

Lemma existsb_elem_of {A} (g : A → bool) (l : list A) :
  existsb g l = true ↔ ∃ x, x ∈ l ∧ g x = true.
Proof.
  rewrite existsb_exists. split; intros (x & Hx & Hg); exists x;
    (split; [by apply list_elem_of_In | done]).
Qed.

Lemma singleton_in_grid (p : Point) :
  0 <= p.1 < num_rows f → in_grid f (make_rectangle p.1 p.2 p.1 p.2).
Proof. intros H. split; [split; simpl; lia | simpl; lia]. Qed.

Lemma assign_loop_ok (sp partition : list Rectangle)
    (berries : list Point) (acc : list Rectangle) :
  (∀ r, r ∈ partition → r ∈ sp) →
  NoDup berries →
  (∀ p, p ∈ berries → 0 <= p.1 < num_rows f) →
  partition_ok f acc →
  (∀ r, r ∈ acc →
        r ∈ partition ∨
        ∃ b, (b ∉ berries) ∧ r = make_rectangle b.1 b.2 b.1 b.2) →
  partition_ok f
    (foldl
       (λ partition (berry : Point),
          (if existsb (λ r, contains r berry) sp then partition
           else partition ++
                  [make_rectangle berry.1 berry.2 berry.1 berry.2]))
       acc berries).
Proof.
  intros Hsp. revert acc.
  induction berries as [| b berries IH]; intros acc Hnd Hrows Hok Hacc;
    [done |].
  apply NoDup_cons in Hnd as [Hb Hnd]. cbn [foldl].
  assert (∀ p, p ∈ berries → 0 <= p.1 < num_rows f) as Hrows'.
  { intros p Hp. apply Hrows. by right. }
  destruct (existsb (λ r, contains r b) sp) eqn:E.
  - apply IH; [done.. |]. intros r Hr.
    destruct (Hacc r Hr) as [H | (b' & Hb' & ->)]; [by left |].
    right. exists b'. split; [| done]. intros H. apply Hb'. by right.
  - apply IH; [done | done | |].
    + destruct Hok as [Hnda Hgrid]. split.
      * apply NoDup_app. split; [done |]. split; [| apply NoDup_singleton].
        intros r Hr ->%list_elem_of_singleton.
        destruct (Hacc _ Hr) as [H | (b' & Hb' & Heq)].
        -- assert (existsb (λ r, contains r b) sp = true) as E'; [| congruence].
           apply existsb_elem_of. eexists. split; [by apply Hsp |].
           destruct b as [br bc]. apply contains_spec. simpl. lia.
        -- destruct b as [br bc], b' as [br' bc']. simpl in Heq.
           injection Heq as -> ->. apply Hb'. left.
      * intros r [Hr | ->%list_elem_of_singleton]%elem_of_app;
          [by apply Hgrid |].
        apply singleton_in_grid, Hrows. left.
    + intros r [Hr | ->%list_elem_of_singleton]%elem_of_app.
      * destruct (Hacc r Hr) as [H | (b' & Hb' & ->)]; [by left |].
        right. exists b'. split; [| done]. intros H. apply Hb'. by right.
      * right. by exists b.
Qed.

(** [assign_open_greenhouses] keeps the list free of duplicates and in the
    grid. *)
Lemma assign_open_greenhouses_ok partition :
  partition_ok f partition →
  ∃ partition',
    assign_open_greenhouses f partition = Some partition' ∧
    partition_ok f partition'.
Proof.
  intros Hok.
  destruct (root_berries_spec maximum data)
    as (berries & Heq & Hnd & _ & Hrange).
  fold f in Heq, Hrange. unfold assign_open_greenhouses. rewrite Heq.
  cbn [mbind option_bind]. eexists. split; [done |].
  apply (assign_loop_ok _ partition); try done.
  - intros r Hr. unfold sorted_by_area. by rewrite merge_sort_Permutation.
  - intros p Hp. by destruct (Hrange p Hp).
  - intros r Hr. by left.
Qed.

Lemma apart_self r : well_formed r → apart r r = false.
Proof.
  intros [H1 H2]. unfold apart.
  rewrite !orb_false_iff, !Z.ltb_ge, !Z.gtb_ltb, !Z.ltb_ge. lia.
Qed.

Lemma merge_in_grid a b :
  in_grid f a → in_grid f b → in_grid f (merge_rectangles a b).
Proof.
  intros (Wa & Ha1 & Ha2) (Wb & Hb1 & Hb2). unfold merge_rectangles.
  split; [by apply merge_well_formed |].
  rewrite merge_top, merge_bottom. lia.
Qed.

(** One pass of the consolidation never raises; it keeps the list free of
    duplicates and in the grid, and shortens it by the number of merges. *)
Lemma density_pairs_ok ps partition num :
  partition_ok f partition →
  (∀ a b, (a, b) ∈ ps → a ≠ b) →
  ∃ partition' num',
    density_pairs f ps partition num = Some (partition', num') ∧
    partition_ok f partition' ∧ num <= num' ∧
    Z.of_nat (length partition') =
      Z.of_nat (length partition) - (num' - num).
Proof.
  revert partition num.
  induction ps as [| [first second] ps IH]; intros partition num Hok Hps.
  { exists partition, num. split; [done |]. split; [done |]. lia. }
  assert (∀ a b, (a, b) ∈ ps → a ≠ b) as Hps'.
  { intros a b Hab. apply Hps. by right. }
  assert (first ≠ second) as Hne by (apply Hps; left).
  cbn [density_pairs].
  destruct (bool_decide (first ∉ partition)) eqn:E1; [by apply IH |].
  destruct (bool_decide (second ∉ partition)) eqn:E2; [by apply IH |].
  apply bool_decide_eq_false in E1, E2.
  apply dec_stable in E1, E2.
  destruct Hok as [Hnd Hgrid].
  pose proof (merge_in_grid _ _ (Hgrid _ E1) (Hgrid _ E2)) as Hm.
  destruct (num_strawberries_is_Some maximum data
              (merge_rectangles first second)) as [n Hn].
  { by apply in_grid_in_rows. }
  fold f in Hn. rewrite Hn. cbn [mbind option_bind].
  destruct (n =? rarea (merge_rectangles first second)); [| by apply IH].
  destruct (count_overlaps partition (merge_rectangles first second) =? 2)
    eqn:Hc; [| by apply IH].
  apply Z.eqb_eq in Hc.
  assert (∃ rest, partition ≡ₚ first :: second :: rest) as [rest Hp].
  { apply list_elem_of_split in E1 as (l1 & l2 & ->).
    exists (filter (λ x, x ≠ second) (l1 ++ l2)).
    rewrite <- Permutation_middle. f_equiv.
    assert (second ∈ l1 ++ l2) as Hin.
    { apply elem_of_app in E2 as [H | H]; [apply elem_of_app; by left |].
      apply elem_of_cons in H as [H | H]; [by subst |].
      apply elem_of_app; by right. }
    apply NoDup_Permutation.
    - rewrite <- Permutation_middle in Hnd. by apply NoDup_cons in Hnd as [_ ?].
    - constructor.
      + rewrite list_elem_of_filter. by intros [? _].
      + apply NoDup_filter. rewrite <- Permutation_middle in Hnd.
        by apply NoDup_cons in Hnd as [_ ?].
    - intros x. rewrite elem_of_cons, list_elem_of_filter.
      destruct (decide (x = second)) as [-> | Hx]; [tauto |]. tauto. }
  destruct (list_remove_two partition first second rest Hp)
    as (s1 & s2 & H1 & H2 & Hs).
  rewrite H1. cbn [mbind option_bind]. rewrite H2. cbn [mbind option_bind].
  assert (NoDup (first :: second :: rest)) as Hnd' by (by rewrite <- Hp).
  apply NoDup_cons in Hnd' as [_ [_ Hrest]%NoDup_cons].
  destruct (IH (s2 ++ [merge_rectangles first second]) (num + 1))
    as (p' & n' & Heq & Hok' & Hle & Hlen); [| done |].
  { split.
    - apply NoDup_app. split; [by rewrite Hs |].
      split; [| apply NoDup_singleton].
      intros x Hx ->%list_elem_of_singleton.
      rewrite (count_overlaps_perm _ _ _ Hp) in Hc.
      rewrite count_overlaps_two_others in Hc.
      + rewrite Hs in Hx. specialize (Hc _ Hx).
        rewrite apart_self in Hc; [done | apply Hm].
      + apply apart_merge_l. apply (Hgrid _ E1).
      + apply apart_merge_r. apply (Hgrid _ E2).
    - intros x [Hx | ->%list_elem_of_singleton]%elem_of_app; [| done].
      apply Hgrid. rewrite Hp, <- Hs. by do 2 right. }
  exists p', n'. split; [done |]. split; [done |]. split; [lia |].
  rewrite Hlen, length_app, (Permutation_length Hp), (Permutation_length Hs).
  simpl. lia.
Qed.

Section with_random.
Context {G : Type} `{!RandomSource G}.

Lemma density_loop_ok fuel (g : G) pcopy partition :
  partition_ok f partition → NoDup pcopy →
  (length partition < fuel)%nat →
  ∃ partition' g',
    density_loop fuel g f pcopy partition = Some (partition', g') ∧
    partition_ok f partition'.
Proof.
  revert g pcopy partition.
  induction fuel as [| fuel IH]; intros g pcopy partition Hok Hnd Hlen;
    [lia |].
  cbn [density_loop].
  pose proof (shuffle_perm g pcopy) as Hperm.
  destruct (shuffle g pcopy) as [pc g1]. cbn [fst] in Hperm.
  destruct (density_pairs_ok (combinations2 pc) partition 0 Hok)
    as (p' & n' & Heq & Hok' & Hle & Hlen').
  { intros a b (rest & Hr)%combinations2_perm.
    assert (NoDup (a :: b :: rest)) as Hnd'.
    { rewrite <- Hr. by rewrite Hperm. }
    apply NoDup_cons in Hnd' as [Ha _]. intros ->. apply Ha. left. }
  rewrite Heq. cbn [mbind option_bind].
  destruct (n' =? 0) eqn:E; [by exists p', g1 |].
  apply Z.eqb_neq in E. apply IH; [done | apply Hok' | lia].
Qed.

(** [combine_and_maintain_density] terminates without an exception. *)
Lemma combine_and_maintain_density_ok (g : G) partition :
  partition_ok f partition →
  ∃ partition' g',
    combine_and_maintain_density g f partition = Some (partition', g') ∧
    partition_ok f partition'.
Proof.
  intros Hok. apply density_loop_ok; [done | apply Hok | lia].
Qed.
End with_random.
End consolidation_facts.

(** ** The initial partition *)

Section start_state_facts.
Variables (maximum : Z) (data : list string).
Let f := StrawberryField_init maximum data.

Lemma list_berries_spec (partition : list Rectangle) :
  ∃ berries,
    list_berries f partition =
      Some ((λ berry, (berry, _get_rect_id berry partition)) <$> berries) ∧
    ∀ p, p ∈ berries ↔ grid_berry data p.
Proof.
  destruct (root_berries_spec maximum data) as (berries & Heq & _ & Hmem & _).
  fold f in Heq. exists berries. split; [| done].
  unfold list_berries. by rewrite Heq.
Qed.

Lemma mix_init_spec (l : list (Point * option nat))
    (m : gmap Point (list (option nat))) (b : Point) :
  is_Some (foldl (λ mix '(berry, idx), <[berry := [idx]]> mix) m l !! b) ↔
  is_Some (m !! b) ∨ b ∈ l.*1.
Proof.
  revert m. induction l as [| [b' idx] l IH]; intros m; simpl.
  - split; [by left | by intros [? | ?%elem_of_nil]].
  - rewrite IH, lookup_insert_is_Some, elem_of_cons.
    destruct (decide (b' = b)) as [-> | Hne]; [tauto |].
    split; [intros [[? | [_ ?]] | ?] | intros [? | [? | ?]]]; try tauto;
      try congruence.
Qed.

Lemma mix_append_ok (l : list (Point * option nat))
    (m : gmap Point (list (option nat))) :
  (∀ b, b ∈ l.*1 → is_Some (m !! b)) →
  ∃ m', mix_append m l = Some m' ∧
        ∀ b, is_Some (m' !! b) ↔ is_Some (m !! b).
Proof.
  revert m. induction l as [| [b' idx] l IH]; intros m Hkeys; simpl.
  - by exists m.
  - destruct (Hkeys b') as [ids Hids]; [left |]. rewrite Hids. simpl.
    destruct (IH (<[b' := ids ++ [idx]]> m)) as (m' & Heq & Hdom).
    { intros b Hb. rewrite lookup_insert_is_Some.
      destruct (decide (b' = b)); [by left |]. right. split; [done |].
      apply Hkeys. by right. }
    exists m'. split; [done |]. intros b. rewrite Hdom.
    rewrite lookup_insert_is_Some.
    destruct (decide (b' = b)) as [-> | Hne]; [| tauto].
    split; [by eexists | by left].
Qed.

Lemma mirror_fold_spec (entries : list (Point * list (option nat)))
    (m : gmap (list (option nat)) (list Point)) :
  (∀ k grp, m !! k = Some grp → grp ≠ []) →
  let m' := foldl mirror_add m entries in
  (∀ k grp, m' !! k = Some grp → grp ≠ []) ∧
  (∀ k grp b, m !! k = Some grp → b ∈ grp →
              ∃ grp', m' !! k = Some grp' ∧ b ∈ grp') ∧
  (∀ b key, (b, key) ∈ entries → ∃ grp, m' !! key = Some grp ∧ b ∈ grp).
Proof.
  revert m. induction entries as [| [b0 key0] entries IH]; intros m Hne.
  { simpl. split; [done |]. split; [by eauto |].
    by intros b key ?%elem_of_nil. }
  cbn [foldl]. unfold mirror_add at 2.
  set (m1 := <[key0 := default [] (m !! key0) ++ [b0]]> m).
  destruct (IH m1) as (Hne' & Hkeep & Hnew).
  { intros k grp. unfold m1. rewrite lookup_insert_Some.
    intros [[_ <-] | [_ H]]; [| by eapply Hne].
    by destruct (default [] (m !! key0)). }
  split; [done |]. split.
  - intros k grp b Hk Hb.
    destruct (decide (key0 = k)) as [-> | Hk'].
    + apply (Hkeep k (default [] (m !! k) ++ [b0])).
      * unfold m1. by rewrite lookup_insert_eq.
      * rewrite Hk. simpl. apply elem_of_app. by left.
    + apply (Hkeep k grp); [| done]. unfold m1.
      by rewrite lookup_insert_ne.
  - intros b key [[= -> ->] | Hin]%elem_of_cons; [| by apply Hnew].
    apply (Hkeep key0 (default [] (m !! key0) ++ [b0])).
    + unfold m1. by rewrite lookup_insert_eq.
    + apply elem_of_app. right. left.
Qed.

Lemma mapM_groups (m : gmap (list (option nat)) (list Point)) :
  (∀ k grp, m !! k = Some grp → grp ≠ []) →
  ∃ state,
    mapM (λ entry : list (option nat) * list Point,
            pointlist2rectangle entry.2) (map_to_list m) = Some state ∧
    ∀ k grp, m !! k = Some grp →
             ∃ r, r ∈ state ∧ pointlist2rectangle grp = Some r.
Proof.
  intros Hne.
  destruct (mapM_is_Some_2
              (λ entry : list (option nat) * list Point,
                 pointlist2rectangle entry.2) (map_to_list m))
    as [state Hstate].
  { apply Forall_forall. intros [k grp] Hin%elem_of_map_to_list. simpl.
    destruct (pointlist2rectangle_spec grp) as (t & l & b & r & -> & _);
      [by eapply Hne | done]. }
  exists state. split; [done |].
  intros k grp Hk. apply elem_of_map_to_list in Hk.
  apply mapM_Some in Hstate.
  apply list_elem_of_lookup_1 in Hk as [i Hi].
  destruct (Forall2_lookup_l _ _ _ _ _ Hstate Hi) as (r & Hr & Heq).
  exists r. split; [by eapply list_elem_of_lookup_2 | done].
Qed.
End start_state_facts.

(** ** C6: the initial partition covers the field *)

(** C6: for every field built from an input grid, and whatever the
    shuffles, [get_start_state] returns a partition (no exception is
    raised and the consolidation loops terminate), and every berry of the
    grid is contained in at least one rectangle of that partition. *)
Theorem start_state_covers_every_berry
    {G : Type} `{!RandomSource G} (g : G) (maximum : Z) (data : list string) :
  ∃ state g',
    get_start_state g (StrawberryField_init maximum data) = Some (state, g') ∧
    ∀ p, grid_berry data p → ∃ r, r ∈ state ∧ contains r p = true.
Proof.
  unfold get_start_state.
  destruct (vertical_runs_ok maximum data) as (vr & vrects & E1 & E2 & Hv0).
  rewrite E1. cbn [mbind option_bind]. rewrite E2. cbn [mbind option_bind].
  destruct (assign_open_greenhouses_ok maximum data vrects Hv0)
    as (v1 & E3 & Hv1).
  rewrite E3. cbn [mbind option_bind].
  destruct (combine_and_maintain_density_ok maximum data g v1 Hv1)
    as (v2 & g1 & E4 & Hv2).
  rewrite E4. cbn [mbind option_bind].
  destruct (horizontal_runs_ok maximum data) as (hr & hrects & E5 & E6 & Hh0).
  rewrite E5. cbn [mbind option_bind]. rewrite E6. cbn [mbind option_bind].
  destruct (assign_open_greenhouses_ok maximum data hrects Hh0)
    as (h1 & E7 & Hh1).
  rewrite E7. cbn [mbind option_bind].
  destruct (combine_and_maintain_density_ok maximum data g1 h1 Hh1)
    as (h2 & g2 & E8 & Hh2).
  rewrite E8. cbn [mbind option_bind].
  destruct (list_berries_spec maximum data h2) as (bh & E9 & Hbh).
  rewrite E9. cbn [mbind option_bind].
  destruct (list_berries_spec maximum data v2) as (bv & E10 & Hbv).
  rewrite E10. cbn [mbind option_bind].
  set (hb := (λ berry, (berry, _get_rect_id berry h2)) <$> bh).
  set (vb := (λ berry, (berry, _get_rect_id berry v2)) <$> bv).
  set (mix0 := foldl (λ mix '(berry, idx), <[berry := [idx]]> mix) ∅ hb).
  assert (hb.*1 = bh) as Hhb.
  { unfold hb. rewrite <- list_fmap_compose. apply list_fmap_id. }
  assert (vb.*1 = bv) as Hvb.
  { unfold vb. rewrite <- list_fmap_compose. apply list_fmap_id. }
  assert (∀ b, is_Some (mix0 !! b) ↔ grid_berry data b) as Hmix0.
  { intros b. unfold mix0. rewrite mix_init_spec, Hhb, Hbh.
    rewrite lookup_empty. split; [by intros [[? ?] | ?] | by right]. }
  destruct (mix_append_ok vb mix0) as (mix & E11 & Hmix).
  { intros b. rewrite Hvb, Hbv. apply Hmix0. }
  rewrite E11. cbn [mbind option_bind].
  destruct (mirror_fold_spec (map_to_list mix) ∅)
    as (Hne & _ & Hgroups); [by intros k grp; rewrite lookup_empty |].
  destruct (mapM_groups _ Hne) as (state & E12 & Hstate).
  rewrite E12. cbn [mbind option_bind].
  exists state, g2. split; [done |].
  intros p Hp.
  destruct (proj2 (Hmix p)) as [key Hkey]; [by apply Hmix0 |].
  destruct (Hgroups p key) as (grp & Hgrp & Hin);
    [by apply elem_of_map_to_list |].
  destruct (Hstate key grp Hgrp) as (r & Hr & Hrect).
  exists r. split; [done |]. by eapply pointlist2rectangle_contains.
Qed.

Lemma start_state_covers_every_berry_witness :
  ∃ state g',
    get_start_state (G := nat) 0%nat (StrawberryField_init 1 ["@.@"%string])
      = Some (state, g') ∧
    ∀ p, grid_berry ["@.@"%string] p → ∃ r, r ∈ state ∧ contains r p = true.
Proof.
  apply (start_state_covers_every_berry (G := nat) 0%nat 1 ["@.@"%string]).
Defined.

(** * Further properties of the code *)

(** ** Rows outside the field *)

Section out_of_rows.
Variables (maximum : Z) (data : list string).
Let f := StrawberryField_init maximum data.

Lemma num_strawberries_loop_None rect idxs num i :
  i ∈ idxs → py_getitem (rows f) i = None →
  num_strawberries_loop f rect idxs num = None.
Proof.
  revert num. induction idxs as [| j idxs IH]; intros num Hin Hnone.
  - by apply elem_of_nil in Hin.
  - simpl. destruct (py_getitem (rows f) j) as [row |] eqn:E; [| done].
    simpl. apply IH; [| done].
    apply elem_of_cons in Hin as [-> | Hin]; [congruence | done].
Qed.

Lemma outside_rows_index rect :
  rtop rect <= rbottom rect →
  rtop rect < - num_rows f ∨ num_rows f <= rbottom rect →
  ∃ i, i ∈ py_range (rtop rect) (rbottom rect + 1) ∧
       py_getitem (rows f) i = None.
Proof.
  intros Hwf Hout. pose proof (init_rows_length maximum data) as Hlen.
  fold f in Hlen.
  exists (if decide (rtop rect < - num_rows f) then rtop rect
          else rbottom rect).
  split.
  - unfold py_range. apply elem_of_seqZ. case_decide; lia.
  - apply eq_None_not_Some. rewrite py_getitem_is_Some, Hlen.
    case_decide; lia.
Qed.

Lemma filter_ext_in {A} (P Q : A → Prop) `{!∀ x, Decision (P x)}
    `{!∀ x, Decision (Q x)} (l : list A) :
  (∀ x, x ∈ l → P x ↔ Q x) → filter P l = filter Q l.
Proof.
  induction l as [| x l IH]; intros Hext; [done |].
  rewrite !filter_cons.
  rewrite IH by (intros y Hy; apply Hext; by right).
  destruct (decide (P x)) as [HP | HP], (decide (Q x)) as [HQ | HQ];
    try done.
  - exfalso. apply HQ, (Hext x); [left | done].
  - exfalso. apply HP, (Hext x); [left | done].
Qed.

Lemma count_and_list_agree rect idxs num acc :
  (∀ i, i ∈ idxs → rtop rect <= i <= rbottom rect ∧ 0 <= i < num_rows f) →
  ∃ bs,
    berries_loop f rect idxs acc = Some (acc ++ bs) ∧
    num_strawberries_loop f rect idxs num =
      Some (num + Z.of_nat (length bs)).
Proof.
  pose proof (init_rows_length maximum data) as Hlen. fold f in Hlen.
  revert num acc. induction idxs as [| i idxs IH]; intros num acc Hidx.
  { exists []. simpl. rewrite app_nil_r. split; [done |]. f_equal. lia. }
  destruct (Hidx i) as [Hi1 Hi2]; [left |].
  destruct (proj2 (py_getitem_is_Some (rows f) i)) as [row Hrow]; [lia |].
  simpl. rewrite Hrow. simpl.
  assert (filter (λ berry : Point, rleft rect <= berry.2 <= rright rect) row
          = filter (λ berry, contains rect berry) row) as Hfilter.
  { apply filter_ext_in. intros [r c] Hp.
    rewrite py_getitem_nonneg in Hrow by lia.
    destruct (init_row_berry maximum data _ _ _ Hrow Hp) as [Hr _].
    simpl in Hr. rewrite Is_true_true, contains_spec. simpl. lia. }
  rewrite Hfilter.
  destruct (IH (num + Z.of_nat (length (filter (λ berry, contains rect berry) row)))
              (acc ++ filter (λ berry, contains rect berry) row))
    as (bs & E1 & E2).
  { intros j Hj. apply Hidx. by right. }
  exists (filter (λ berry, contains rect berry) row ++ bs).
  rewrite E1, E2, <- app_assoc, length_app. split; [done |]. f_equal. lia.
Qed.
End out_of_rows.

(** ** C8: the feasible region *)

(** C8, with the condition on the rows that the code needs.  On a field
    built by [__init__], [feasible_region] called without a rectangle
    returns the root region, which contains every berry.  Called with a
    rectangle whose rows can be indexed in the field (an empty span, or a
    span within [-num_rows, num_rows)): if the rectangle contains a berry,
    the result is a rectangle inside it that contains every berry of the
    rectangle and has a berry of the rectangle on each of its four sides
    (the tightest such rectangle); if it contains no berry, the result is
    [None], which is neither the root region nor any rectangle.  Called
    with any other rectangle, it raises ([IndexError]) and returns
    nothing, whether or not the rectangle contains a berry. *)
Theorem feasible_region_contract
    (maximum : Z) (data : list string) (rectangle : Rectangle) :
  let f := StrawberryField_init maximum data in
  feasible_region f None = Some (Some (root_region f)) ∧
  (∀ p, grid_berry data p → contains (root_region f) p = true) ∧
  (in_rows f rectangle →
   ((∃ p, grid_berry data p ∧ contains rectangle p = true) →
    ∃ r, feasible_region f (Some rectangle) = Some (Some r) ∧
         derived_ok r ∧ encloses rectangle r ∧
         (∀ p, grid_berry data p → contains rectangle p = true →
               contains r p = true) ∧
         (∃ p, grid_berry data p ∧ contains rectangle p = true ∧
               p.1 = rtop r) ∧
         (∃ p, grid_berry data p ∧ contains rectangle p = true ∧
               p.1 = rbottom r) ∧
         (∃ p, grid_berry data p ∧ contains rectangle p = true ∧
               p.2 = rleft r) ∧
         (∃ p, grid_berry data p ∧ contains rectangle p = true ∧
               p.2 = rright r)) ∧
   ((∀ p, grid_berry data p → contains rectangle p = false) →
    feasible_region f (Some rectangle) = Some None)) ∧
  (¬ in_rows f rectangle → feasible_region f (Some rectangle) = None).
Proof.
  intros f. split; [done |]. split.
  { intros [r c] Hp%(occupied_grid_berry maximum).
    destruct (StrawberryField_init_spec maximum data)
      as (_ & _ & _ & _ & _ & _ & _ & _ & _ & Hocc).
    specialize (Hocc _ Hp). apply contains_spec.
    unfold root_region, make_rectangle. cbn [rtop rleft rbottom rright].
    cbn [fst snd] in Hocc. exact Hocc. }
  split.
  2:{ intros Hout. unfold in_rows in Hout.
      assert (rtop rectangle <= rbottom rectangle) as Hspan
        by (destruct (decide (rtop rectangle <= rbottom rectangle));
            [done | exfalso; apply Hout; lia]).
      assert (rtop rectangle < - num_rows f ∨ num_rows f <= rbottom rectangle)
        as Hside.
      { destruct (decide (rtop rectangle < - num_rows f)); [by left |].
        destruct (decide (num_rows f <= rbottom rectangle)); [by right |].
        exfalso. apply Hout. lia. }
      destruct (outside_rows_index maximum data rectangle Hspan Hside)
        as (i & Hi & Hnone).
      unfold feasible_region, get_berries_in_rectangle.
      by rewrite (berries_loop_None _ _ _ _ i Hi Hnone). }
  intros Hrows.
  destruct (get_berries_spec maximum data rectangle Hrows)
    as (berries & Heq & Hmem). fold f in Heq, Hmem.
  assert (∀ p, p ∈ berries ↔ grid_berry data p ∧ contains rectangle p = true)
    as Hmem'.
  { intros p. rewrite Hmem. unfold f. by rewrite occupied_grid_berry. }
  split.
  - intros (p0 & Hg0 & Hc0).
    assert (p0 ∈ berries) as Hin0 by (by apply Hmem').
    unfold feasible_region. rewrite Heq. cbn [mbind option_bind].
    destruct berries as [| b0 bs]; [by apply elem_of_nil in Hin0 |].
    set (berries := b0 :: bs) in *.
    destruct (py_min_spec (berries.*1)) as (t & Ht & Htin & Htle); [done |].
    destruct (py_min_spec (berries.*2)) as (l & Hl & Hlin & Hlle); [done |].
    destruct (py_max_spec (berries.*1)) as (b & Hb & Hbin & Hble); [done |].
    destruct (py_max_spec (berries.*2)) as (r & Hr & Hrin & Hrle); [done |].
    rewrite Ht, Hl, Hb, Hr. cbn [mbind option_bind].
    exists (make_rectangle t l b r). split; [done |].
    split; [apply make_rectangle_derived_ok |].
    apply list_elem_of_fmap in Htin as ([tr tc] & -> & Htp).
    apply list_elem_of_fmap in Hlin as ([lr lc] & -> & Hlp).
    apply list_elem_of_fmap in Hbin as ([br bc] & -> & Hbp).
    apply list_elem_of_fmap in Hrin as ([rr rc] & -> & Hrp).
    pose proof (proj1 (Hmem' _) Htp) as [Htg Htc].
    pose proof (proj1 (Hmem' _) Hlp) as [Hlg Hlc].
    pose proof (proj1 (Hmem' _) Hbp) as [Hbg Hbc].
    pose proof (proj1 (Hmem' _) Hrp) as [Hrg Hrc].
    split.
    { apply contains_spec in Htc, Hlc, Hbc, Hrc.
      unfold encloses; simpl in *. lia. }
    split.
    { intros [pr pc] Hg Hc.
      assert ((pr, pc) ∈ berries) as Hin by (by apply Hmem').
      apply contains_spec; simpl.
      assert (pr ∈ berries.*1) as Hpr
        by (apply list_elem_of_fmap; by exists (pr, pc)).
      assert (pc ∈ berries.*2) as Hpc
        by (apply list_elem_of_fmap; by exists (pr, pc)).
      pose proof (Htle pr Hpr). pose proof (Hble pr Hpr).
      pose proof (Hlle pc Hpc). pose proof (Hrle pc Hpc).
      simpl in *. lia. }
    split; [by exists (tr, tc) |]. split; [by exists (br, bc) |].
    split; [by exists (lr, lc) | by exists (rr, rc)].
  - intros Hnone. unfold feasible_region. rewrite Heq.
    cbn [mbind option_bind].
    destruct berries as [| b0 bs]; [done |].
    assert (b0 ∈ b0 :: bs) as [Hg Hc]%Hmem' by left.
    rewrite (Hnone b0 Hg) in Hc. done.
Qed.

(** The rectangle [(0, 1, 0, 5)] on the one-row field ["@.@"] lies in the
    rows of the field and contains the berry at column 2; the feasible
    region is a rectangle inside it around its berries. *)
Lemma feasible_region_contract_witness :
  let f := StrawberryField_init 1 ["@.@"%string] in
  let rectangle := make_rectangle 0 1 0 5 in
  in_rows f rectangle ∧
  (∃ p, grid_berry ["@.@"%string] p ∧ contains rectangle p = true) ∧
  ∃ r, feasible_region f (Some rectangle) = Some (Some r) ∧
       derived_ok r ∧ encloses rectangle r ∧
       (∀ p, grid_berry ["@.@"%string] p → contains rectangle p = true →
             contains r p = true).
Proof.
  intros f rectangle.
  assert (in_rows f rectangle) as Hrows
    by (intros _; vm_compute; split; [discriminate | reflexivity]).
  assert (∃ p, grid_berry ["@.@"%string] p ∧ contains rectangle p = true)
    as Hberry.
  { exists (0, 2). split; [| reflexivity].
    exists 0%nat, 2%nat, "@.@"%string. repeat split. }
  split; [exact Hrows |]. split; [exact Hberry |].
  destruct (feasible_region_contract 1 ["@.@"%string] rectangle)
    as (_ & _ & Hin & _).
  destruct (proj1 (Hin Hrows) Hberry) as (r & Hr & Hd & He & Hc & _).
  exists r. split; [exact Hr |]. split; [exact Hd |].
  split; [exact He | exact Hc].
Defined.

(** C8 as stated fails: the rectangle [(0, 0, 1, 2)] contains both berries
    of the one-row field ["@.@"], and the rectangle [(5, 0, 6, 2)] contains
    none, yet for both the query raises ([self.rows[1]] and [self.rows[5]]
    do not exist) instead of answering with a rectangle or with [None]. *)
Lemma feasible_region_raises_beyond_the_rows :
  ¬ (∀ (maximum : Z) (data : list string) (rectangle : Rectangle),
       (∃ p, grid_berry data p ∧ contains rectangle p = true) →
       ∃ r, feasible_region (StrawberryField_init maximum data)
              (Some rectangle) = Some (Some r)) ∧
  ¬ (∀ (maximum : Z) (data : list string) (rectangle : Rectangle),
       (∀ p, grid_berry data p → contains rectangle p = false) →
       feasible_region (StrawberryField_init maximum data)
         (Some rectangle) = Some None).
Proof.
  split.
  - intros Hall.
    destruct (Hall 1 ["@.@"%string] (make_rectangle 0 0 1 2)) as [r Hr].
    + exists (0, 0). split; [| reflexivity].
      exists 0%nat, 0%nat, "@.@"%string. repeat split.
    + vm_compute in Hr. discriminate Hr.
  - intros Hall.
    specialize (Hall 1 ["@.@"%string] (make_rectangle 5 0 6 2)).
    assert (feasible_region (StrawberryField_init 1 ["@.@"%string])
              (Some (make_rectangle 5 0 6 2)) = None) as Hnone
      by (vm_compute; reflexivity).
    rewrite Hnone in Hall. discriminate Hall.
    intros [r c] (i & k & row & [= -> ->] & Hrow & _).
    destruct i as [| i]; [reflexivity |].
    by destruct i.
Qed.

(** X1: on a field built by [__init__], the three queries that index
    [self.rows] by the rows of a rectangle raise ([IndexError]) exactly
    when the rectangle spans at least one row and reaches outside the
    index range [-num_rows, num_rows) of the field. *)
Theorem queries_raise_outside_rows
    (maximum : Z) (data : list string) (rect : Rectangle) :
  let f := StrawberryField_init maximum data in
  let outside :=
    rtop rect <= rbottom rect ∧
    (rtop rect < - num_rows f ∨ num_rows f <= rbottom rect) in
  (get_berries_in_rectangle f rect = None ↔ outside) ∧
  (num_strawberries f rect = None ↔ outside) ∧
  (feasible_region f (Some rect) = None ↔ outside).
Proof.
  intros f outside.
  assert (outside ∨ in_rows f rect) as Hcases.
  { unfold outside, in_rows.
    destruct (decide (rtop rect <= rbottom rect)); [| right; lia].
    destruct (decide (rtop rect < - num_rows f)); [left; lia |].
    destruct (decide (num_rows f <= rbottom rect)); [left; lia |].
    right. lia. }
  assert (outside → ¬ in_rows f rect) as Hexcl.
  { unfold outside, in_rows. intros [H1 H2] H3. specialize (H3 H1). lia. }
  assert (outside → get_berries_in_rectangle f rect = None) as Hb.
  { intros [H1 H2].
    destruct (outside_rows_index maximum data rect H1 H2) as (i & Hi & Hn).
    by eapply berries_loop_None. }
  assert (outside → num_strawberries f rect = None) as Hn.
  { intros [H1 H2].
    destruct (outside_rows_index maximum data rect H1 H2) as (i & Hi & Hnone).
    by eapply num_strawberries_loop_None. }
  split; [| split].
  - split; [| done]. intros Hnone.
    destruct Hcases as [? | Hin]; [done |].
    destruct (get_berries_spec maximum data rect Hin) as (bs & Heq & _).
    fold f in Heq. congruence.
  - split; [| done]. intros Hnone.
    destruct Hcases as [? | Hin]; [done |].
    destruct (num_strawberries_is_Some maximum data rect Hin) as [n Heq].
    fold f in Heq. congruence.
  - unfold feasible_region. split.
    + intros Hnone. destruct Hcases as [? | Hin]; [done |].
      destruct (get_berries_spec maximum data rect Hin) as (bs & Heq & _).
      fold f in Heq. rewrite Heq in Hnone. cbn [mbind option_bind] in Hnone.
      destruct bs as [| b bs]; [done |].
      destruct (py_min_spec ((b :: bs).*1)) as (? & E1 & _); [done |].
      destruct (py_min_spec ((b :: bs).*2)) as (? & E2 & _); [done |].
      destruct (py_max_spec ((b :: bs).*1)) as (? & E3 & _); [done |].
      destruct (py_max_spec ((b :: bs).*2)) as (? & E4 & _); [done |].
      rewrite E1, E2, E3, E4 in Hnone. done.
    + intros Hout. by rewrite (Hb Hout).
Qed.

(** X4: on a field built by [__init__], for a rectangle whose rows are
    rows of the field (top not negative, bottom below [num_rows]),
    [num_strawberries] is the length of the list returned by
    [get_berries_in_rectangle]. *)
Theorem num_strawberries_counts_berries
    (maximum : Z) (data : list string) (rect : Rectangle)
    (Htop : 0 <= rtop rect)
    (Hbottom : rbottom rect < num_rows (StrawberryField_init maximum data)) :
  let f := StrawberryField_init maximum data in
  ∃ berries,
    get_berries_in_rectangle f rect = Some berries ∧
    num_strawberries f rect = Some (Z.of_nat (length berries)).
Proof.
  intros f.
  destruct (count_and_list_agree maximum data rect
              (py_range (rtop rect) (rbottom rect + 1)) 0 [])
    as (bs & E1 & E2).
  { intros i Hi. unfold py_range in Hi. apply elem_of_seqZ in Hi. lia. }
  exists bs. split; [exact E1 | exact E2].
Qed.

Lemma num_strawberries_counts_berries_witness :
  let f := StrawberryField_init 1 ["@.@"%string] in
  ∃ berries,
    get_berries_in_rectangle f (make_rectangle 0 1 0 5) = Some berries ∧
    num_strawberries f (make_rectangle 0 1 0 5)
      = Some (Z.of_nat (length berries)).
Proof.
  apply (num_strawberries_counts_berries 1 ["@.@"%string]
           (make_rectangle 0 1 0 5)); vm_compute; [discriminate | reflexivity].
Defined.

(** ** What the constructor stores *)

Section constructor_facts.

Lemma max_list_snoc (l : list nat) (x : nat) :
  max_list (l ++ [x]) = (max_list l `max` x)%nat.
Proof. induction l as [| y l IH]; simpl; [lia |]. rewrite IH. lia. Qed.

Lemma init_num_cols maximum data :
  num_cols (StrawberryField_init maximum data) =
  Z.of_nat (max_list ((λ row, length (String.list_ascii_of_string row))
                        <$> data)).
Proof.
  induction data as [| row data IH] using rev_ind; [done |].
  rewrite StrawberryField_init_snoc, fmap_app.
  change ((λ row0, length (String.list_ascii_of_string row0)) <$> [row])
    with [length (String.list_ascii_of_string row)].
  rewrite max_list_snoc. unfold add_row.
  destruct (add_row_loop_spec (num_rows (StrawberryField_init maximum data)) 0
              (String.list_ascii_of_string row) []
              (ftop (StrawberryField_init maximum data))
              (fleft (StrawberryField_init maximum data))
              (fbottom (StrawberryField_init maximum data))
              (fright (StrawberryField_init maximum data)))
    as (t' & l' & b' & r' & Heq & _).
  rewrite Heq. cbn [num_cols]. rewrite IH.
  destruct (_ <? _) eqn:E; [apply Z.ltb_lt in E | apply Z.ltb_ge in E]; lia.
Qed.

Lemma add_row_loop_touch n idx elements rbuf t l b r :
  let '(_, t', l', b', r') :=
    add_row_loop n idx elements (rbuf, t, l, b, r) in
  (t' = t ∨ ∃ p, p ∈ row_points n idx elements ∧ p.1 = t') ∧
  (l' = l ∨ ∃ p, p ∈ row_points n idx elements ∧ p.2 = l') ∧
  (b' = b ∨ ∃ p, p ∈ row_points n idx elements ∧ p.1 = b') ∧
  (r' = r ∨ ∃ p, p ∈ row_points n idx elements ∧ p.2 = r').
Proof.
  revert idx rbuf t l b r.
  induction elements as [| e rest IH]; intros idx rbuf t l b r; simpl.
  { repeat split; by left. }
  destruct (Ascii.eqb e "@").
  - specialize (IH (idx + 1) (rbuf ++ [(n, idx)]) (Z.min t n) (Z.min l idx)
                  (Z.max b n) (Z.max r idx)).
    destruct (add_row_loop n (idx + 1) rest _) as [[[[rb t'] l'] b'] r'].
    destruct IH as (Ht & Hl & Hb & Hr).
    assert (∀ (P : Point → Prop),
              (∃ p, p ∈ row_points n (idx + 1) rest ∧ P p) →
              ∃ p, p ∈ (n, idx) :: row_points n (idx + 1) rest ∧ P p)
      as Hlift.
    { intros P (p & Hp & HP). exists p. split; [by right | done]. }
    split; [| split; [| split]].
    + destruct Ht as [-> | Ht]; [| right; by apply Hlift].
      destruct (Z.min_spec t n) as [[_ ->] | [_ ->]]; [by left |].
      right. exists (n, idx). split; [left | done].
    + destruct Hl as [-> | Hl]; [| right; by apply Hlift].
      destruct (Z.min_spec l idx) as [[_ ->] | [_ ->]]; [by left |].
      right. exists (n, idx). split; [left | done].
    + destruct Hb as [-> | Hb]; [| right; by apply Hlift].
      destruct (Z.max_spec b n) as [[_ ->] | [_ ->]]; [| by left].
      right. exists (n, idx). split; [left | done].
    + destruct Hr as [-> | Hr]; [| right; by apply Hlift].
      destruct (Z.max_spec r idx) as [[_ ->] | [_ ->]]; [| by left].
      right. exists (n, idx). split; [left | done].
  - apply IH.
Qed.

Lemma init_bounds_touch maximum data :
  let f := StrawberryField_init maximum data in
  (ftop f = sys_maxsize ∨ ∃ p, occupied f p ∧ p.1 = ftop f) ∧
  (fleft f = sys_maxsize ∨ ∃ p, occupied f p ∧ p.2 = fleft f) ∧
  (fbottom f = -1 ∨ ∃ p, occupied f p ∧ p.1 = fbottom f) ∧
  (fright f = -1 ∨ ∃ p, occupied f p ∧ p.2 = fright f).
Proof.
  induction data as [| row data IH] using rev_ind.
  { simpl. repeat split; by left. }
  rewrite StrawberryField_init_snoc. cbn zeta in *.
  set (f0 := StrawberryField_init maximum data) in *.
  destruct IH as (Ht & Hl & Hb & Hr).
  unfold add_row.
  pose proof (add_row_loop_touch (num_rows f0) 0
                (String.list_ascii_of_string row) []
                (ftop f0) (fleft f0) (fbottom f0) (fright f0)) as Htouch.
  destruct (add_row_loop_spec (num_rows f0) 0
              (String.list_ascii_of_string row) []
              (ftop f0) (fleft f0) (fbottom f0) (fright f0))
    as (t' & l' & b' & r' & Heq & _).
  rewrite Heq in Htouch |- *. cbn zeta.
  cbn [rows ftop fleft fbottom fright].
  destruct Htouch as (Ht' & Hl' & Hb' & Hr').
  match goal with |- context [occupied ?x] => set (f1 := x) end.
  assert (∀ p, occupied f0 p → occupied f1 p) as Hold.
  { intros p (rw & Hrw & Hp). exists rw. split; [| done].
    unfold f1. cbn [rows]. apply elem_of_app. by left. }
  assert (∀ p, p ∈ row_points (num_rows f0) 0
                     (String.list_ascii_of_string row) →
               occupied f1 p) as Hnew.
  { intros p Hp. eexists. split; [| exact Hp].
    unfold f1. cbn [rows]. apply elem_of_app. right.
    apply list_elem_of_singleton. reflexivity. }
  split; [| split; [| split]].
  - destruct Ht' as [-> | (p & Hp & E)];
      [| right; exists p; split; [by apply Hnew | done]].
    destruct Ht as [? | (p & Hp & E)]; [by left |].
    right. exists p. split; [by apply Hold | done].
  - destruct Hl' as [-> | (p & Hp & E)];
      [| right; exists p; split; [by apply Hnew | done]].
    destruct Hl as [? | (p & Hp & E)]; [by left |].
    right. exists p. split; [by apply Hold | done].
  - destruct Hb' as [-> | (p & Hp & E)];
      [| right; exists p; split; [by apply Hnew | done]].
    destruct Hb as [? | (p & Hp & E)]; [by left |].
    right. exists p. split; [by apply Hold | done].
  - destruct Hr' as [-> | (p & Hp & E)];
      [| right; exists p; split; [by apply Hnew | done]].
    destruct Hr as [? | (p & Hp & E)]; [by left |].
    right. exists p. split; [by apply Hold | done].
Qed.

Lemma get_rect_id_from_spec idx berry partition :
  match get_rect_id_from idx berry partition with
  | Some j =>
      ∃ i r, j = (idx + i)%nat ∧ partition !! i = Some r ∧
             contains r berry = true ∧
             ∀ k r', (k < i)%nat → partition !! k = Some r' →
                     contains r' berry = false
  | None => ∀ r, r ∈ partition → contains r berry = false
  end.
Proof.
  revert idx. induction partition as [| r partition IH]; intros idx; simpl.
  - by intros r ?%elem_of_nil.
  - destruct (contains r berry) eqn:E.
    + exists 0%nat, r. split; [lia |]. split; [done |]. split; [done |]. lia.
    + specialize (IH (S idx)).
      destruct (get_rect_id_from (S idx) berry partition) as [j |].
      * destruct IH as (i & r' & -> & Hi & Hc & Hfirst).
        exists (S i), r'. split; [lia |]. split; [done |]. split; [done |].
        intros [| k] r'' Hk Hr''; simpl in Hr''; [congruence |].
        apply (Hfirst k); [lia | done].
      * intros r' [-> | Hr']%elem_of_cons; [done | by apply IH].
Qed.
End constructor_facts.

(** X2: [StrawberryField(data)] stores the grid: one stored row per input
    row, [num_cols] the length of the longest row, [maximum_greenhouses]
    the parsed first line; the [i]-th stored row lists, without
    repetition, exactly the positions of ["@"] in the [i]-th input row. *)
Theorem field_stores_the_grid (maximum : Z) (data : list string) :
  let f := StrawberryField_init maximum data in
  num_rows f = Z.of_nat (length data) ∧
  length (rows f) = length data ∧
  num_cols f =
    Z.of_nat (max_list ((λ row, length (String.list_ascii_of_string row))
                          <$> data)) ∧
  maximum_greenhouses f = maximum ∧
  ∀ (i : nat) row,
    rows f !! i = Some row →
    NoDup row ∧ ∀ p, p ∈ row ↔ p.1 = Z.of_nat i ∧ grid_berry data p.
Proof.
  intros f.
  destruct (StrawberryField_init_spec maximum data)
    as (Hrows & Hn & Hmax & _). fold f in Hrows, Hn, Hmax.
  split; [done |]. split; [by rewrite Hrows, length_imap |].
  split; [apply init_num_cols |]. split; [done |].
  intros i row Hrow.
  pose proof Hrow as (s & Hs & ->)%init_rows_lookup.
  split; [apply row_points_NoDup |].
  intros [r c]. rewrite row_points_spec. simpl. split.
  - intros (-> & k & -> & Hk). split; [done |].
    exists i, k, s. split; [f_equal; lia | done].
  - intros (-> & i' & k & s' & [= Hi ->] & Hs' & Hk).
    apply Nat2Z.inj in Hi as <-. split; [done |].
    exists k. split; [lia | congruence].
Qed.

(** X3: the root region of a field built by [__init__] contains every
    berry.  Without berries it is the rectangle
    [(sys.maxsize, sys.maxsize, -1, -1)], which contains no point.  With
    at least one berry, and a grid of at most [sys.maxsize] rows and
    columns, each of its four sides passes through a berry: it is the
    bounding rectangle of the berries. *)
Theorem root_region_bounds_the_berries (maximum : Z) (data : list string) :
  let f := StrawberryField_init maximum data in
  (∀ p, grid_berry data p → contains (root_region f) p = true) ∧
  ((∀ p, ¬ grid_berry data p) →
   root_region f = make_rectangle sys_maxsize sys_maxsize (-1) (-1) ∧
   ∀ p, contains (root_region f) p = false) ∧
  ((∃ p, grid_berry data p) →
   Z.of_nat (length data) <= sys_maxsize →
   (∀ row, row ∈ data →
           Z.of_nat (length (String.list_ascii_of_string row))
             <= sys_maxsize) →
   (∃ p, grid_berry data p ∧ p.1 = rtop (root_region f)) ∧
   (∃ p, grid_berry data p ∧ p.2 = rleft (root_region f)) ∧
   (∃ p, grid_berry data p ∧ p.1 = rbottom (root_region f)) ∧
   (∃ p, grid_berry data p ∧ p.2 = rright (root_region f))).
Proof.
  intros f.
  destruct (StrawberryField_init_spec maximum data)
    as (_ & Hn & _ & _ & Hcols & _ & _ & _ & _ & Hocc).
  fold f in Hn, Hcols, Hocc.
  destruct (init_bounds_touch maximum data) as (Ht & Hl & Hb & Hr).
  fold f in Ht, Hl, Hb, Hr.
  assert (∀ P : Point → Prop,
            (∃ p, occupied f p ∧ P p) → ∃ p, grid_berry data p ∧ P p)
    as Hgrid.
  { intros P (p & Hp & HP). exists p. split; [| done].
    by apply (occupied_grid_berry maximum). }
  split; [| split].
  - intros [r c] Hp%(occupied_grid_berry maximum).
    specialize (Hocc _ Hp). apply contains_spec.
    unfold root_region, make_rectangle. cbn [rtop rleft rbottom rright].
    cbn [fst snd] in Hocc. exact Hocc.
  - intros Hnone.
    assert (∀ P : Point → Prop, ¬ ∃ p, occupied f p ∧ P p) as Hno.
    { intros P (p & Hp & _)%Hgrid. by apply (Hnone p). }
    destruct Ht as [Ht | Ht]; [| by apply Hno in Ht].
    destruct Hl as [Hl | Hl]; [| by apply Hno in Hl].
    destruct Hb as [Hb | Hb]; [| by apply Hno in Hb].
    destruct Hr as [Hr | Hr]; [| by apply Hno in Hr].
    unfold root_region. rewrite Ht, Hl, Hb, Hr. split; [done |].
    intros [r c]. apply not_true_is_false. rewrite contains_spec. simpl.
    unfold sys_maxsize. lia.
  - intros (p0 & Hp0) Hlen Hwidth.
    pose proof Hp0 as Hocc0%(occupied_grid_berry maximum). fold f in Hocc0.
    specialize (Hocc _ Hocc0).
    destruct Hp0 as (i & k & s & -> & Hs & Hk). cbn [fst snd] in Hocc.
    pose proof (lookup_lt_Some _ _ _ Hs) as Hi.
    pose proof (lookup_lt_Some _ _ _ Hk) as Hk'.
    pose proof (Hwidth s (list_elem_of_lookup_2 _ _ _ Hs)) as Hw.
    unfold root_region, make_rectangle. cbn [rtop rleft rbottom rright].
    split; [| split; [| split]].
    + destruct Ht as [Ht | Ht]; [lia | by apply Hgrid in Ht].
    + destruct Hl as [Hl | Hl]; [lia | by apply Hgrid in Hl].
    + destruct Hb as [Hb | Hb]; [lia | by apply Hgrid in Hb].
    + destruct Hr as [Hr | Hr]; [lia | by apply Hgrid in Hr].
Qed.

(** X11: [_get_rect_id] returns the index of the first rectangle of the
    partition that contains the berry, and [None] exactly when no
    rectangle of the partition contains it. *)
Theorem get_rect_id_is_first_match (berry : Point) (partition : list Rectangle) :
  (∀ i : nat,
     _get_rect_id berry partition = Some i ↔
     ∃ r, partition !! i = Some r ∧ contains r berry = true ∧
          ∀ k r', (k < i)%nat → partition !! k = Some r' →
                  contains r' berry = false) ∧
  (_get_rect_id berry partition = None ↔
   ∀ r, r ∈ partition → contains r berry = false).
Proof.
  unfold _get_rect_id.
  pose proof (get_rect_id_from_spec 0 berry partition) as Hspec.
  destruct (get_rect_id_from 0 berry partition) as [j |].
  - destruct Hspec as (i & r & -> & Hi & Hc & Hfirst). simpl. split.
    + intros i'. split.
      * intros [= <-]. by exists r.
      * intros (r' & Hi' & Hc' & Hfirst'). f_equal.
        destruct (Nat.lt_trichotomy i i') as [Hlt | [-> | Hlt]]; [| done |].
        -- rewrite (Hfirst' i r Hlt Hi) in Hc. done.
        -- rewrite (Hfirst i' r' Hlt Hi') in Hc'. done.
    + split; [done |]. intros Hnone.
      rewrite (Hnone r (list_elem_of_lookup_2 _ _ _ Hi)) in Hc. done.
  - split.
    + intros i. split; [done |]. intros (r & Hi & Hc & _).
      rewrite (Hspec r (list_elem_of_lookup_2 _ _ _ Hi)) in Hc. done.
    + done.
Qed.

(** ** Open greenhouses and consolidation, continued *)

Section builder_facts.
Variables (maximum : Z) (data : list string).
Let f := StrawberryField_init maximum data.

Lemma assign_fold_spec (sp : list Rectangle) (berries : list Point)
    (acc : list Rectangle) :
  ∃ singles,
    foldl
      (λ partition (berry : Point),
         (if existsb (λ r, contains r berry) sp then partition
          else partition ++
                 [make_rectangle berry.1 berry.2 berry.1 berry.2]))
      acc berries = acc ++ singles ∧
    (∀ r, r ∈ singles →
          ∃ b, b ∈ berries ∧ r = make_rectangle b.1 b.2 b.1 b.2 ∧
               existsb (λ r, contains r b) sp = false) ∧
    (∀ b, b ∈ berries →
          existsb (λ r, contains r b) sp = true ∨
          make_rectangle b.1 b.2 b.1 b.2 ∈ singles).
Proof.
  revert acc. induction berries as [| b berries IH]; intros acc.
  { exists []. cbn [foldl]. rewrite app_nil_r. split; [done |].
    split; [by intros r ?%elem_of_nil | by intros b ?%elem_of_nil]. }
  cbn [foldl]. destruct (existsb (λ r, contains r b) sp) eqn:E.
  - destruct (IH acc) as (singles & Heq & Hs & Hb).
    exists singles. split; [done |]. split.
    + intros r Hr. destruct (Hs r Hr) as (b' & Hb' & Hrest).
      exists b'. split; [by right | done].
    + intros b' [-> | Hb']%elem_of_cons; [by left | by apply Hb].
  - destruct (IH (acc ++ [make_rectangle b.1 b.2 b.1 b.2]))
      as (singles & Heq & Hs & Hb).
    exists (make_rectangle b.1 b.2 b.1 b.2 :: singles).
    split; [by rewrite Heq, <- app_assoc |]. split.
    + intros r [-> | Hr]%elem_of_cons.
      * exists b. split; [left | done].
      * destruct (Hs r Hr) as (b' & Hb' & Hrest).
        exists b'. split; [by right | done].
    + intros b' [-> | Hb']%elem_of_cons; [right; left |].
      destruct (Hb b' Hb') as [? | ?]; [by left | right; by right].
Qed.

Lemma encloses_refl r : encloses r r.
Proof. unfold encloses. lia. Qed.

Lemma encloses_trans a b c : encloses a b → encloses b c → encloses a c.
Proof. unfold encloses. lia. Qed.

Lemma density_pairs_keeps ps partition num partition' num' :
  density_pairs f ps partition num = Some (partition', num') →
  (∀ r, r ∈ partition → ∃ r', r' ∈ partition' ∧ encloses r' r) ∧
  (∀ r', r' ∈ partition' →
         r' ∈ partition ∨ num_strawberries f r' = Some (rarea r')) ∧
  (length partition' ≤ length partition)%nat.
Proof.
  revert partition num.
  induction ps as [| [first second] ps IH]; intros partition num.
  { intros [= <- <-]. split; [| split; [by left | done]].
    intros r Hr. exists r. split; [done | apply encloses_refl]. }
  cbn [density_pairs].
  destruct (bool_decide (first ∉ partition)); [apply IH |].
  destruct (bool_decide (second ∉ partition)); [apply IH |].
  destruct (num_strawberries f (merge_rectangles first second))
    as [n |] eqn:Hn; [| done].
  cbn [mbind option_bind].
  destruct (n =? rarea (merge_rectangles first second)) eqn:En; [| apply IH].
  destruct (count_overlaps partition (merge_rectangles first second) =? 2);
    [| apply IH].
  destruct (list_remove first partition) as [s1 |] eqn:H1; [| done].
  cbn [mbind option_bind].
  destruct (list_remove second s1) as [s2 |] eqn:H2; [| done].
  cbn [mbind option_bind].
  intros Heq. apply IH in Heq as (Hcov & Hnew & Hlen).
  apply list_remove_Some in H1, H2. apply Z.eqb_eq in En.
  assert (partition ≡ₚ first :: second :: s2) as Hp by (by rewrite H1, H2).
  split; [| split].
  - intros r Hr. rewrite Hp in Hr.
    assert (∃ r0, r0 ∈ s2 ++ [merge_rectangles first second] ∧ encloses r0 r)
      as (r0 & Hr0 & Henc).
    { apply elem_of_cons in Hr as [-> | [-> | Hr]%elem_of_cons].
      - eexists. split; [apply elem_of_app; right; left |].
        apply merge_encloses_l.
      - eexists. split; [apply elem_of_app; right; left |].
        apply merge_encloses_r.
      - exists r. split; [apply elem_of_app; by left | apply encloses_refl]. }
    destruct (Hcov r0 Hr0) as (r' & Hr' & Henc').
    exists r'. split; [done | by eapply encloses_trans].
  - intros r' Hr'.
    destruct (Hnew r' Hr') as [[Hin | ->%list_elem_of_singleton]%elem_of_app | ?];
      [| | by right].
    + left. rewrite Hp. by do 2 right.
    + right. by rewrite Hn, En.
  - rewrite length_app in Hlen. rewrite (Permutation_length Hp).
    simpl in *. lia.
Qed.

Context {G : Type} `{!RandomSource G}.

Lemma density_loop_keeps fuel (g : G) pcopy partition partition' g' :
  density_loop fuel g f pcopy partition = Some (partition', g') →
  (∀ r, r ∈ partition → ∃ r', r' ∈ partition' ∧ encloses r' r) ∧
  (∀ r', r' ∈ partition' →
         r' ∈ partition ∨ num_strawberries f r' = Some (rarea r')) ∧
  (length partition' ≤ length partition)%nat.
Proof.
  revert g pcopy partition.
  induction fuel as [| fuel IH]; intros g pcopy partition; [done |].
  cbn [density_loop]. destruct (shuffle g pcopy) as [pc g1].
  destruct (density_pairs f (combinations2 pc) partition 0)
    as [[p1 n1] |] eqn:Hpairs; [| done].
  cbn [mbind option_bind].
  apply density_pairs_keeps in Hpairs as (Hcov & Hnew & Hlen).
  destruct (n1 =? 0); [by intros [= <- <-] |].
  intros Heq. apply IH in Heq as (Hcov' & Hnew' & Hlen').
  split; [| split; [| lia]].
  - intros r Hr. destruct (Hcov r Hr) as (r1 & Hr1 & Henc).
    destruct (Hcov' r1 Hr1) as (r' & Hr' & Henc').
    exists r'. split; [done | by eapply encloses_trans].
  - intros r' Hr'. destruct (Hnew' r' Hr') as [H1 | ?]; [| by right].
    by apply Hnew.
Qed.
End builder_facts.

(** X6: [assign_open_greenhouses] only appends to the partition: a 1x1
    rectangle for each berry that no rectangle of the given partition
    contains.  Afterwards every berry of the grid is contained in a
    rectangle of the partition. *)
Theorem open_greenhouses_cover_every_berry
    (maximum : Z) (data : list string) (partition : list Rectangle) :
  let f := StrawberryField_init maximum data in
  ∃ singles,
    assign_open_greenhouses f partition = Some (partition ++ singles) ∧
    (∀ r, r ∈ singles →
          ∃ b, grid_berry data b ∧ r = make_rectangle b.1 b.2 b.1 b.2 ∧
               ∀ q, q ∈ partition → contains q b = false) ∧
    ∀ b, grid_berry data b →
         ∃ r, r ∈ partition ++ singles ∧ contains r b = true.
Proof.
  intros f.
  destruct (root_berries_spec maximum data) as (berries & Heq & _ & Hmem & _).
  fold f in Heq. unfold assign_open_greenhouses. rewrite Heq.
  cbn [mbind option_bind].
  destruct (assign_fold_spec (sorted_by_area partition) berries partition)
    as (singles & -> & Hs & Hb).
  assert (∀ q, q ∈ sorted_by_area partition ↔ q ∈ partition) as Hsp.
  { intros q. unfold sorted_by_area. by rewrite merge_sort_Permutation. }
  exists singles. split; [done |]. split.
  - intros r Hr. destruct (Hs r Hr) as (b & Hbin & -> & Hex).
    exists b. split; [by apply Hmem |]. split; [done |].
    intros q Hq. apply not_true_is_false. intros Hc.
    assert (existsb (λ r, contains r b) (sorted_by_area partition) = true)
      as E; [| congruence].
    apply existsb_elem_of. exists q. split; [by apply Hsp | done].
  - intros b Hg. apply Hmem in Hg.
    destruct (Hb b Hg) as [(q & Hq & Hc)%existsb_elem_of | Hin].
    + exists q. split; [apply elem_of_app; left; by apply Hsp | done].
    + eexists. split; [apply elem_of_app; right; exact Hin |].
      destruct b as [r c]. apply contains_spec. simpl. lia.
Qed.

(** X5: on a list of distinct, non-empty rectangles lying in the rows of
    the field, [combine_and_maintain_density] returns (no exception, and
    the loop terminates whatever the shuffles).  The result has no more
    members than the input and no duplicates; every input rectangle is
    enclosed by a member of the result, so no covered point is lost; and
    every member that is not an input rectangle is dense: the number of
    berries in it equals its area. *)
Theorem consolidation_keeps_cover_and_density
    {G : Type} `{!RandomSource G} (g : G)
    (maximum : Z) (data : list string) (partition : list Rectangle)
    (Hok : partition_ok (StrawberryField_init maximum data) partition) :
  let f := StrawberryField_init maximum data in
  ∃ partition' g',
    combine_and_maintain_density g f partition = Some (partition', g') ∧
    NoDup partition' ∧
    (length partition' ≤ length partition)%nat ∧
    (∀ r, r ∈ partition → ∃ r', r' ∈ partition' ∧ encloses r' r) ∧
    (∀ r p, r ∈ partition → contains r p = true →
            ∃ r', r' ∈ partition' ∧ contains r' p = true) ∧
    (∀ r', r' ∈ partition' →
           r' ∈ partition ∨ num_strawberries f r' = Some (rarea r')).
Proof.
  intros f.
  destruct (combine_and_maintain_density_ok maximum data g partition Hok)
    as (p' & g' & Heq & Hnd & _).
  exists p', g'. split; [done |]. split; [done |].
  apply density_loop_keeps in Heq as (Hcov & Hnew & Hlen).
  split; [done |]. split; [done |]. split; [| done].
  intros r p Hr Hc. destruct (Hcov r Hr) as (r' & Hr' & Henc).
  exists r'. split; [done | by eapply contains_encloses].
Qed.

Lemma consolidation_keeps_cover_and_density_witness :
  let f := StrawberryField_init 1 ["@@"%string] in
  let partition := [make_rectangle 0 0 0 0; make_rectangle 0 1 0 1] in
  ∃ partition' g',
    combine_and_maintain_density (G := nat) 0%nat f partition
      = Some (partition', g') ∧
    NoDup partition' ∧
    (length partition' ≤ length partition)%nat ∧
    (∀ r, r ∈ partition → ∃ r', r' ∈ partition' ∧ encloses r' r) ∧
    (∀ r p, r ∈ partition → contains r p = true →
            ∃ r', r' ∈ partition' ∧ contains r' p = true) ∧
    (∀ r', r' ∈ partition' →
           r' ∈ partition ∨ num_strawberries f r' = Some (rarea r')).
Proof.
  apply (consolidation_keeps_cover_and_density (G := nat) 0%nat 1
           ["@@"%string] [make_rectangle 0 0 0 0; make_rectangle 0 1 0 1]).
  split.
  - apply NoDup_cons. split; [| apply NoDup_singleton].
    intros H%list_elem_of_singleton. discriminate H.
  - intros r Hr. apply elem_of_cons in Hr as [-> | Hr].
    + vm_compute. repeat split; discriminate.
    + apply list_elem_of_singleton in Hr as ->.
      vm_compute. repeat split; discriminate.
Defined.

(** ** The search loop *)

Section loop_facts.
Context {G : Type} `{!RandomSource G}.

Lemma successor_shorter (Ps : list (list Rectangle)) best (s : list Rectangle) :
  NoDup s → from_merge Ps best (list_to_set s) →
  (length s < max_list (length <$> Ps))%nat.
Proof.
  intros Hnd (P & h1 & h2 & rest & HP & [Hp _] & Hset & _).
  assert (s ⊆+ merge_successor h1 h2 rest) as Hsub.
  { apply NoDup_submseteq; [done |]. intros x Hx.
    apply (elem_of_list_to_set (C := gset Rectangle)).
    rewrite <- Hset. by apply elem_of_list_to_set. }
  apply submseteq_length in Hsub.
  unfold merge_successor in Hsub. rewrite length_app in Hsub.
  apply Nat.lt_le_trans with (length P).
  - rewrite (Permutation_length Hp). simpl in *. lia.
  - apply max_list_elem_of_le, list_elem_of_fmap. by exists P.
Qed.

Lemma max_list_lt (l : list nat) (n : nat) :
  l ≠ [] → (∀ x, x ∈ l → (x < n)%nat) → (max_list l < n)%nat.
Proof. intros Hne Hall. apply Hall. by apply max_list_elem_of. Qed.

(** The loop of [agglomerate] comes to an end within the fuel given to
    it, never raises, keeps the stored solution within the budget and
    never forgets a stored solution. *)
Lemma agglomerate_loop_ok fuel (g : G) maximum goal num successors best aliased :
  (max_list (length <$> successors) < fuel)%nat →
  within_goal maximum best →
  (aliased = true →
   ∃ first rest, successors = first :: rest ∧
                 Z.of_nat (length first) <= maximum) →
  ∃ best' g',
    agglomerate_loop fuel g maximum goal num successors best aliased
      = Some (best', g') ∧
    within_goal maximum best' ∧
    (is_Some (_solution best) → is_Some (_solution best')).
Proof.
  revert g num successors best aliased.
  induction fuel as [| fuel IH];
    intros g num successors best aliased Hfuel Hwithin Halias; [lia |].
  cbn [agglomerate_loop].
  destruct (num <=? goal); [by exists best, g |].
  destruct (successors_by_agglomeration_inv g successors)
    as (score & result & shuffled & g1 & Heq & _ & _ & Hperm & _ & Hfrom & _).
  rewrite Heq. cbn [mbind option_bind].
  set (best1 := if aliased
                then {| _solution := head shuffled; _score := _score best |}
                else best).
  assert (within_goal maximum best1 ∧
          (is_Some (_solution best) → is_Some (_solution best1)))
    as [Hwithin1 Hsome1].
  { unfold best1. destruct aliased; [| done].
    destruct (Halias eq_refl) as (first & rest & -> & Hlen).
    apply Forall2_cons_inv_r in Hperm
      as (first' & rest' & Hfirst & _ & ->).
    split; [| by eexists].
    intros sol [= <-]. by rewrite (Permutation_length Hfirst). }
  destruct result as [| first result]; [by exists best1, g1 |].
  destruct (IH g1 (Z.of_nat (length first)) (first :: result)
              (store best1 first score maximum)
              ((score <? _score best1) &&
               (Z.of_nat (length first) <=? maximum)))
    as (best' & g' & Hloop & Hwithin' & Hsome').
  - assert (max_list (length <$> first :: result)
            < max_list (length <$> successors))%nat; [| lia].
    apply max_list_lt; [done |].
    intros x (s & -> & Hs)%list_elem_of_fmap.
    destruct (Hfrom s Hs) as [Hnd Hm]. by eapply successor_shorter.
  - by apply store_within_goal.
  - intros [_ Hle%Z.leb_le]%andb_true_iff. by exists first, result.
  - exists best', g'. split; [exact Hloop |]. split; [done |].
    intros Hsome. apply Hsome'. unfold store.
    destruct (_ && _); [by eexists | by apply Hsome1].
Qed.
End loop_facts.

(** X8: [agglomerate] terminates on every start partition, whatever the
    shuffles, and raises no exception.  Its answer is either [None] or a
    partition with at most [maximum_greenhouses] members; it is a
    partition whenever the start partition itself has at most
    [maximum_greenhouses] members (and a score below [sys.maxsize]). *)
Theorem agglomerate_terminates_within_budget
    {G : Type} `{!RandomSource G} (g : G) (field : StrawberryField)
    (partition : list Rectangle) (goal : Z) :
  ∃ answer g',
    agglomerate g field partition goal = Some ([answer], g') ∧
    (∀ sol, answer = Some sol →
            Z.of_nat (length sol) <= maximum_greenhouses field) ∧
    (get_score partition < sys_maxsize →
     Z.of_nat (length partition) <= maximum_greenhouses field →
     is_Some answer).
Proof.
  unfold agglomerate.
  destruct (agglomerate_loop_ok (S (length partition)) g
              (maximum_greenhouses field) goal
              (Z.of_nat (length partition)) [partition]
              (store BestSolution_init partition (get_score partition)
                 (maximum_greenhouses field))
              ((get_score partition <? sys_maxsize) &&
               (Z.of_nat (length partition) <=? maximum_greenhouses field)))
    as (best' & g' & Heq & Hwithin & Hsome).
  - simpl. lia.
  - apply store_within_goal. by intros sol.
  - intros [_ Hle%Z.leb_le]%andb_true_iff. by exists partition, [].
  - rewrite Heq. cbn [mbind option_bind].
    exists (solution best'), g'. split; [done |]. split; [apply Hwithin |].
    intros Hscore Hlen. apply Hsome. unfold store, BestSolution_init.
    cbn [_score].
    rewrite (proj2 (Z.ltb_lt _ _) Hscore), (proj2 (Z.leb_le _ _) Hlen).
    by eexists.
Qed.

Lemma agglomerate_terminates_within_budget_witness :
  ∃ answer g',
    agglomerate (G := nat) 0%nat two_berry_field adjacent_pair 2
      = Some ([answer], g') ∧
    (∀ sol, answer = Some sol →
            Z.of_nat (length sol) <= maximum_greenhouses two_berry_field) ∧
    (get_score adjacent_pair < sys_maxsize →
     Z.of_nat (length adjacent_pair) <= maximum_greenhouses two_berry_field →
     is_Some answer).
Proof.
  apply (agglomerate_terminates_within_budget (G := nat) 0%nat
           two_berry_field adjacent_pair 2).
Defined.

(** ** The rectangles of the initial partition *)

Section group_facts.
Variables (maximum : Z) (data : list string).
Let f := StrawberryField_init maximum data.

Lemma mirror_fold_members (entries : list (Point * list (option nat)))
    (m : gmap (list (option nat)) (list Point)) k grp b :
  foldl mirror_add m entries !! k = Some grp → b ∈ grp →
  (∃ grp0, m !! k = Some grp0 ∧ b ∈ grp0) ∨ (b, k) ∈ entries.
Proof.
  revert m. induction entries as [| [b0 key0] entries IH]; intros m.
  { cbn [foldl]. intros Hk Hb. left. by exists grp. }
  cbn [foldl]. unfold mirror_add at 2. intros Hk Hb.
  destruct (IH _ Hk Hb) as [(grp0 & Hgrp0 & Hb0) | Hin]; [| right; by right].
  apply lookup_insert_Some in Hgrp0 as [[<- <-] | [Hne Hgrp0]].
  - apply elem_of_app in Hb0 as [Hb0 | ->%list_elem_of_singleton].
    + left. destruct (m !! key0) as [grp' |]; simpl in Hb0.
      * by exists grp'.
      * by apply elem_of_nil in Hb0.
    + right. left.
  - left. by exists grp0.
Qed.

Lemma mapM_groups_inv (m : gmap (list (option nat)) (list Point)) state r :
  mapM (λ entry : list (option nat) * list Point,
          pointlist2rectangle entry.2) (map_to_list m) = Some state →
  r ∈ state →
  ∃ k grp, m !! k = Some grp ∧ pointlist2rectangle grp = Some r.
Proof.
  intros Hstate%mapM_Some (i & Hi)%list_elem_of_lookup_1.
  destruct (Forall2_lookup_r _ _ _ _ _ Hstate Hi) as ([k grp] & Hk & Heq).
  exists k, grp. split; [| done].
  apply elem_of_map_to_list. by eapply list_elem_of_lookup_2.
Qed.

Context {G : Type} `{!RandomSource G}.

(** Every rectangle of the initial partition is the enclosing rectangle
    of a non-empty group of berries. *)
Lemma start_state_groups (g : G) state g' r :
  get_start_state g f = Some (state, g') → r ∈ state →
  ∃ grp, grp ≠ [] ∧ (∀ p, p ∈ grp → grid_berry data p) ∧
         pointlist2rectangle grp = Some r.
Proof.
  unfold get_start_state.
  destruct (vertical_runs_ok maximum data) as (vr & vrects & E1 & E2 & Hv0).
  fold f in E1. rewrite E1. cbn [mbind option_bind].
  rewrite E2. cbn [mbind option_bind].
  destruct (assign_open_greenhouses_ok maximum data vrects Hv0)
    as (v1 & E3 & Hv1).
  fold f in E3. rewrite E3. cbn [mbind option_bind].
  destruct (combine_and_maintain_density_ok maximum data g v1 Hv1)
    as (v2 & g1 & E4 & Hv2).
  fold f in E4. rewrite E4. cbn [mbind option_bind].
  destruct (horizontal_runs_ok maximum data) as (hr & hrects & E5 & E6 & Hh0).
  fold f in E5. rewrite E5. cbn [mbind option_bind].
  rewrite E6. cbn [mbind option_bind].
  destruct (assign_open_greenhouses_ok maximum data hrects Hh0)
    as (h1 & E7 & Hh1).
  fold f in E7. rewrite E7. cbn [mbind option_bind].
  destruct (combine_and_maintain_density_ok maximum data g1 h1 Hh1)
    as (h2 & g2 & E8 & Hh2).
  fold f in E8. rewrite E8. cbn [mbind option_bind].
  destruct (list_berries_spec maximum data h2) as (bh & E9 & Hbh).
  fold f in E9. rewrite E9. cbn [mbind option_bind].
  destruct (list_berries_spec maximum data v2) as (bv & E10 & Hbv).
  fold f in E10. rewrite E10. cbn [mbind option_bind].
  set (hb := (λ berry, (berry, _get_rect_id berry h2)) <$> bh).
  set (vb := (λ berry, (berry, _get_rect_id berry v2)) <$> bv).
  set (mix0 := foldl (λ mix '(berry, idx), <[berry := [idx]]> mix) ∅ hb).
  assert (hb.*1 = bh) as Hhb.
  { unfold hb. rewrite <- list_fmap_compose. apply list_fmap_id. }
  assert (vb.*1 = bv) as Hvb.
  { unfold vb. rewrite <- list_fmap_compose. apply list_fmap_id. }
  assert (∀ b, is_Some (mix0 !! b) ↔ grid_berry data b) as Hmix0.
  { intros b. unfold mix0. rewrite mix_init_spec, Hhb, Hbh.
    rewrite lookup_empty. split; [by intros [[? ?] | ?] | by right]. }
  destruct (mix_append_ok vb mix0) as (mix & E11 & Hmix).
  { intros b. rewrite Hvb, Hbv. apply Hmix0. }
  rewrite E11. cbn [mbind option_bind].
  destruct (mirror_fold_spec (map_to_list mix) ∅)
    as (Hne & _ & _); [by intros k grp; rewrite lookup_empty |].
  destruct (mapM _ (map_to_list (foldl mirror_add ∅ (map_to_list mix))))
    as [state' |] eqn:E12; [| done].
  cbn [mbind option_bind]. intros [= <- <-] Hr.
  destruct (mapM_groups_inv _ _ _ E12 Hr) as (k & grp & Hk & Hrect).
  exists grp. split; [by eapply Hne |]. split; [| done].
  intros p Hp.
  destruct (mirror_fold_members _ _ _ _ _ Hk Hp)
    as [(grp0 & Hgrp0 & _) | Hin]; [by rewrite lookup_empty in Hgrp0 |].
  apply elem_of_map_to_list in Hin. apply Hmix0, Hmix. by eexists.
Qed.
End group_facts.

(** X7: every rectangle of the partition returned by [get_start_state] is
    the enclosing rectangle of some berries: its cost and area follow
    from its bounds, it is not empty, it contains only cells of the root
    region, and each of its four sides passes through a berry of the
    grid. *)
Theorem start_state_rectangles_hug_berries
    {G : Type} `{!RandomSource G} (g g' : G)
    (maximum : Z) (data : list string) (state : list Rectangle) (r : Rectangle)
    (Hstate : get_start_state g (StrawberryField_init maximum data)
              = Some (state, g'))
    (Hr : r ∈ state) :
  derived_ok r ∧ well_formed r ∧
  encloses (root_region (StrawberryField_init maximum data)) r ∧
  (∃ p, grid_berry data p ∧ contains r p = true ∧ p.1 = rtop r) ∧
  (∃ p, grid_berry data p ∧ contains r p = true ∧ p.2 = rleft r) ∧
  (∃ p, grid_berry data p ∧ contains r p = true ∧ p.1 = rbottom r) ∧
  (∃ p, grid_berry data p ∧ contains r p = true ∧ p.2 = rright r).
Proof.
  destruct (start_state_groups maximum data g state g' r Hstate Hr)
    as (grp & Hne & Hgrid & Hrect).
  destruct (pointlist2rectangle_spec grp Hne)
    as (t & l & b & rr & Heq & [Ht Htle] & [Hl Hlle] & [Hb Hble] & [Hrr Hrle]).
  rewrite Hrect in Heq. injection Heq as ->.
  assert (∀ p, p ∈ grp → contains (make_rectangle t l b rr) p = true) as Hin.
  { intros p Hp. by eapply pointlist2rectangle_contains. }
  apply list_elem_of_fmap in Ht as (pt & -> & Hpt).
  apply list_elem_of_fmap in Hl as (pl & -> & Hpl).
  apply list_elem_of_fmap in Hb as (pb & -> & Hpb).
  apply list_elem_of_fmap in Hrr as (pr & -> & Hpr).
  split; [apply make_rectangle_derived_ok |].
  pose proof (Hin _ Hpt) as Hct. pose proof (Hin _ Hpb) as Hcb.
  pose proof (Hin _ Hpl) as Hcl. pose proof (Hin _ Hpr) as Hcr.
  destruct pt as [pt1 pt2], pb as [pb1 pb2], pl as [pl1 pl2], pr as [pr1 pr2].
  pose proof (proj1 (contains_spec _ _ _) Hct) as Ht'.
  pose proof (proj1 (contains_spec _ _ _) Hcl) as Hl'.
  split; [split; simpl in *; lia |].
  split.
  { destruct (StrawberryField_init_spec maximum data)
      as (_ & _ & _ & _ & _ & _ & _ & _ & _ & Hocc).
    pose proof (Hocc _ (proj2 (occupied_grid_berry maximum data _)
                          (Hgrid _ Hpt))) as H1.
    pose proof (Hocc _ (proj2 (occupied_grid_berry maximum data _)
                          (Hgrid _ Hpl))) as H2.
    pose proof (Hocc _ (proj2 (occupied_grid_berry maximum data _)
                          (Hgrid _ Hpb))) as H3.
    pose proof (Hocc _ (proj2 (occupied_grid_berry maximum data _)
                          (Hgrid _ Hpr))) as H4.
    unfold encloses. simpl in *. lia. }
  split; [exists (pt1, pt2); split; [by apply Hgrid | done] |].
  split; [exists (pl1, pl2); split; [by apply Hgrid | done] |].
  split; [exists (pb1, pb2); split; [by apply Hgrid | done] |].
  exists (pr1, pr2). split; [by apply Hgrid | done].
Qed.

Lemma start_state_rectangles_hug_berries_witness :
  let r := make_rectangle 0 2 0 2 in
  derived_ok r ∧ well_formed r ∧
  encloses (root_region (StrawberryField_init 1 ["@.@"%string])) r ∧
  (∃ p, grid_berry ["@.@"%string] p ∧ contains r p = true ∧ p.1 = rtop r) ∧
  (∃ p, grid_berry ["@.@"%string] p ∧ contains r p = true ∧ p.2 = rleft r) ∧
  (∃ p, grid_berry ["@.@"%string] p ∧ contains r p = true ∧ p.1 = rbottom r) ∧
  (∃ p, grid_berry ["@.@"%string] p ∧ contains r p = true ∧ p.2 = rright r).
Proof.
  apply (start_state_rectangles_hug_berries (G := nat) 0%nat 2%nat 1
           ["@.@"%string]
           [make_rectangle 0 2 0 2; make_rectangle 0 0 0 0]).
  - vm_compute. reflexivity.
  - left.
Defined.

(** ** The empty field, and more on merges *)

Section total_facts.
Context {G : Type} `{!RandomSource G}.

(** [get_start_state] returns on every constructed field. *)
Lemma get_start_state_total (g : G) (maximum : Z) (data : list string) :
  ∃ state g',
    get_start_state g (StrawberryField_init maximum data) = Some (state, g').
Proof.
  unfold get_start_state.
  destruct (vertical_runs_ok maximum data) as (vr & vrects & E1 & E2 & Hv0).
  rewrite E1. cbn [mbind option_bind]. rewrite E2. cbn [mbind option_bind].
  destruct (assign_open_greenhouses_ok maximum data vrects Hv0)
    as (v1 & E3 & Hv1).
  rewrite E3. cbn [mbind option_bind].
  destruct (combine_and_maintain_density_ok maximum data g v1 Hv1)
    as (v2 & g1 & E4 & Hv2).
  rewrite E4. cbn [mbind option_bind].
  destruct (horizontal_runs_ok maximum data) as (hr & hrects & E5 & E6 & Hh0).
  rewrite E5. cbn [mbind option_bind]. rewrite E6. cbn [mbind option_bind].
  destruct (assign_open_greenhouses_ok maximum data hrects Hh0)
    as (h1 & E7 & Hh1).
  rewrite E7. cbn [mbind option_bind].
  destruct (combine_and_maintain_density_ok maximum data g1 h1 Hh1)
    as (h2 & g2 & E8 & Hh2).
  rewrite E8. cbn [mbind option_bind].
  destruct (list_berries_spec maximum data h2) as (bh & E9 & Hbh).
  rewrite E9. cbn [mbind option_bind].
  destruct (list_berries_spec maximum data v2) as (bv & E10 & Hbv).
  rewrite E10. cbn [mbind option_bind].
  set (hb := (λ berry, (berry, _get_rect_id berry h2)) <$> bh).
  set (vb := (λ berry, (berry, _get_rect_id berry v2)) <$> bv).
  set (mix0 := foldl (λ mix '(berry, idx), <[berry := [idx]]> mix) ∅ hb).
  destruct (mix_append_ok vb mix0) as (mix & E11 & Hmix).
  { intros b. unfold vb. rewrite <- list_fmap_compose, list_fmap_id.
    intros Hb. unfold mix0. rewrite mix_init_spec. right.
    unfold hb. rewrite <- list_fmap_compose, list_fmap_id.
    by apply Hbh, Hbv. }
  rewrite E11. cbn [mbind option_bind].
  destruct (mirror_fold_spec (map_to_list mix) ∅)
    as (Hne & _ & _); [by intros k grp; rewrite lookup_empty |].
  destruct (mapM_groups _ Hne) as (state & E12 & _).
  rewrite E12. cbn [mbind option_bind]. by eexists _, _.
Qed.

Lemma empty_set_keeps_maxsize gl base ps st st' brk :
  pairs_loop gl base ps st = Some (st', brk) →
  (st.2 = ∅ → st.1 = sys_maxsize) → (st'.2 = ∅ → st'.1 = sys_maxsize).
Proof.
  revert st. induction ps as [| [h1 h2] ps IH]; intros [best succs].
  { by intros [= <- <-]. }
  cbn [pairs_loop].
  destruct (count_overlaps gl (merge_rectangles h1 h2) =? 2); [| apply IH].
  destruct (list_remove h1 gl) as [s1 |]; [| done]. cbn [mbind option_bind].
  destruct (list_remove h2 s1) as [s2 |]; [| done]. cbn [mbind option_bind].
  destruct (_ <? best).
  { intros Heq _. apply (IH _ Heq). cbn [fst snd]. intros Hempty.
    exfalso. eapply (non_empty_singleton_L (C := gset (gset Rectangle))).
    exact Hempty. }
  destruct (_ =? best); [| apply IH].
  destruct (MAX_SUCCESSORS <=? size _)%nat.
  - intros [= <- <-] _. cbn [fst snd]. intros Hempty. exfalso.
    apply (union_positive_l_L (C := gset (gset Rectangle))) in Hempty.
    by eapply (non_empty_singleton_L (C := gset (gset Rectangle))).
  - intros Heq _. apply (IH _ Heq). cbn [fst snd]. intros Hempty.
    exfalso.
    apply (union_positive_l_L (C := gset (gset Rectangle))) in Hempty.
    by eapply (non_empty_singleton_L (C := gset (gset Rectangle))).
Qed.

Lemma empty_round_keeps_maxsize (g : G) partitions st st' partitions' g' :
  partitions_loop g partitions st = Some (st', partitions', g') →
  (st.2 = ∅ → st.1 = sys_maxsize) → (st'.2 = ∅ → st'.1 = sys_maxsize).
Proof.
  revert g st partitions'.
  induction partitions as [| P partitions IH]; intros g st partitions'.
  { by intros [= <- <- <-]. }
  cbn [partitions_loop].
  destruct (MAX_SUCCESSORS <=? size st.2)%nat; [by intros [= <- <- <-] |].
  destruct (shuffle g P) as [gl g1].
  destruct (pairs_loop gl (get_score P) (combinations2 gl) st)
    as [[st1 brk] |] eqn:Hpairs; [| done].
  cbn [mbind option_bind].
  destruct (partitions_loop g1 partitions st1)
    as [[[st2 parts2] g2] |] eqn:Hrest; [| done].
  cbn [mbind option_bind]. intros [= <- <- <-] Hst.
  eapply IH; [exact Hrest |]. by eapply empty_set_keeps_maxsize.
Qed.
End total_facts.

(** X10: a grid without berries, with a budget and a goal that are not
    negative: the initial partition is empty, [agglomerate] answers with
    the empty partition, and its score is [0]. *)
Theorem empty_field_has_empty_solution
    {G : Type} `{!RandomSource G} (g : G)
    (maximum goal : Z) (data : list string)
    (Hempty : ∀ p, ¬ grid_berry data p)
    (Hmax : 0 <= maximum) (Hgoal : 0 <= goal) :
  let field := StrawberryField_init maximum data in
  ∃ g',
    get_start_state g field = Some ([], g') ∧
    agglomerate g' field [] goal = Some ([Some []], g') ∧
    get_score [] = 0.
Proof.
  intros field.
  destruct (get_start_state_total g maximum data) as (state & g' & Heq).
  assert (state = []) as ->.
  { destruct state as [| r state]; [done |].
    destruct (start_state_groups maximum data g (r :: state) g' r Heq)
      as (grp & Hne & Hgrid & _); [left |].
    destruct grp as [| p grp]; [done |].
    destruct (Hempty p). apply Hgrid. left. }
  exists g'. split; [exact Heq |]. split; [| done].
  unfold agglomerate. cbn [agglomerate_loop length].
  change (Z.of_nat 0) with 0.
  rewrite (proj2 (Z.leb_le _ _) Hgoal). cbn [mbind option_bind].
  unfold store, BestSolution_init, solution. cbn [_score length].
  change (Z.of_nat 0) with 0.
  destruct (StrawberryField_init_spec maximum data) as (_ & _ & Hm & _).
  fold field in Hm. rewrite Hm.
  rewrite (proj2 (Z.leb_le 0 maximum) Hmax). done.
Qed.

Lemma empty_field_has_empty_solution_witness :
  let field := StrawberryField_init 4 ["..."%string; "."%string] in
  ∃ g',
    get_start_state (G := nat) 0%nat field = Some ([], g') ∧
    agglomerate g' field [] 2 = Some ([Some []], g') ∧
    get_score [] = 0.
Proof.
  apply (empty_field_has_empty_solution (G := nat) 0%nat 4 2
           ["..."%string; "."%string]); [| lia | lia].
  intros p (i & k & row & _ & Hrow & Hk).
  destruct i as [| [| i]]; simpl in Hrow; [| | done];
    injection Hrow as <-;
    repeat (destruct k as [| k]; simpl in Hk; [discriminate Hk |]);
    discriminate Hk.
Defined.

(** X16: a round returns no successor only if no candidate partition has
    a valid merge of score below [sys.maxsize]; and if it returns a
    successor, some candidate has a valid merge.  So the search stops for
    lack of successors exactly when it is stuck. *)
Theorem no_successor_means_no_valid_merge
    {G : Type} `{!RandomSource G} (g : G) (partitions : list (list Rectangle)) :
  ∃ best result partitions' g',
    successors_by_agglomeration g partitions =
      Some (best, result, partitions', g') ∧
    (result = [] →
     best = sys_maxsize ∧
     ∀ P h1 h2 rest, P ∈ partitions → valid_merge P h1 h2 rest →
                     sys_maxsize <= merge_score P h1 h2) ∧
    (result ≠ [] →
     ∃ P h1 h2 rest, P ∈ partitions ∧ valid_merge P h1 h2 rest ∧
                     merge_score P h1 h2 = best).
Proof.
  destruct (successors_by_agglomeration_inv g partitions)
    as (best & result & parts & g' & Heq & Hlen & _ & _ & _ & Hfrom & Hmin).
  exists best, result, parts, g'. split; [done |]. split.
  - intros ->.
    assert (best = sys_maxsize) as ->.
    { revert Heq. unfold successors_by_agglomeration.
      destruct (partitions_loop g partitions (sys_maxsize, ∅))
        as [[[[best' succs] parts'] g1] |] eqn:Hloop; [| done].
      cbn [mbind option_bind].
      pose proof (empty_round_keeps_maxsize _ _ _ _ _ _ Hloop) as Hkeep.
      cbn [fst snd] in Hkeep.
      destruct (MAX_SUCCESSORS <? length (elements <$> elements succs))%nat
        eqn:E.
      - destruct (sample g1 _ MAX_SUCCESSORS) as [sampled g2] eqn:Hs.
        intros [= <- -> <- <-].
        pose proof (sample_spec g1 (elements <$> elements succs)
                      MAX_SUCCESSORS) as Hspec.
        rewrite Hs in Hspec. cbn [fst] in Hspec.
        apply Nat.ltb_lt in E. destruct Hspec as [Hl _]; [lia |].
        simpl in Hl. unfold MAX_SUCCESSORS in Hl. lia.
      - intros [= <- Hres <- <-]. apply Hkeep; [done |].
        apply fmap_nil_inv in Hres.
        apply elements_empty_inv in Hres. by apply leibniz_equiv. }
    split; [done |]. apply Hmin. simpl. unfold MAX_SUCCESSORS. lia.
  - intros Hne. destruct result as [| s result]; [done |].
    destruct (Hfrom s) as [_ (P & h1 & h2 & rest & HP & Hv & _ & Hs)]; [left |].
    by exists P, h1, h2, rest.
Qed.

Lemma no_successor_means_no_valid_merge_witness :
  ∃ best result partitions' g',
    successors_by_agglomeration (G := nat) 0%nat [adjacent_pair] =
      Some (best, result, partitions', g') ∧
    (result = [] →
     best = sys_maxsize ∧
     ∀ P h1 h2 rest, P ∈ [adjacent_pair] → valid_merge P h1 h2 rest →
                     sys_maxsize <= merge_score P h1 h2) ∧
    (result ≠ [] →
     ∃ P h1 h2 rest, P ∈ [adjacent_pair] ∧ valid_merge P h1 h2 rest ∧
                     merge_score P h1 h2 = best).
Proof.
  apply (no_successor_means_no_valid_merge (G := nat) 0%nat [adjacent_pair]).
Defined.

(** X15: [merge] is associative.  For rectangles that are not empty and
    whose area and cost follow from their bounds, merging never shrinks:
    the merge has at least the area and the cost of each argument, so a
    merge step of the search lowers the score by no more than the cost of
    the cheaper of the two merged rectangles. *)
Theorem merge_associative_and_monotone (a b c : Rectangle) (P : list Rectangle)
    (Da : derived_ok a) (Db : derived_ok b)
    (Wa : well_formed a) (Wb : well_formed b) :
  merge (merge a b) c = merge a (merge b c) ∧
  rarea a <= rarea (merge a b) ∧ rarea b <= rarea (merge a b) ∧
  rcost a <= rcost (merge a b) ∧ rcost b <= rcost (merge a b) ∧
  get_score P - Z.min (rcost a) (rcost b) <= merge_score P a b.
Proof.
  assert (rarea a <= rarea (merge a b) ∧ rarea b <= rarea (merge a b))
    as [Ha Hb].
  { destruct Da as [Da _], Db as [Db _], Wa as [Wa1 Wa2], Wb as [Wb1 Wb2].
    destruct (merge_derived_ok a b) as [-> _]. rewrite Da, Db.
    rewrite merge_top, merge_left, merge_bottom, merge_right.
    split; apply Z.mul_le_mono_nonneg; lia. }
  assert (rcost (merge a b) = rarea (merge a b) + 10) as Hc
    by apply merge_derived_ok.
  destruct Da as [_ Da], Db as [_ Db].
  split.
  { apply derived_ok_eq; try apply merge_derived_ok;
      rewrite ?merge_top, ?merge_left, ?merge_bottom, ?merge_right; lia. }
  split; [done |]. split; [done |]. split; [lia |]. split; [lia |].
  unfold merge_score, merge_rectangles. lia.
Qed.

Lemma merge_associative_and_monotone_witness :
  let a := make_rectangle 0 2 3 4 in
  let b := make_rectangle 1 3 4 5 in
  let c := make_rectangle 7 7 8 8 in
  merge (merge a b) c = merge a (merge b c) ∧
  rarea a <= rarea (merge a b) ∧ rarea b <= rarea (merge a b) ∧
  rcost a <= rcost (merge a b) ∧ rcost b <= rcost (merge a b) ∧
  get_score [a; b; c] - Z.min (rcost a) (rcost b) <= merge_score [a; b; c] a b.
Proof.
  apply (merge_associative_and_monotone (make_rectangle 0 2 3 4)
           (make_rectangle 1 3 4 5) (make_rectangle 7 7 8 8));
    first [apply make_rectangle_derived_ok
          | unfold well_formed; simpl; lia].
Defined.

(** ** The result cache *)

Section memoize_facts.
Context {K V : Type} `{Countable K}.
Implicit Types (self : @Memoize K V _ _) (args : K).

Lemma Memoize_call_spec self args :
  cache_consistent self →
  Memoize_call self args =
    (func self args,
     {| func := func self;
        memoized := <[args := func self args]> (memoized self) |}) ∧
  cache_consistent
    {| func := func self;
       memoized := <[args := func self args]> (memoized self) |}.
Proof.
  intros Hc. split.
  - unfold Memoize_call, cache_get.
    destruct (memoized self !! args) as [v |] eqn:E; [| done].
    rewrite (Hc _ _ E) in E |- *. by rewrite insert_id.
  - intros k v. cbn [memoized func].
    rewrite lookup_insert_Some. intros [[<- <-] | [_ Hk]]; [done |].
    by apply Hc.
Qed.

Lemma Memoize_calls_spec self calls :
  cache_consistent self →
  ∃ final,
    Memoize_calls self calls = (func self <$> calls, final) ∧
    func final = func self ∧ cache_consistent final ∧
    ∀ k, memoized final !! k =
         if decide (k ∈ calls) then Some (func self k)
         else memoized self !! k.
Proof.
  revert self. induction calls as [| args calls IH]; intros self Hc.
  { exists self. split; [done |]. split; [done |]. split; [done |].
    intros k. rewrite decide_False; [done | by intros ?%elem_of_nil]. }
  destruct (Memoize_call_spec self args Hc) as [Hcall Hc'].
  destruct (IH _ Hc') as (final & Hcalls & Hf & Hcf & Hm).
  exists final. cbn [Memoize_calls]. rewrite Hcall, Hcalls.
  cbn [func] in *. split; [done |]. split; [done |]. split; [done |].
  intros k. rewrite Hm. cbn [memoized].
  destruct (decide (k ∈ calls)) as [Hin | Hin].
  - rewrite decide_True; [done | by right].
  - destruct (decide (k = args)) as [-> | Hne].
    + rewrite decide_True by left. by rewrite lookup_insert_eq.
    + rewrite decide_False by (by intros [? | ?]%elem_of_cons).
      by rewrite lookup_insert_ne.
Qed.
End memoize_facts.

Section memoize_method_facts.
Context {O K V : Type} `{Countable O} `{Countable K}.
Implicit Types (self : @MemoizeMethod O K V _ _ _ _).

Lemma Memoize_method_call_spec self obj args :
  method_cache_consistent self →
  ∃ self',
    Memoize_method_call self obj args = (mfunc self obj args, self') ∧
    mfunc self' = mfunc self ∧ method_cache_consistent self'.
Proof.
  intros Hc. unfold Memoize_method_call, cache_get.
  destruct (method_cache self !! obj) as [w |] eqn:E.
  - destruct (Hc _ _ E) as [Hf Hw].
    destruct (Memoize_call_spec w args Hw) as [-> Hw'].
    eexists. rewrite Hf. split; [done |]. split; [done |].
    intros o w'. cbn [method_cache mfunc].
    rewrite lookup_insert_Some. intros [[<- <-] | [_ Ho]]; [| by apply Hc].
    split; [by cbn [func] | by rewrite <- Hf].
  - assert (cache_consistent (Memoize_init (mfunc self obj))) as Hw
      by (by intros k v).
    destruct (Memoize_call_spec _ args Hw) as [-> Hw'].
    eexists. cbn [func Memoize_init]. split; [done |]. split; [done |].
    intros o w'. cbn [method_cache mfunc].
    rewrite lookup_insert_Some. intros [[<- <-] | [Hne Ho]].
    + done.
    + rewrite lookup_insert_ne in Ho by done. by apply Hc.
Qed.

Lemma Memoize_method_calls_spec self calls :
  method_cache_consistent self →
  ∃ self',
    Memoize_method_calls self calls =
      ((λ call, mfunc self call.1 call.2) <$> calls, self') ∧
    mfunc self' = mfunc self ∧ method_cache_consistent self'.
Proof.
  revert self. induction calls as [| [obj args] calls IH]; intros self Hc.
  { by exists self. }
  destruct (Memoize_method_call_spec self obj args Hc)
    as (self1 & Hcall & Hf1 & Hc1).
  destruct (IH self1 Hc1) as (self' & Hcalls & Hf' & Hc').
  exists self'. cbn [Memoize_method_calls]. rewrite Hcall, Hcalls, Hf1.
  split; [done |]. split; [congruence | done].
Qed.
End memoize_method_facts.

(** X12: calls through a fresh [Memoize] object return what the wrapped
    function returns, in any sequence and with any repetition; afterwards
    the cache holds exactly the arguments seen, each with the function's
    result.  A later call with an argument already seen returns the
    stored result without consulting the function (it returns the same
    even if the object's function were replaced). *)
Theorem memoized_function_agrees
    {K V : Type} `{Countable K} (f g : K → V) (calls : list K) :
  ∃ final : @Memoize K V _ _,
    Memoize_calls (Memoize_init f) calls = (f <$> calls, final) ∧
    func final = f ∧
    (∀ k, memoized final !! k =
          if decide (k ∈ calls) then Some (f k) else None) ∧
    (∀ k, k ∈ calls →
          (Memoize_call {| func := g; memoized := memoized final |} k).1
            = f k).
Proof.
  destruct (Memoize_calls_spec (Memoize_init f) calls)
    as (final & Heq & Hf & _ & Hm); [by intros k v |].
  exists final. split; [done |]. split; [done |]. split.
  - intros k. rewrite Hm. cbn [Memoize_init memoized func].
    by rewrite lookup_empty.
  - intros k Hk. unfold Memoize_call, cache_get. cbn [memoized func].
    rewrite Hm, decide_True by done. done.
Qed.

Lemma memoized_function_agrees_witness :
  ∃ final : @Memoize Z Z _ _,
    Memoize_calls (Memoize_init Z.succ) [3; 5; 3] =
      (Z.succ <$> [3; 5; 3], final) ∧
    func final = Z.succ ∧
    (∀ k, memoized final !! k =
          if decide (k ∈ [3; 5; 3]) then Some (Z.succ k) else None) ∧
    (∀ k, k ∈ [3; 5; 3] →
          (Memoize_call {| func := Z.pred; memoized := memoized final |} k).1
            = Z.succ k).
Proof. apply (memoized_function_agrees Z.succ Z.pred [3; 5; 3]). Defined.

(** ** The method cache *)

Section memoize_method_exact.
Context {O K V : Type} `{Countable O} `{Countable K}.
Implicit Types (self : @MemoizeMethod O K V _ _ _ _).

(** The results stored for an object: those of its wrapper, none when the
    object has no wrapper. *)
Let stored self (o : O) : gmap K V :=
  default ∅ (memoized <$> method_cache self !! o).

(** One call stores the wrapper of the object, with the result added. *)
Lemma Memoize_method_call_exact self obj args :
  method_cache_consistent self →
  Memoize_method_call self obj args =
    (mfunc self obj args,
     {| mfunc := mfunc self;
        method_cache :=
          <[obj := {| func := mfunc self obj;
                      memoized := <[args := mfunc self obj args]>
                                    (stored self obj) |}]>
            (method_cache self) |}).
Proof.
  intros Hc. unfold Memoize_method_call, cache_get, stored.
  destruct (method_cache self !! obj) as [w |] eqn:E.
  - destruct (Hc _ _ E) as [Hf Hw].
    destruct (Memoize_call_spec w args Hw) as [-> _].
    by rewrite Hf.
  - assert (cache_consistent (Memoize_init (mfunc self obj))) as Hw
      by (by intros k v).
    destruct (Memoize_call_spec _ args Hw) as [-> _].
    cbn [func memoized Memoize_init default fmap option_fmap option_map].
    by rewrite insert_insert_eq.
Qed.

Lemma Memoize_method_calls_exact self calls :
  method_cache_consistent self →
  ∃ self',
    Memoize_method_calls self calls =
      ((λ call, mfunc self call.1 call.2) <$> calls, self') ∧
    mfunc self' = mfunc self ∧ method_cache_consistent self' ∧
    (∀ o, is_Some (method_cache self' !! o) ↔
          o ∈ calls.*1 ∨ is_Some (method_cache self !! o)) ∧
    (∀ o k, stored self' o !! k =
            if decide ((o, k) ∈ calls) then Some (mfunc self o k)
            else stored self o !! k).
Proof.
  revert self. induction calls as [| [obj args] calls IH]; intros self Hc.
  { exists self. split; [done |]. split; [done |]. split; [done |]. split.
    - intros o. rewrite fmap_nil, elem_of_nil. tauto.
    - intros o k. rewrite decide_False; [done | by intros ?%elem_of_nil]. }
  pose proof (Memoize_method_call_exact self obj args Hc) as Hcall.
  destruct (Memoize_method_call_spec self obj args Hc)
    as (self1 & Hcall' & Hf1 & Hc1).
  rewrite Hcall in Hcall'. injection Hcall' as Hself1.
  destruct (IH self1 Hc1) as (self' & Hcalls & Hf' & Hc' & Hdom & Hsto).
  exists self'. cbn [Memoize_method_calls].
  rewrite Hcall, Hself1, Hcalls, Hf1.
  split; [done |]. split; [congruence |]. split; [done |]. split.
  - intros o. rewrite Hdom, <- Hself1. cbn [method_cache].
    rewrite fmap_cons, elem_of_cons. cbn [fst].
    destruct (decide (o = obj)) as [-> | Hne].
    + rewrite lookup_insert_eq. split; [intros _; by left; left |].
      intros _. by right.
    + rewrite lookup_insert_ne by done. tauto.
  - intros o k. rewrite Hsto, Hf1.
    destruct (decide ((o, k) ∈ calls)) as [Hin | Hin].
    { rewrite decide_True; [done | by right]. }
    unfold stored at 1. rewrite <- Hself1. cbn [method_cache].
    destruct (decide (o = obj)) as [-> | Hne].
    + rewrite (lookup_insert_eq (method_cache self)).
      cbn [fmap option_fmap option_map default from_option memoized id].
      destruct (decide (k = args)) as [-> | Hne].
      * rewrite lookup_insert_eq. rewrite decide_True; [done | left].
      * rewrite lookup_insert_ne by done.
        rewrite decide_False; [done |].
        intros [? | ?]%elem_of_cons; [congruence | done].
    + rewrite (lookup_insert_ne (method_cache self)) by done.
      rewrite decide_False; [done |].
      intros [? | ?]%elem_of_cons; [congruence | done].
Qed.

(** After calls from an empty method cache. *)
Lemma fresh_method_cache (method : O → K → V) (calls : list (O * K)) :
  ∃ final,
    Memoize_method_calls {| mfunc := method; method_cache := ∅ |} calls =
      ((λ call, method call.1 call.2) <$> calls, final) ∧
    mfunc final = method ∧
    (∀ o, is_Some (method_cache final !! o) ↔ o ∈ calls.*1) ∧
    (∀ o w, method_cache final !! o = Some w →
       func w = method o ∧
       ∀ k, memoized w !! k =
            if decide ((o, k) ∈ calls) then Some (method o k) else None).
Proof.
  destruct (Memoize_method_calls_exact
              {| mfunc := method; method_cache := ∅ |} calls)
    as (final & Heq & Hf & Hc & Hdom & Hsto).
  { intros o w. cbn [method_cache]. by rewrite lookup_empty. }
  cbn [mfunc method_cache] in *.
  exists final. split; [done |]. split; [done |]. split.
  - intros o. rewrite Hdom, lookup_empty. split; [| by left].
    intros [? | []%is_Some_None]. done.
  - intros o w Hw. destruct (Hc o w Hw) as [Hfw _].
    rewrite Hf in Hfw. split; [done |].
    intros k. specialize (Hsto o k). unfold stored in Hsto.
    cbn [method_cache] in Hsto. rewrite Hw, lookup_empty in Hsto.
    cbn [fmap option_fmap option_map default from_option id] in Hsto.
    rewrite Hsto. by rewrite lookup_empty.
Qed.
End memoize_method_exact.

(** X13: calls of a decorated method, on any objects and in any
    sequence, starting with an empty method cache, return what the method
    returns.  Afterwards the method cache holds a wrapper for exactly the
    objects used; the wrapper of an object wraps the method bound to that
    object and stores exactly the arguments the object was called with,
    each with the method's result.  A further call on an object and an
    argument already seen is answered from the stored wrapper without
    consulting the decorated function (the answer is the same even if that
    function were replaced). *)
Theorem memoized_method_agrees
    {O K V : Type} `{Countable O} `{Countable K}
    (method g : O → K → V) (calls : list (O * K)) :
  ∃ final,
    Memoize_method_calls {| mfunc := method; method_cache := ∅ |} calls =
      ((λ call, method call.1 call.2) <$> calls, final) ∧
    mfunc final = method ∧
    (∀ o, is_Some (method_cache final !! o) ↔ o ∈ calls.*1) ∧
    (∀ o w, method_cache final !! o = Some w →
       func w = method o ∧
       ∀ k, memoized w !! k =
            if decide ((o, k) ∈ calls) then Some (method o k) else None) ∧
    (∀ o k, (o, k) ∈ calls →
       (Memoize_method_call
          {| mfunc := g; method_cache := method_cache final |} o k).1
       = method o k).
Proof.
  destruct (fresh_method_cache method calls)
    as (final & Heq & Hf & Hdom & Hw).
  exists final. split; [done |]. split; [done |]. split; [done |].
  split; [done |].
  intros o k Hin.
  assert (o ∈ calls.*1) as Ho.
  { apply list_elem_of_fmap. by exists (o, k). }
  apply Hdom in Ho as [w Hlook].
  destruct (Hw o w Hlook) as [_ Hmem]. specialize (Hmem k).
  rewrite decide_True in Hmem by done.
  unfold Memoize_method_call, cache_get. cbn [method_cache mfunc].
  rewrite Hlook. unfold Memoize_call, cache_get. by rewrite Hmem.
Qed.

Lemma memoized_method_agrees_witness :
  ∃ final,
    Memoize_method_calls {| mfunc := Z.add; method_cache := ∅ |}
      [(1, 2); (1, 2); (4, 2)] =
      ((λ call, Z.add call.1 call.2) <$> [(1, 2); (1, 2); (4, 2)], final) ∧
    mfunc final = Z.add ∧
    (∀ o, is_Some (method_cache final !! o) ↔
          o ∈ [(1, 2); (1, 2); (4, 2)].*1) ∧
    (∀ o w, method_cache final !! o = Some w →
       func w = Z.add o ∧
       ∀ k, memoized w !! k =
            if decide ((o, k) ∈ [(1, 2); (1, 2); (4, 2)])
            then Some (Z.add o k) else None) ∧
    (∀ o k, (o, k) ∈ [(1, 2); (1, 2); (4, 2)] →
       (Memoize_method_call
          {| mfunc := Z.mul; method_cache := method_cache final |} o k).1
       = Z.add o k).
Proof.
  apply (memoized_method_agrees Z.add Z.mul [(1, 2); (1, 2); (4, 2)]).
Defined.

(** ** The greenhouses of a partition *)

Section greenhouse_facts.
Variables (maximum : Z) (data : list string).
Let f := StrawberryField_init maximum data.

(** The two outcomes of [feasible_region] on a rectangle whose rows can be
    indexed. *)
Lemma feasible_region_cases rect :
  in_rows f rect →
  (feasible_region f (Some rect) = Some None ∧
   ∀ p, grid_berry data p → contains rect p = false) ∨
  (∃ gh, feasible_region f (Some rect) = Some (Some gh) ∧
         derived_ok gh ∧ well_formed gh ∧ encloses rect gh ∧
         (∀ p, grid_berry data p → contains rect p = true →
               contains gh p = true) ∧
         (∃ p, grid_berry data p ∧ contains gh p = true)).
Proof.
  intros Hrows.
  destruct (get_berries_spec maximum data rect Hrows)
    as (berries & Heq & Hmem). fold f in Heq, Hmem.
  assert (∀ p, p ∈ berries ↔ grid_berry data p ∧ contains rect p = true)
    as Hmem'.
  { intros p. rewrite Hmem. unfold f. by rewrite occupied_grid_berry. }
  unfold feasible_region. rewrite Heq. cbn [mbind option_bind].
  destruct berries as [| b0 bs].
  { left. split; [done |]. intros p Hg.
    destruct (contains rect p) eqn:E; [| done].
    assert (p ∈ []) as []%elem_of_nil by (by apply Hmem'). }
  right. set (berries := b0 :: bs) in *.
  destruct (py_min_spec (berries.*1)) as (t & Ht & Htin & Htle); [done |].
  destruct (py_min_spec (berries.*2)) as (l & Hl & Hlin & Hlle); [done |].
  destruct (py_max_spec (berries.*1)) as (b & Hb & Hbin & Hble); [done |].
  destruct (py_max_spec (berries.*2)) as (r & Hr & Hrin & Hrle); [done |].
  rewrite Ht, Hl, Hb, Hr. cbn [mbind option_bind].
  exists (make_rectangle t l b r). split; [done |].
  split; [apply make_rectangle_derived_ok |].
  assert (∀ pr pc, (pr, pc) ∈ berries → t <= pr <= b ∧ l <= pc <= r) as Hbox.
  { intros pr pc Hin.
    assert (pr ∈ berries.*1) as Hpr
      by (apply list_elem_of_fmap; by exists (pr, pc)).
    assert (pc ∈ berries.*2) as Hpc
      by (apply list_elem_of_fmap; by exists (pr, pc)).
    pose proof (Htle pr Hpr). pose proof (Hble pr Hpr).
    pose proof (Hlle pc Hpc). pose proof (Hrle pc Hpc). lia. }
  apply list_elem_of_fmap in Htin as ([tr tc] & -> & Htp).
  apply list_elem_of_fmap in Hlin as ([lr lc] & -> & Hlp).
  apply list_elem_of_fmap in Hbin as ([br bc] & -> & Hbp).
  apply list_elem_of_fmap in Hrin as ([rr rc] & -> & Hrp).
  pose proof (proj1 (Hmem' _) Htp) as [Htg Htc].
  pose proof (proj1 (Hmem' _) Hlp) as [_ Hlc].
  pose proof (proj1 (Hmem' _) Hbp) as [_ Hbc].
  pose proof (proj1 (Hmem' _) Hrp) as [_ Hrc].
  pose proof (Hbox _ _ Htp) as Hbt. cbn [fst snd] in *.
  split; [unfold well_formed; simpl; lia |].
  split.
  { apply contains_spec in Htc, Hlc, Hbc, Hrc.
    unfold encloses; simpl in *. lia. }
  split.
  { intros [pr pc] Hg Hc. apply contains_spec; simpl.
    apply Hbox. by apply Hmem'. }
  exists (tr, tc). split; [done |]. apply contains_spec; simpl. lia.
Qed.

(** The loop of [greenhouses] on rectangles whose rows can be indexed. *)
Lemma greenhouses_loop_spec partition ghs :
  (∀ r, r ∈ partition → in_rows f r) →
  ∃ new, greenhouses_loop f partition ghs = Some (ghs ++ new) ∧
    (length new <= length partition)%nat ∧
    (∀ gh, gh ∈ new →
       derived_ok gh ∧ well_formed gh ∧
       (∃ p, grid_berry data p ∧ contains gh p = true) ∧
       ∃ r, r ∈ partition ∧ encloses r gh) ∧
    (∀ r p, r ∈ partition → grid_berry data p → contains r p = true →
       ∃ gh, gh ∈ new ∧ encloses r gh ∧ contains gh p = true) ∧
    ((∀ r, r ∈ partition → derived_ok r ∧ well_formed r) →
     get_score new <= get_score partition).
Proof.
  revert ghs. induction partition as [| rect rest IH]; intros ghs Hrows.
  { exists []. rewrite app_nil_r. split; [done |]. split; [done |].
    split; [by intros gh ?%elem_of_nil |].
    split; [by intros r p ?%elem_of_nil | done]. }
  assert (∀ r, r ∈ rest → in_rows f r) as Hrest
    by (intros r Hr; apply Hrows; by right).
  cbn [greenhouses_loop].
  assert (in_rows f rect) as Hrect by (apply Hrows; left).
  destruct (feasible_region_cases rect Hrect) as
    [[-> Hno] | (gh & -> & Dgh & Wgh & Egh & Hcov & Hberry)];
    cbn [mbind option_bind].
  - destruct (IH ghs Hrest) as (new & -> & Hlen & Hnew & Hkeep & Hscore).
    exists new. split; [done |]. split; [simpl; lia |]. split.
    { intros gh Hgh. destruct (Hnew gh Hgh) as (? & ? & ? & r & Hr & ?).
      do 3 (split; [done |]). exists r. split; [by right | done]. }
    split.
    { intros r p [-> | Hr]%elem_of_cons Hg Hc; [| by apply Hkeep].
      by rewrite (Hno p Hg) in Hc. }
    intros Hok. rewrite get_score_cons.
    assert (get_score new <= get_score rest)
      by (apply Hscore; intros r Hr; apply Hok; by right).
    destruct (Hok rect) as [[Ha Hc] [W1 W2]]; [left |].
    assert (0 <= rarea rect) by (rewrite Ha; apply Z.mul_nonneg_nonneg; lia).
    lia.
  - destruct (IH (ghs ++ [gh]) Hrest)
      as (new & -> & Hlen & Hnew & Hkeep & Hscore).
    exists (gh :: new). split; [by rewrite <- app_assoc |].
    split; [simpl; lia |]. split.
    { intros gh' [-> | Hgh]%elem_of_cons.
      - do 3 (split; [done |]). exists rect. split; [left | done].
      - destruct (Hnew gh' Hgh) as (? & ? & ? & r & Hr & ?).
        do 3 (split; [done |]). exists r. split; [by right | done]. }
    split.
    { intros r p [-> | Hr]%elem_of_cons Hg Hc.
      - exists gh. split; [left |]. split; [done | by apply Hcov].
      - destruct (Hkeep r p Hr Hg Hc) as (gh' & ? & ?).
        exists gh'. split; [by right | done]. }
    intros Hok. rewrite !get_score_cons.
    assert (get_score new <= get_score rest)
      by (apply Hscore; intros r Hr; apply Hok; by right).
    destruct (Hok rect) as [[Ha Hc] [W1 W2]]; [left |].
    destruct Dgh as [Ha' Hc'], Wgh as [W1' W2'].
    destruct Egh as (E1 & E2 & E3 & E4).
    assert (rarea gh <= rarea rect).
    { rewrite Ha, Ha'. apply Z.mul_le_mono_nonneg; lia. }
    lia.
Qed.
End greenhouse_facts.

(** X14: [greenhouses] on a field built by [__init__] and a partition
    whose rectangles span rows of the field.  It returns a list, no longer
    than the partition.  Every greenhouse of the list holds a berry, lies
    inside a rectangle of the partition, is not empty and has the area
    and cost of its bounds.  Every berry that a rectangle of the partition
    contains is contained in a greenhouse inside that rectangle.  When
    the rectangles of the partition are not empty and carry the area and
    cost of their bounds, the greenhouses together cost no more than the
    partition. *)
Theorem greenhouses_keep_the_berries
    (maximum : Z) (data : list string) (partition : list Rectangle)
    (Hrows : ∀ r, r ∈ partition →
               in_rows (StrawberryField_init maximum data) r) :
  let f := StrawberryField_init maximum data in
  ∃ ghs, greenhouses f partition = Some ghs ∧
    (length ghs <= length partition)%nat ∧
    (∀ gh, gh ∈ ghs →
       derived_ok gh ∧ well_formed gh ∧
       (∃ p, grid_berry data p ∧ contains gh p = true) ∧
       ∃ r, r ∈ partition ∧ encloses r gh) ∧
    (∀ r p, r ∈ partition → grid_berry data p → contains r p = true →
       ∃ gh, gh ∈ ghs ∧ encloses r gh ∧ contains gh p = true) ∧
    ((∀ r, r ∈ partition → derived_ok r ∧ well_formed r) →
     get_score ghs <= get_score partition).
Proof.
  intros f. unfold greenhouses.
  destruct (greenhouses_loop_spec maximum data partition [] Hrows)
    as (new & Heq & Hrest).
  exists new. split; [exact Heq | exact Hrest].
Qed.

Lemma greenhouses_keep_the_berries_witness :
  let data := ["@.@"%string; "..@"%string] in
  let partition := [make_rectangle 0 0 1 1; make_rectangle 1 0 1 1;
                    make_rectangle 0 2 1 5] in
  let f := StrawberryField_init 2 data in
  ∃ ghs, greenhouses f partition = Some ghs ∧
    (length ghs <= length partition)%nat ∧
    (∀ gh, gh ∈ ghs →
       derived_ok gh ∧ well_formed gh ∧
       (∃ p, grid_berry data p ∧ contains gh p = true) ∧
       ∃ r, r ∈ partition ∧ encloses r gh) ∧
    (∀ r p, r ∈ partition → grid_berry data p → contains r p = true →
       ∃ gh, gh ∈ ghs ∧ encloses r gh ∧ contains gh p = true) ∧
    ((∀ r, r ∈ partition → derived_ok r ∧ well_formed r) →
     get_score ghs <= get_score partition).
Proof.
  apply (greenhouses_keep_the_berries 2 ["@.@"%string; "..@"%string]
           [make_rectangle 0 0 1 1; make_rectangle 1 0 1 1;
            make_rectangle 0 2 1 5]).
  intros r Hr _.
  repeat (apply elem_of_cons in Hr as [-> | Hr];
          [vm_compute; split; [discriminate | reflexivity] |]).
  by apply elem_of_nil in Hr.
Defined.

(** ** The text pictures of a field *)

Section text_facts.

Lemma string_app_cons (c : Ascii.ascii) (s1 s2 : string) :
  String c s1 +:+ s2 = String c (s1 +:+ s2).
Proof. reflexivity. Qed.

Lemma string_app_assoc (s1 s2 s3 : string) :
  (s1 +:+ s2) +:+ s3 = s1 +:+ (s2 +:+ s3).
Proof.
  induction s1 as [| c s1 IH]; [done |].
  rewrite !string_app_cons. by f_equal.
Qed.

Lemma string_app_nil_r (s : string) : s +:+ EmptyString = s.
Proof.
  induction s as [| c s IH]; [done |]. rewrite string_app_cons. by f_equal.
Qed.

Lemma string_of_list_ascii_app (l1 l2 : list Ascii.ascii) :
  String.string_of_list_ascii (l1 ++ l2) =
  String.string_of_list_ascii l1 +:+ String.string_of_list_ascii l2.
Proof.
  induction l1 as [| c l1 IH]; [done |]. simpl.
  rewrite string_app_cons. by f_equal.
Qed.

Lemma list_ascii_of_string_app (s1 s2 : string) :
  String.list_ascii_of_string (s1 +:+ s2) =
  String.list_ascii_of_string s1 ++ String.list_ascii_of_string s2.
Proof.
  induction s1 as [| c s1 IH]; [done |]. rewrite string_app_cons. simpl.
  by f_equal.
Qed.

Lemma string_get_of_list (l : list Ascii.ascii) (i : nat) :
  String.get i (String.string_of_list_ascii l) = l !! i.
Proof.
  revert i. induction l as [| c l IH]; intros [| i]; simpl; done.
Qed.

Lemma string_length_of_list (l : list Ascii.ascii) :
  String.length (String.string_of_list_ascii l) = length l.
Proof. induction l as [| c l IH]; [done |]. simpl. by f_equal. Qed.

Lemma string_get_elem_of (s : string) (i : nat) (c : Ascii.ascii) :
  String.get i s = Some c → c ∈ String.list_ascii_of_string s.
Proof.
  rewrite <- (String.string_of_list_ascii_of_string s) at 1.
  rewrite string_get_of_list. apply list_elem_of_lookup_2.
Qed.

Lemma string_get_lt (s : string) (i : nat) :
  (i < String.length s)%nat → is_Some (String.get i s).
Proof.
  rewrite <- (String.string_of_list_ascii_of_string s).
  rewrite string_length_of_list, string_get_of_list.
  apply lookup_lt_is_Some_2.
Qed.

(** [LABELS[rect_id % len(LABELS)]] never raises, and a label is neither
    a berry nor a dot, a star or a newline. *)
Lemma label_is_Some (rect_id : nat) : is_Some (label rect_id).
Proof.
  unfold label. apply string_get_lt.
  apply Nat.mod_upper_bound. by vm_compute.
Qed.

Lemma label_plain (rect_id : nat) (c : Ascii.ascii) :
  label rect_id = Some c →
  c ≠ "@"%char ∧ c ≠ "."%char ∧ c ≠ "*"%char ∧ c ≠ newline.
Proof.
  intros Hc%string_get_elem_of.
  assert (Forall (λ c, c ≠ "@"%char ∧ c ≠ "."%char ∧ c ≠ "*"%char ∧
                       c ≠ newline) (String.list_ascii_of_string LABELS))
    as Hall.
  { vm_compute. repeat (constructor; [by repeat split |]). constructor. }
  by apply (proj1 (Forall_forall _ _) Hall).
Qed.

(** The inner and the outer loop append the characters of the cells. *)
Lemma cols_loop_spec (cell : Z → option Ascii.ascii) (cellf : Z → Ascii.ascii)
    (cols : list Z) (buf : string) :
  (∀ col, col ∈ cols → cell col = Some (cellf col)) →
  cols_loop cell cols buf =
  Some (buf +:+ String.string_of_list_ascii (map cellf cols)).
Proof.
  revert buf. induction cols as [| col cols IH]; intros buf Hcell; simpl.
  - by rewrite string_app_nil_r.
  - rewrite (Hcell col) by left. simpl. rewrite IH.
    + by rewrite string_app_assoc.
    + intros c Hc. apply Hcell. by right.
Qed.

Lemma cols_loop_None (cell : Z → option Ascii.ascii) (cols : list Z)
    (buf : string) (col : Z) :
  col ∈ cols → cell col = None → cols_loop cell cols buf = None.
Proof.
  revert buf. induction cols as [| c cols IH]; intros buf Hin Hnone.
  - by apply elem_of_nil in Hin.
  - simpl. destruct (cell c) as [x |] eqn:E; [| done]. simpl.
    apply IH; [| done].
    apply elem_of_cons in Hin as [-> | Hin]; [congruence | done].
Qed.

Lemma rows_loop_spec (cell : Z → Z → option Ascii.ascii)
    (cellf : Z → Z → Ascii.ascii) (rws cols : list Z) (buf : string) :
  (∀ row col, row ∈ rws → col ∈ cols →
     cell row col = Some (cellf row col)) →
  rows_loop cell rws cols buf =
  Some (buf +:+ String.string_of_list_ascii (grid_text cellf rws cols)).
Proof.
  revert buf. induction rws as [| row rws IH]; intros buf Hcell; simpl.
  - by rewrite string_app_nil_r.
  - rewrite (cols_loop_spec _ (cellf row)).
    2:{ intros col Hcol. apply Hcell; [left | done]. }
    simpl. rewrite IH.
    2:{ intros r c Hr Hc. apply Hcell; [by right | done]. }
    f_equal. rewrite !string_app_assoc. f_equal.
    rewrite !string_of_list_ascii_app. simpl.
    by rewrite string_app_assoc.
Qed.

Lemma rows_loop_None (cell : Z → Z → option Ascii.ascii)
    (rws cols : list Z) (buf : string) (row col : Z) :
  (∀ r c, r ∈ rws → c ∈ cols → r ≠ row → is_Some (cell r c)) →
  row ∈ rws → col ∈ cols → cell row col = None →
  rows_loop cell rws cols buf = None.
Proof.
  revert buf. induction rws as [| r rws IH]; intros buf Hother Hin Hc Hnone.
  - by apply elem_of_nil in Hin.
  - simpl. destruct (decide (r = row)) as [-> | Hne].
    + by rewrite (cols_loop_None _ _ _ col).
    + destruct (cols_loop (cell r) cols buf) as [buf' |]; [| done]. simpl.
      apply IH; try done.
      * intros r' c' Hr' Hc' Hne'. apply Hother; [by right | done | done].
      * apply elem_of_cons in Hin as [-> | Hin]; [done | done].
Qed.

(** Chunks of equal length: the position of an element of a chunk. *)
Lemma flat_map_lookup_const {A B} (g : A → list B) (l : list A) (w : nat)
    (i k : nat) (a : A) :
  (∀ x, x ∈ l → length (g x) = w) → l !! i = Some a → (k < w)%nat →
  flat_map g l !! (i * w + k)%nat = g a !! k.
Proof.
  revert i. induction l as [| x l IH]; intros i Hlen Hi Hk; [done |].
  simpl. destruct i as [| i].
  - injection Hi as ->. simpl. apply lookup_app_l. rewrite Hlen by left. lia.
  - simpl in Hi. rewrite lookup_app_r by (rewrite Hlen by left; lia).
    rewrite (Hlen x) by left.
    replace (S i * w + k - w)%nat with (i * w + k)%nat by lia.
    apply IH; [| done | done]. intros y Hy. apply Hlen. by right.
Qed.

Lemma flat_map_length_const {A B} (g : A → list B) (l : list A) (w : nat) :
  (∀ x, x ∈ l → length (g x) = w) →
  length (flat_map g l) = (length l * w)%nat.
Proof.
  induction l as [| x l IH]; intros Hlen; [done |]. simpl.
  rewrite length_app, (Hlen x) by left. rewrite IH; [lia |].
  intros y Hy. apply Hlen. by right.
Qed.

(** The layout of the text: [nr] lines of [nc] cells and a newline. *)
Lemma grid_text_layout (cellf : Z → Z → Ascii.ascii) (nr nc : Z) :
  let text := grid_text cellf (py_range 0 nr) (py_range 0 nc) in
  let w := (Z.to_nat nc + 1)%nat in
  length text = (Z.to_nat nr * w)%nat ∧
  ∀ i : nat, Z.of_nat i < nr →
    text !! (i * w + Z.to_nat nc)%nat = Some newline ∧
    ∀ k : nat, Z.of_nat k < nc →
      text !! (i * w + k)%nat = Some (cellf (Z.of_nat i) (Z.of_nat k)).
Proof.
  intros text w. unfold text, grid_text, py_range. rewrite !Z.sub_0_r.
  assert (∀ row, row ∈ seqZ 0 nr →
            length (map (cellf row) (seqZ 0 nc) ++ [newline]) = w) as Hlen.
  { intros row _. rewrite length_app, length_map, length_seqZ. done. }
  split.
  { rewrite (flat_map_length_const _ _ w Hlen). by rewrite length_seqZ. }
  intros i Hi.
  assert (seqZ 0 nr !! i = Some (Z.of_nat i)) as Hrow
    by (rewrite lookup_seqZ_lt by lia; f_equal; lia).
  split.
  - rewrite (flat_map_lookup_const _ _ w _ _ (Z.of_nat i) Hlen Hrow)
      by (unfold w; lia).
    rewrite lookup_app_r by (rewrite length_map, length_seqZ; lia).
    rewrite length_map, length_seqZ. by rewrite Nat.sub_diag.
  - intros k Hk.
    rewrite (flat_map_lookup_const _ _ w _ _ (Z.of_nat i) Hlen Hrow)
      by (unfold w; lia).
    rewrite lookup_app_l by (rewrite length_map, length_seqZ; lia).
    rewrite list_lookup_fmap, lookup_seqZ_lt by lia. simpl.
    by rewrite ?Z.add_0_l.
Qed.

(** Every character of the text is a cell or a newline. *)
Lemma grid_text_elem_of (cellf : Z → Z → Ascii.ascii) (rws cols : list Z)
    (c : Ascii.ascii) :
  c ∈ grid_text cellf rws cols →
  c = newline ∨ ∃ row col, row ∈ rws ∧ col ∈ cols ∧ c = cellf row col.
Proof.
  unfold grid_text. rewrite elem_of_flat_map.
  intros (row & Hrow & [Hc | Hc%list_elem_of_singleton]%elem_of_app).
  - apply list_elem_of_fmap in Hc as (col & -> & Hcol).
    right. by exists row, col.
  - by left.
Qed.
End text_facts.

Section str_facts.
Variables (maximum : Z) (data : list string).
Let f := StrawberryField_init maximum data.

(** The character that [__str__] writes for a cell. *)
Let str_char (row col : Z) : Ascii.ascii :=
  if bool_decide ((row, col) ∈ default [] (py_getitem (rows f) row))
  then "@"%char else "."%char.

Lemma str_cell_spec (row col : Z) :
  row ∈ py_range 0 (num_rows f) →
  str_cell f row col = Some (str_char row col).
Proof.
  unfold py_range. intros Hrow%elem_of_seqZ.
  destruct (proj2 (py_getitem_is_Some (rows f) row)) as [r Hr].
  { pose proof (init_rows_length maximum data) as Hlen. fold f in Hlen.
    lia. }
  unfold str_cell, str_char. by rewrite Hr.
Qed.

Lemma str_char_spec (i k : nat) :
  (i < length data)%nat →
  (grid_berry data (Z.of_nat i, Z.of_nat k) →
   str_char (Z.of_nat i) (Z.of_nat k) = "@"%char) ∧
  (¬ grid_berry data (Z.of_nat i, Z.of_nat k) →
   str_char (Z.of_nat i) (Z.of_nat k) = "."%char).
Proof.
  intros Hi. destruct (lookup_lt_is_Some_2 data i Hi) as [s Hs].
  assert (py_getitem (rows f) (Z.of_nat i) =
          Some (row_points (Z.of_nat i) 0 (String.list_ascii_of_string s)))
    as Hrow.
  { rewrite py_getitem_nonneg by lia. rewrite Nat2Z.id.
    apply init_rows_lookup. by exists s. }
  unfold str_char. rewrite Hrow. cbn [default from_option id].
  assert ((Z.of_nat i, Z.of_nat k)
            ∈ row_points (Z.of_nat i) 0 (String.list_ascii_of_string s) ↔
          grid_berry data (Z.of_nat i, Z.of_nat k)) as Hiff.
  { rewrite row_points_spec. split.
    - intros (_ & k' & Hk' & Hat). exists i, k, s.
      split; [done |]. split; [done |].
      by replace k with k' by lia.
    - intros (i' & k' & s' & [= Hi' Hk'] & Hs' & Hat).
      apply Nat2Z.inj in Hi', Hk'. subst i' k'.
      split; [done |]. exists k. split; [lia |]. congruence. }
  split; intros Hg.
  - rewrite bool_decide_eq_true_2; [done | by apply Hiff].
  - rewrite bool_decide_eq_false_2; [done |]. by rewrite Hiff.
Qed.

Lemma str_text :
  StrawberryField_str f =
  Some (String.string_of_list_ascii
          (grid_text str_char (py_range 0 (num_rows f))
             (py_range 0 (num_cols f)))).
Proof.
  unfold StrawberryField_str.
  rewrite (rows_loop_spec _ str_char); [done |].
  intros row col Hrow _. by apply str_cell_spec.
Qed.
End str_facts.

Lemma max_list_const (l : list nat) (n : nat) :
  l ≠ [] → (∀ x, x ∈ l → x = n) → max_list l = n.
Proof.
  induction l as [| x l IH]; [done |]. intros _ Hall. simpl.
  rewrite (Hall x) by left. destruct l as [| y l]; [simpl; lia |].
  rewrite IH; [lia | done |]. intros z Hz. apply Hall. by right.
Qed.

Lemma string_length_chars (s : string) :
  String.length s = length (String.list_ascii_of_string s).
Proof. induction s as [| c s IH]; simpl; [done | by rewrite IH]. Qed.

Lemma lines_text (data : list string) :
  String.string_of_list_ascii
    (flat_map (λ row, String.list_ascii_of_string row ++ [newline]) data) =
  foldr (λ row text, row +:+ String newline text) EmptyString data.
Proof.
  induction data as [| row data IH]; [done |]. simpl.
  rewrite string_of_list_ascii_app, IH, string_of_list_ascii_app.
  rewrite String.string_of_list_ascii_of_string, string_app_assoc.
  done.
Qed.

(** X17: [str(field)] for a field built by [__init__] never raises.  The
    text has one line per input row, each of [num_cols] characters and a
    newline; the character of a cell is ["@"] where the input has a berry
    and ["."] everywhere else, so shorter rows are padded with dots and
    any other input character is shown as a dot. *)
Theorem str_shows_berries_and_dots (maximum : Z) (data : list string) :
  let f := StrawberryField_init maximum data in
  let w := (Z.to_nat (num_cols f) + 1)%nat in
  ∃ text,
    StrawberryField_str f = Some text ∧
    String.length text = (length data * w)%nat ∧
    ∀ i : nat, (i < length data)%nat →
      char_at text (i * w + Z.to_nat (num_cols f)) = Some newline ∧
      ∀ k : nat, Z.of_nat k < num_cols f →
        (grid_berry data (Z.of_nat i, Z.of_nat k) →
         char_at text (i * w + k) = Some "@"%char) ∧
        (¬ grid_berry data (Z.of_nat i, Z.of_nat k) →
         char_at text (i * w + k) = Some "."%char).
Proof.
  intros f w. subst w f. eexists. split; [apply str_text |].
  destruct (StrawberryField_init_spec maximum data) as (_ & Hn & _).
  match goal with
  | |- context [grid_text ?c ?rws ?cols] =>
      pose proof (grid_text_layout c
                    (num_rows (StrawberryField_init maximum data))
                    (num_cols (StrawberryField_init maximum data)))
        as [Hlen Hcells]
  end.
  unfold char_at. split.
  { rewrite string_length_of_list, Hlen, Hn, Nat2Z.id. done. }
  intros i Hi.
  destruct (Hcells i) as [Hnl Hcell]; [lia |].
  split; [by rewrite string_get_of_list |].
  intros k Hk. rewrite string_get_of_list, (Hcell k Hk).
  destruct (str_char_spec maximum data i k Hi) as [Hb Hd].
  split; intros Hg; f_equal; [by apply Hb | by apply Hd].
Qed.

(** X18: when every input row has the same length and holds only ["@"]
    and ["."], [str(field)] gives the input back: the rows in order, each
    followed by a newline. *)
Theorem str_gives_the_input_back
    (maximum : Z) (data : list string) (n : nat)
    (Hwidth : ∀ row, row ∈ data → String.length row = n)
    (Hchars : ∀ row c, row ∈ data → c ∈ String.list_ascii_of_string row →
                c = "@"%char ∨ c = "."%char) :
  StrawberryField_str (StrawberryField_init maximum data) =
  Some (foldr (λ row text, row +:+ String newline text) EmptyString data).
Proof.
  rewrite str_text, <- lines_text. f_equal. f_equal.
  destruct (StrawberryField_init_spec maximum data) as (_ & Hn & _).
  unfold grid_text, py_range.
  rewrite !Z.sub_0_r, !flat_map_concat_map. f_equal.
  apply list_eq. intros i. rewrite !list_lookup_fmap.
  destruct (data !! i) as [s |] eqn:Hs.
  2:{ rewrite lookup_seqZ_ge; [done |].
      apply lookup_ge_None in Hs. lia. }
  assert (i < length data)%nat as Hi by (by eapply lookup_lt_Some).
  rewrite lookup_seqZ_lt by lia. cbn [fmap option_fmap option_map].
  rewrite Z.add_0_l. f_equal. f_equal.
  assert (num_cols (StrawberryField_init maximum data) = Z.of_nat n)
    as Hcols.
  { rewrite init_num_cols. f_equal. apply max_list_const.
    - destruct data; [done | done].
    - intros x (row & -> & Hrow)%list_elem_of_fmap.
      rewrite <- string_length_chars. by apply Hwidth. }
  assert (length (String.list_ascii_of_string s) = n) as Hlen.
  { rewrite <- string_length_chars. apply Hwidth.
    by eapply list_elem_of_lookup_2. }
  apply list_eq. intros k. rewrite list_lookup_fmap.
  destruct (String.list_ascii_of_string s !! k) as [c |] eqn:Hc.
  2:{ rewrite lookup_seqZ_ge; [done |].
      apply lookup_ge_None in Hc. lia. }
  assert (k < n)%nat as Hk by (rewrite <- Hlen; by eapply lookup_lt_Some).
  rewrite lookup_seqZ_lt by lia. cbn [fmap option_fmap option_map].
  rewrite Z.add_0_l. f_equal.
  destruct (str_char_spec maximum data i k Hi) as [Hb Hd].
  destruct (Hchars s c) as [-> | ->];
    [by eapply list_elem_of_lookup_2 | by eapply list_elem_of_lookup_2 | |].
  - apply Hb. by exists i, k, s.
  - apply Hd. intros (i' & k' & s' & [= Hi' Hk'] & Hs' & Hat).
    apply Nat2Z.inj in Hi', Hk'. subst i' k'.
    rewrite Hs in Hs'. injection Hs' as <-. rewrite Hc in Hat. done.
Qed.

Lemma str_gives_the_input_back_witness :
  StrawberryField_str (StrawberryField_init 2 ["@.@"%string; "..@"%string]) =
  Some (foldr (λ row text, row +:+ String newline text) EmptyString
          ["@.@"%string; "..@"%string]).
Proof.
  apply (str_gives_the_input_back 2 ["@.@"%string; "..@"%string] 3).
  - intros row Hrow.
    repeat (apply elem_of_cons in Hrow as [-> | Hrow]; [reflexivity |]).
    by apply elem_of_nil in Hrow.
  - intros row c Hrow Hc.
    repeat (apply elem_of_cons in Hrow as [-> | Hrow];
            [vm_compute in Hc;
             repeat (apply elem_of_cons in Hc as [-> | Hc];
                     [first [by left | by right] |]);
             by apply elem_of_nil in Hc |]).
    by apply elem_of_nil in Hrow.
Defined.

(** ** The pictures of a partition *)

Lemma display_full_from_spec (rect_id : nat) (point : Point)
    (partition : list Rectangle) :
  display_full_from rect_id point partition =
  match get_rect_id_from rect_id point partition with
  | Some id => label id
  | None => Some "."%char
  end.
Proof.
  revert rect_id. induction partition as [| rect rest IH]; intros rect_id.
  - done.
  - simpl. destruct (contains rect point); [done | apply IH].
Qed.

(** X19: [display_full] never raises, whatever the field and the
    partition.  The text has [num_rows] lines of [num_cols] characters and
    a newline.  A cell that no rectangle of the partition contains shows a
    dot; any other cell shows the label of the first rectangle of the
    partition that contains it, [LABELS[i % 62]] for position [i], which
    is a letter or a digit. *)
Theorem display_full_shows_first_rectangle
    (f : StrawberryField) (partition : list Rectangle) :
  let nc := Z.to_nat (num_cols f) in
  let w := (nc + 1)%nat in
  ∃ text,
    display_full f partition = Some text ∧
    String.length text = (Z.to_nat (num_rows f) * w)%nat ∧
    ∀ i : nat, Z.of_nat i < num_rows f →
      char_at text (i * w + nc) = Some newline ∧
      ∀ k : nat, Z.of_nat k < num_cols f →
        let point := (Z.of_nat i, Z.of_nat k) in
        ((∀ r, r ∈ partition → contains r point = false) →
         char_at text (i * w + k) = Some "."%char) ∧
        (∀ id r, partition !! id = Some r → contains r point = true →
           (∀ j r', (j < id)%nat → partition !! j = Some r' →
                    contains r' point = false) →
           char_at text (i * w + k) = label id ∧
           ∃ c, label id = Some c ∧
                c ≠ "."%char ∧ c ≠ "@"%char ∧ c ≠ newline).
Proof.
  intros nc w. subst w nc.
  set (cellf := λ row col : Z,
         default "."%char (display_full_from 0 (row, col) partition)).
  assert (∀ row col, display_full_from 0 (row, col) partition =
                     Some (cellf row col)) as Hcell.
  { intros row col. unfold cellf. rewrite display_full_from_spec.
    destruct (get_rect_id_from 0 (row, col) partition) as [id |]; [| done].
    by destruct (label_is_Some id) as [c ->]. }
  exists (String.string_of_list_ascii
            (grid_text cellf (py_range 0 (num_rows f))
               (py_range 0 (num_cols f)))).
  split.
  { unfold display_full. rewrite (rows_loop_spec _ cellf); [done |].
    intros row col _ _. apply Hcell. }
  destruct (grid_text_layout cellf (num_rows f) (num_cols f))
    as [Hlen Hcells].
  unfold char_at. split; [by rewrite string_length_of_list |].
  intros i Hi. destruct (Hcells i Hi) as [Hnl Hat].
  split; [by rewrite string_get_of_list |].
  intros k Hk. cbv zeta. set (point := (Z.of_nat i, Z.of_nat k)).
  rewrite string_get_of_list, (Hat k Hk), <- Hcell.
  rewrite display_full_from_spec. fold point.
  pose proof (get_rect_id_from_spec 0 point partition) as Hspec.
  destruct (get_rect_id_from 0 point partition) as [j |].
  - destruct Hspec as (i' & r' & -> & Hj & Hc & Hfirst). split.
    + intros Hnone. rewrite Hnone in Hc; [done |].
      by eapply list_elem_of_lookup_2.
    + intros id r Hid Hcid Hbefore.
      assert (i' = id) as ->.
      { destruct (Nat.lt_trichotomy i' id) as [Hlt | [-> | Hlt]]; [| done |].
        - rewrite (Hbefore _ _ Hlt Hj) in Hc. done.
        - rewrite (Hfirst _ _ Hlt Hid) in Hcid. done. }
      split; [done |].
      destruct (label_is_Some id) as [c Hlabel]. exists c.
      destruct (label_plain id c Hlabel) as (? & ? & ? & ?). done.
  - split; [done |].
    intros id r Hid Hcid _. rewrite Hspec in Hcid; [done |].
    by eapply list_elem_of_lookup_2.
Qed.

Section display_facts.
Variables (maximum : Z) (data : list string).
Let f := StrawberryField_init maximum data.

Lemma covering_ids_spec (point : Point) (rect_id : nat)
    (partition : list Rectangle) (id : nat) :
  id ∈ covering_ids f point rect_id partition ↔
  ∃ j r, id = (rect_id + j)%nat ∧ partition !! j = Some r ∧
         greenhouse_covers f r point = true.
Proof.
  revert rect_id. induction partition as [| rect rest IH]; intros rect_id.
  { simpl. split; [by intros ?%elem_of_nil | by intros (j & r & _ & ? & _)]. }
  simpl. destruct (greenhouse_covers f rect point) eqn:E.
  - rewrite elem_of_cons, IH. split.
    + intros [-> | (j & r & -> & Hj & Hc)].
      * exists 0%nat, rect. split; [lia | done].
      * exists (S j), r. split; [lia | done].
    + intros ([| j] & r & -> & Hj & Hc).
      * left. lia.
      * right. exists j, r. split; [lia | done].
  - rewrite IH. split.
    + intros (j & r & -> & Hj & Hc). exists (S j), r. split; [lia | done].
    + intros ([| j] & r & -> & Hj & Hc).
      * simpl in Hj. injection Hj as <-. congruence.
      * exists j, r. split; [lia | done].
Qed.

Lemma covering_ids_NoDup (point : Point) (rect_id : nat)
    (partition : list Rectangle) :
  NoDup (covering_ids f point rect_id partition).
Proof.
  revert rect_id. induction partition as [| rect rest IH]; intros rect_id.
  { constructor. }
  simpl. destruct (greenhouse_covers f rect point); [| apply IH].
  constructor; [| apply IH].
  intros (j & r & Hid & _)%covering_ids_spec. lia.
Qed.

(** The loop of [display] over the partition, for one cell. *)
Lemma display_rects_spec (point : Point) (partition : list Rectangle)
    (rect_id : nat) (dot : bool) (num_assigned : Z) (chr : Ascii.ascii) :
  (∀ r, r ∈ partition → in_rows f r) → 0 <= num_assigned →
  display_rects f point rect_id partition (dot, num_assigned, chr) =
  Some match covering_ids f point rect_id partition with
       | [] => (dot, num_assigned, chr)
       | id :: ids =>
           (if num_assigned =? 0 then false else dot,
            num_assigned + Z.of_nat (length (id :: ids)),
            if (num_assigned =? 0) && bool_decide (ids = [])
            then default "."%char (label id) else "*"%char)
       end.
Proof.
  revert rect_id dot num_assigned chr.
  induction partition as [| rect rest IH];
    intros rect_id dot num chr Hrows Hnum; [done |].
  assert (∀ r, r ∈ rest → in_rows f r) as Hrest
    by (intros r Hr; apply Hrows; by right).
  assert (in_rows f rect) as Hrect by (apply Hrows; left).
  cbn [display_rects covering_ids]. unfold greenhouse_covers.
  destruct (feasible_region_cases maximum data rect Hrect) as
    [[Hfeas _] | (gh & Hfeas & _)]; fold f in Hfeas; rewrite Hfeas;
    cbn [mbind option_bind]; [by apply IH |].
  destruct (contains gh point); [| by apply IH].
  destruct (num =? 0) eqn:Ez.
  - apply Z.eqb_eq in Ez as ->.
    destruct (label_is_Some rect_id) as [c Hc]. rewrite Hc.
    cbn [mbind option_bind default from_option id].
    rewrite IH by (done || lia).
    destruct (covering_ids f point (S rect_id) rest) as [| id ids];
      [done |].
    change (0 + 1 =? 0) with false. cbn [andb].
    rewrite (bool_decide_eq_false_2 (id :: ids = [])) by done.
    replace (0 + Z.of_nat (length (rect_id :: id :: ids)))
      with (0 + 1 + Z.of_nat (length (id :: ids)))
      by (rewrite !length_cons; lia).
    done.
  - assert ((num + 1 =? 0) = false) as Ez'
      by (apply Z.eqb_neq; lia).
    rewrite IH by (done || lia). cbn [andb].
    destruct (covering_ids f point (S rect_id) rest) as [| id ids].
    + replace (num + Z.of_nat (length [rect_id])) with (num + 1)
        by (simpl; lia).
      done.
    + rewrite Ez'. cbn [andb].
      replace (num + Z.of_nat (length (rect_id :: id :: ids)))
        with (num + 1 + Z.of_nat (length (id :: ids)))
        by (rewrite !length_cons; lia).
      done.
Qed.

(** The character that [display] writes for a cell. *)
Let display_char (partition : list Rectangle) (row col : Z) : Ascii.ascii :=
  match covering_ids f (row, col) 0 partition with
  | [] => if bool_decide ((row, col) ∈ concat (rows f))
          then "@"%char else "."%char
  | [id] => default "."%char (label id)
  | _ => "*"%char
  end.

Lemma display_cell_spec (partition : list Rectangle) (row col : Z) :
  (∀ r, r ∈ partition → in_rows f r) →
  display_cell f partition (concat (rows f)) row col =
  Some (display_char partition row col).
Proof.
  intros Hrows. unfold display_cell, display_char.
  rewrite display_rects_spec by done.
  destruct (covering_ids f (row, col) 0 partition) as [| id [| id' ids]];
    done.
Qed.

Lemma display_text (partition : list Rectangle) :
  (∀ r, r ∈ partition → in_rows f r) →
  display f partition =
  Some (String.string_of_list_ascii
          (grid_text (display_char partition) (py_range 0 (num_rows f))
             (py_range 0 (num_cols f)))).
Proof.
  intros Hrows. unfold display.
  rewrite (rows_loop_spec _ (display_char partition)); [done |].
  intros row col _ _. by apply display_cell_spec.
Qed.

(** The cases of a cell. *)
Lemma display_char_cases (partition : list Rectangle) (row col : Z) :
  (∀ r, r ∈ partition → in_rows f r) →
  let point := (row, col) in
  ((∀ r, r ∈ partition → greenhouse_covers f r point = false) →
   (grid_berry data point → display_char partition row col = "@"%char) ∧
   (¬ grid_berry data point → display_char partition row col = "."%char)) ∧
  (∀ id r, partition !! id = Some r →
     greenhouse_covers f r point = true →
     (∀ j r', j ≠ id → partition !! j = Some r' →
              greenhouse_covers f r' point = false) →
     Some (display_char partition row col) = label id) ∧
  (∀ id id' r r', id ≠ id' →
     partition !! id = Some r → partition !! id' = Some r' →
     greenhouse_covers f r point = true →
     greenhouse_covers f r' point = true →
     display_char partition row col = "*"%char) ∧
  ((grid_berry data point →
    ∃ r, r ∈ partition ∧ contains r point = true) →
   display_char partition row col ≠ "@"%char).
Proof.
  intros Hrows point. unfold display_char. fold point.
  pose proof (covering_ids_spec point 0 partition) as Hspec.
  pose proof (covering_ids_NoDup point 0 partition) as Hnodup.
  assert (point ∈ concat (rows f) ↔ grid_berry data point) as Hberry.
  { rewrite elem_of_concat. unfold f. rewrite <- occupied_grid_berry.
    unfold occupied. split; intros (l & ? & ?); by exists l. }
  split; [| split; [| split]].
  - intros Hnone.
    destruct (covering_ids f point 0 partition) as [| id ids].
    + split; intros Hg.
      * rewrite bool_decide_eq_true_2; [done | by apply Hberry].
      * rewrite bool_decide_eq_false_2; [done | by rewrite Hberry].
    + destruct (proj1 (Hspec id)) as (j & r & _ & Hj & Hc); [left |].
      rewrite Hnone in Hc; [done | by eapply list_elem_of_lookup_2].
  - intros id r Hid Hc Hothers.
    assert (id ∈ covering_ids f point 0 partition) as Hin.
    { apply Hspec. by exists id, r. }
    assert (∀ x, x ∈ covering_ids f point 0 partition → x = id) as Hall.
    { intros x (j & r' & -> & Hj & Hc')%Hspec.
      destruct (decide (j = id)) as [-> | Hne]; [done |].
      rewrite (Hothers _ _ Hne Hj) in Hc'. done. }
    destruct (covering_ids f point 0 partition) as [| x [| y ids]].
    + by apply elem_of_nil in Hin.
    + rewrite (Hall x) by left.
      by destruct (label_is_Some id) as [c ->].
    + exfalso. apply NoDup_cons in Hnodup as [Hx _]. apply Hx.
      rewrite (Hall x) by left. rewrite (Hall y); [left |].
      right. left.
  - intros id id' r r' Hne Hid Hid' Hc Hc'.
    assert (id ∈ covering_ids f point 0 partition) as Hin
      by (apply Hspec; by exists id, r).
    assert (id' ∈ covering_ids f point 0 partition) as Hin'
      by (apply Hspec; by exists id', r').
    destruct (covering_ids f point 0 partition) as [| x [| y ids]].
    + by apply elem_of_nil in Hin.
    + apply list_elem_of_singleton in Hin, Hin'. congruence.
    + done.
  - intros Hcovered.
    destruct (covering_ids f point 0 partition) as [| x [| y ids]] eqn:E.
    + destruct (decide (point ∈ concat (rows f))) as [Hin | Hin].
      * exfalso. apply Hberry in Hin.
        destruct (Hcovered Hin) as (r & Hr & Hc).
        destruct (feasible_region_cases maximum data r (Hrows r Hr))
          as [[_ Hnone] | (gh & Hfeas & _ & _ & _ & Hcov & _)].
        { rewrite (Hnone point Hin) in Hc. done. }
        apply list_elem_of_lookup_1 in Hr as [j Hj].
        assert ((0 + j)%nat ∈ @nil nat) as Hnil;
          [| by apply elem_of_nil in Hnil].
        apply Hspec. exists j, r. split; [done |]. split; [done |].
        unfold greenhouse_covers. fold f in Hfeas. rewrite Hfeas.
        by apply Hcov.
      * by rewrite bool_decide_eq_false_2.
    + destruct (label_is_Some x) as [c Hc]. rewrite Hc. simpl.
      by destruct (label_plain x c Hc) as (? & _).
    + done.
Qed.
End display_facts.

(** X20: [display] on a field built by [__init__] and a partition whose
    rectangles span rows of the field.  It returns a text of one line per
    input row, each of [num_cols] characters and a newline.  A cell that
    no greenhouse of the partition covers shows ["@"] where the input has
    a berry and ["."] elsewhere; a cell covered by the greenhouse of
    exactly one rectangle shows the label of that rectangle's position; a
    cell covered by the greenhouses of two rectangles shows ["*"].  When
    every berry lies in a rectangle of the partition, no ["@"] is left in
    the text. *)
Theorem display_shows_greenhouses
    (maximum : Z) (data : list string) (partition : list Rectangle)
    (Hrows : ∀ r, r ∈ partition →
               in_rows (StrawberryField_init maximum data) r) :
  let f := StrawberryField_init maximum data in
  let nc := Z.to_nat (num_cols f) in
  let w := (nc + 1)%nat in
  ∃ text,
    display f partition = Some text ∧
    String.length text = (length data * w)%nat ∧
    (∀ i : nat, (i < length data)%nat →
       char_at text (i * w + nc) = Some newline ∧
       ∀ k : nat, Z.of_nat k < num_cols f →
         let point := (Z.of_nat i, Z.of_nat k) in
         let shown := char_at text (i * w + k) in
         ((∀ r, r ∈ partition → greenhouse_covers f r point = false) →
          (grid_berry data point → shown = Some "@"%char) ∧
          (¬ grid_berry data point → shown = Some "."%char)) ∧
         (∀ id r, partition !! id = Some r →
            greenhouse_covers f r point = true →
            (∀ j r', j ≠ id → partition !! j = Some r' →
                     greenhouse_covers f r' point = false) →
            shown = label id) ∧
         (∀ id id' r r', id ≠ id' →
            partition !! id = Some r → partition !! id' = Some r' →
            greenhouse_covers f r point = true →
            greenhouse_covers f r' point = true →
            shown = Some "*"%char)) ∧
    ((∀ p, grid_berry data p →
           ∃ r, r ∈ partition ∧ contains r p = true) →
     "@"%char ∉ String.list_ascii_of_string text).
Proof.
  intros f nc w. subst w nc f.
  eexists. split; [by apply display_text |].
  destruct (StrawberryField_init_spec maximum data) as (_ & Hn & _).
  match goal with
  | |- context [grid_text ?c ?rws ?cols] =>
      pose proof (grid_text_layout c
                    (num_rows (StrawberryField_init maximum data))
                    (num_cols (StrawberryField_init maximum data)))
        as [Hlen Hcells];
      pose proof (grid_text_elem_of c rws cols) as Helem
  end.
  unfold char_at. split.
  { rewrite string_length_of_list, Hlen, Hn, Nat2Z.id. done. }
  split.
  - intros i Hi. destruct (Hcells i) as [Hnl Hcell]; [lia |].
    split; [by rewrite string_get_of_list |].
    intros k Hk. cbv zeta. rewrite string_get_of_list, (Hcell k Hk).
    destruct (display_char_cases maximum data partition
                (Z.of_nat i) (Z.of_nat k) Hrows)
      as (Hnone & Hone & Htwo & _).
    split; [| split].
    + intros Hno. destruct (Hnone Hno) as [Hb Hd].
      split; intros Hg; f_equal; [by apply Hb | by apply Hd].
    + intros id r Hid Hc Hothers. by apply (Hone id r).
    + intros id id' r r' Hne Hid Hid' Hc Hc'. f_equal.
      by apply (Htwo id id' r r').
  - intros Hcovered Hin.
    rewrite String.list_ascii_of_string_of_list_ascii in Hin.
    apply Helem in Hin as [Hnl | (row & col & _ & _ & Hc)];
      [discriminate Hnl |].
    destruct (display_char_cases maximum data partition row col Hrows)
      as (_ & _ & _ & Hberry).
    symmetry in Hc. revert Hc. apply Hberry. apply Hcovered.
Qed.

Lemma display_shows_greenhouses_witness :
  let data := ["@.@"%string; "..@"%string] in
  let partition := [make_rectangle 0 0 1 1; make_rectangle 0 2 1 2] in
  let f := StrawberryField_init 2 data in
  let nc := Z.to_nat (num_cols f) in
  let w := (nc + 1)%nat in
  ∃ text,
    display f partition = Some text ∧
    String.length text = (length data * w)%nat ∧
    (∀ i : nat, (i < length data)%nat →
       char_at text (i * w + nc) = Some newline ∧
       ∀ k : nat, Z.of_nat k < num_cols f →
         let point := (Z.of_nat i, Z.of_nat k) in
         let shown := char_at text (i * w + k) in
         ((∀ r, r ∈ partition → greenhouse_covers f r point = false) →
          (grid_berry data point → shown = Some "@"%char) ∧
          (¬ grid_berry data point → shown = Some "."%char)) ∧
         (∀ id r, partition !! id = Some r →
            greenhouse_covers f r point = true →
            (∀ j r', j ≠ id → partition !! j = Some r' →
                     greenhouse_covers f r' point = false) →
            shown = label id) ∧
         (∀ id id' r r', id ≠ id' →
            partition !! id = Some r → partition !! id' = Some r' →
            greenhouse_covers f r point = true →
            greenhouse_covers f r' point = true →
            shown = Some "*"%char)) ∧
    ((∀ p, grid_berry data p →
           ∃ r, r ∈ partition ∧ contains r p = true) →
     "@"%char ∉ String.list_ascii_of_string text).
Proof.
  apply (display_shows_greenhouses 2 ["@.@"%string; "..@"%string]
           [make_rectangle 0 0 1 1; make_rectangle 0 2 1 2]).
  intros r Hr _.
  repeat (apply elem_of_cons in Hr as [-> | Hr];
          [vm_compute; split; [discriminate | reflexivity] |]).
  by apply elem_of_nil in Hr.
Defined.
